(** * pi-rtk output compaction engine: shallow embedding and properties

    The TypeScript techniques (ANSI stripper, build, test and linter
    aggregators, git compactor, search grouper, path compactor, source
    filter, smart truncator, length-based truncation) and the tool-result
    handler that chains them are embedded as Rocq functions over strings of
    UTF-16 code units.  Regular
    expression literals of the source are transcribed one to one into a small
    regex syntax that is run by a backtracking matcher following the
    ECMAScript matching order. *)

From Stdlib Require Import Ascii String.
From Stdlib Require Decimal.
From Stdlib Require Permutation Sorted.
From Stdlib Require Import NArith ZArith Bool Arith Lia List.
Import ListNotations.

Set Implicit Arguments.

(** ** Strings of code units *)

Definition char := N.
Definition str := list char.

Fixpoint str_of (s : string) : str :=
  match s with
  | EmptyString => []
  | String a s' => N_of_ascii a :: str_of s'
  end.

Notation "` s" := (str_of s) (at level 1, s at level 0, format "` s").

Definition NL : char := 10%N.
Definition ESC : char := 27%N.
Definition BEL : char := 7%N.
Definition DQUOTE : char := 34%N.

Definition char_eqb (a b : char) : bool := N.eqb a b.

Fixpoint str_eqb (a b : str) : bool :=
  match a, b with
  | [], [] => true
  | x :: a', y :: b' => char_eqb x y && str_eqb a' b'
  | _, _ => false
  end.

(** WhiteSpace and LineTerminator code units: the set removed by
    [String.prototype.trim] and matched by the regex class [\s]. *)
Definition is_space (c : char) : bool :=
  ((9 <=? c) && (c <=? 13) || (c =? 32) || (c =? 160) || (c =? 5760)
   || (8192 <=? c) && (c <=? 8202) || (c =? 8232) || (c =? 8233)
   || (c =? 8239) || (c =? 8287) || (c =? 12288) || (c =? 65279))%N.

Definition is_digit (c : char) : bool := ((48 <=? c) && (c <=? 57))%N.
Definition is_upper (c : char) : bool := ((65 <=? c) && (c <=? 90))%N.
Definition is_lower (c : char) : bool := ((97 <=? c) && (c <=? 122))%N.
Definition is_alpha (c : char) : bool := is_upper c || is_lower c.
Definition is_word (c : char) : bool := is_alpha c || is_digit c || (c =? 95)%N.
(** The regex atom [.] without the s flag: anything but a line terminator. *)
Definition is_dot (c : char) : bool :=
  negb ((c =? 10) || (c =? 13) || (c =? 8232) || (c =? 8233))%N.

Fixpoint dropWhile (p : char -> bool) (s : str) : str :=
  match s with
  | [] => []
  | c :: s' => if p c then dropWhile p s' else s
  end.

Definition trimStart (s : str) : str := dropWhile is_space s.
Definition trimEnd (s : str) : str := rev (dropWhile is_space (rev s)).
Definition trim (s : str) : str := trimEnd (trimStart s).

(** [s.split(sep)] for a one-unit separator. *)
Fixpoint split (sep : char) (s : str) : list str :=
  match s with
  | [] => [[]]
  | c :: s' =>
      if char_eqb c sep then [] :: split sep s'
      else match split sep s' with
           | l :: ls => (c :: l) :: ls
           | [] => [[c]]
           end
  end.

(** [xs.join(sep)] *)
Fixpoint join (sep : str) (xs : list str) : str :=
  match xs with
  | [] => []
  | [x] => x
  | x :: xs' => x ++ sep ++ join sep xs'
  end.

Definition lines_of (s : str) : list str := split NL s.
Definition unlines (xs : list str) : str := join [NL] xs.

Fixpoint startsWith (p s : str) : bool :=
  match p, s with
  | [], _ => true
  | x :: p', y :: s' => char_eqb x y && startsWith p' s'
  | _ :: _, [] => false
  end.

Definition endsWith (p s : str) : bool := startsWith (rev p) (rev s).

(** [s.indexOf(p)]: first index of an occurrence, -1 when there is none. *)
Fixpoint indexOf_from (p s : str) (i : Z) : Z :=
  if startsWith p s then i
  else match s with
       | [] => (-1)%Z
       | _ :: s' => indexOf_from p s' (i + 1)%Z
       end.

Definition indexOf (p s : str) : Z := indexOf_from p s 0.
Definition includes (p s : str) : bool := (0 <=? indexOf p s)%Z.

(** [s.slice(0, n)] for [0 <= n]. *)
Definition slice0 (n : nat) (s : str) : str := firstn n s.

(** Decimal rendering of the integers that reach template literals. *)
Definition digit_char (d : nat) : char := N.of_nat (48 + d).

Fixpoint uint_chars (d : Decimal.uint) : str :=
  match d with
  | Decimal.Nil => []
  | Decimal.D0 d' => digit_char 0 :: uint_chars d'
  | Decimal.D1 d' => digit_char 1 :: uint_chars d'
  | Decimal.D2 d' => digit_char 2 :: uint_chars d'
  | Decimal.D3 d' => digit_char 3 :: uint_chars d'
  | Decimal.D4 d' => digit_char 4 :: uint_chars d'
  | Decimal.D5 d' => digit_char 5 :: uint_chars d'
  | Decimal.D6 d' => digit_char 6 :: uint_chars d'
  | Decimal.D7 d' => digit_char 7 :: uint_chars d'
  | Decimal.D8 d' => digit_char 8 :: uint_chars d'
  | Decimal.D9 d' => digit_char 9 :: uint_chars d'
  end.

Definition N_to_str (n : N) : str := uint_chars (N.to_uint n).
Definition nat_to_str (n : nat) : str := N_to_str (N.of_nat n).
Definition Z_to_str (z : Z) : str :=
  match z with
  | Zneg p => `"-" ++ N_to_str (Npos p)
  | _ => N_to_str (Z.to_N z)
  end.

(** ** Regular expressions *)

Module Regex.

(** A position inside the subject string: the units already passed (most
    recent first) and the units still ahead. *)
Record pos := mkPos { before : str; after : str }.

Definition caps := list (nat * str).

Fixpoint cap (i : nat) (cs : caps) : option str :=
  match cs with
  | [] => None
  | (j, v) :: cs' => if Nat.eqb i j then Some v else cap i cs'
  end.

Inductive regex : Type :=
| Eps : regex                          (* empty pattern *)
| Chr : (char -> bool) -> regex        (* one unit of a class *)
| Seq : regex -> regex -> regex        (* r1 r2 *)
| Alt : regex -> regex -> regex        (* r1 | r2, left first *)
| Star : bool -> regex -> regex        (* r* when true, r*? when false *)
| Grp : nat -> regex -> regex          (* capture group number i *)
| Bol : regex                          (* ^ without the m flag *)
| Eol : regex                          (* $ without the m flag *)
| Wb : regex.                          (* \b *)

Definition Plus (r : regex) : regex := Seq r (Star true r).
Definition PlusLazy (r : regex) : regex := Seq r (Star false r).
Definition Opt (r : regex) : regex := Alt r Eps.
Definition One (c : char) : regex := Chr (char_eqb c).

Fixpoint Lit (w : str) : regex :=
  match w with
  | [] => Eps
  | c :: w' => Seq (One c) (Lit w')
  end.

(** Literal under the i flag.  Canonicalisation without the u flag never
    maps a unit above 127 to an ASCII unit, so an ASCII letter matches
    exactly its two cases. *)
Definition fold_case (c : char) : char := if is_lower c then (c - 32)%N else c.
Definition OneCI (c : char) : regex := Chr (fun x => char_eqb (fold_case x) (fold_case c)).

Fixpoint LitCI (w : str) : regex :=
  match w with
  | [] => Eps
  | c :: w' => Seq (OneCI c) (LitCI w')
  end.

Fixpoint Alts (rs : list regex) : regex :=
  match rs with
  | [] => Chr (fun _ => false)
  | [r] => r
  | r :: rs' => Alt r (Alts rs')
  end.

Fixpoint Seqs (rs : list regex) : regex :=
  match rs with
  | [] => Eps
  | [r] => r
  | r :: rs' => Seq r (Seqs rs')
  end.

Definition word_at (s : str) : bool :=
  match s with
  | c :: _ => is_word c
  | [] => false
  end.

Definition result := (pos * caps)%type.
Definition cont := pos -> caps -> option result.

Definition orElse (a : option result) (b : unit -> option result) : option result :=
  match a with
  | Some x => Some x
  | None => b tt
  end.

(** The iteration of a star, [RepeatMatcher]: [ma] runs the body once; an
    iteration that consumes nothing is rejected.  [n] bounds the number of
    iterations and is set to one more than the units ahead, which no run of
    consuming iterations can exceed. *)
Fixpoint star_loop (ma : pos -> caps -> cont -> option result) (greedy : bool)
    (k : cont) (n : nat) (p : pos) (cs : caps) {struct n} : option result :=
  match n with
  | O => k p cs
  | S n' =>
      let again (_ : unit) :=
        ma p cs (fun p' cs' =>
          if length (after p') <? length (after p)
          then star_loop ma greedy k n' p' cs'
          else None) in
      if greedy then orElse (again tt) (fun _ => k p cs)
      else orElse (k p cs) again
  end.

(** The backtracking matcher.  [m r p cs k] tries [r] at [p] and hands every
    end position, in ECMAScript's priority order, to the continuation [k]
    until one succeeds. *)
Fixpoint m (r : regex) (p : pos) (cs : caps) (k : cont) {struct r} : option result :=
  match r with
  | Eps => k p cs
  | Chr f =>
      match after p with
      | c :: rest => if f c then k (mkPos (c :: before p) rest) cs else None
      | [] => None
      end
  | Seq a b => m a p cs (fun p' cs' => m b p' cs' k)
  | Alt a b => orElse (m a p cs k) (fun _ => m b p cs k)
  | Star greedy a => star_loop (m a) greedy k (S (length (after p))) p cs
  | Grp i a =>
      m a p cs (fun p' cs' =>
        k p' ((i, firstn (length (after p) - length (after p')) (after p)) :: cs'))
  | Bol => match before p with [] => k p cs | _ :: _ => None end
  | Eol => match after p with [] => k p cs | _ :: _ => None end
  | Wb => if xorb (word_at (before p)) (word_at (after p)) then k p cs else None
  end.

Definition accept : cont := fun p cs => Some (p, cs).

Definition match_at (r : regex) (p : pos) : option result := m r p [] accept.

(** Leftmost match, scanning start positions from [p] to the end. *)
Fixpoint search (r : regex) (bef aft : str) : option (pos * result) :=
  match match_at r (mkPos bef aft) with
  | Some x => Some (mkPos bef aft, x)
  | None =>
      match aft with
      | [] => None
      | c :: aft' => search r (c :: bef) aft'
      end
  end.

(** [s.match(r)] / [r.exec(s)] without the g flag: the captures of the
    leftmost match. *)
Definition exec (r : regex) (s : str) : option caps :=
  match search r [] s with
  | Some (_, (_, cs)) => Some cs
  | None => None
  end.

(** [r.test(s)] *)
Definition test (r : regex) (s : str) : bool :=
  match search r [] s with
  | Some _ => true
  | None => false
  end.

(** [s.replace(r, rep)] with the g flag and a replacement without [$].
    [skip] counts the units of the current match that are still to be
    passed over.  After an empty match the next unit is copied. *)
Fixpoint replace_from (r : regex) (rep : str) (bef aft : str) (skip : nat) : str :=
  match skip with
  | S n =>
      match aft with
      | [] => []
      | c :: aft' => replace_from r rep (c :: bef) aft' n
      end
  | O =>
      match match_at r (mkPos bef aft) with
      | Some (p', _) =>
          match length aft - length (after p') with
          | O => rep ++ match aft with
                        | [] => []
                        | c :: aft' => c :: replace_from r rep (c :: bef) aft' 0
                        end
          | S n => rep ++ match aft with
                          | [] => []
                          | c :: aft' => replace_from r rep (c :: bef) aft' n
                          end
          end
      | None =>
          match aft with
          | [] => []
          | c :: aft' => c :: replace_from r rep (c :: bef) aft' 0
          end
      end
  end.

Definition replaceAll (r : regex) (rep : str) (s : str) : str :=
  replace_from r rep [] s 0.

(** [(s.match(r) || []).length] with the g flag: the number of
    non-overlapping matches, left to right. *)
Fixpoint count_from (r : regex) (bef aft : str) (skip : nat) : nat :=
  match skip with
  | S n =>
      match aft with
      | [] => 0
      | c :: aft' => count_from r (c :: bef) aft' n
      end
  | O =>
      match match_at r (mkPos bef aft) with
      | Some (p', _) =>
          S (match aft with
             | [] => 0
             | c :: aft' => count_from r (c :: bef) aft' (pred (length aft - length (after p')))
             end)
      | None =>
          match aft with
          | [] => 0
          | c :: aft' => count_from r (c :: bef) aft' 0
          end
      end
  end.

Definition countAll (r : regex) (s : str) : nat := count_from r [] s 0.

(** Classes and shorthands used by the patterns of the source. *)
Definition s_ : regex := Chr is_space.
Definition w_ : regex := Chr is_word.
Definition d_ : regex := Chr is_digit.
Definition dot_ : regex := Chr is_dot.
Definition s_star : regex := Star true s_.
Definition s_plus : regex := Plus s_.

(** Declarative meaning of a pattern: [Matches r p q] when [r] can take the
    subject from position [p] to position [q]. *)
Inductive Matches : regex -> pos -> pos -> Prop :=
| M_Eps : forall p, Matches Eps p p
| M_Chr : forall f c bef aft,
    f c = true -> Matches (Chr f) (mkPos bef (c :: aft)) (mkPos (c :: bef) aft)
| M_Seq : forall a b p q r,
    Matches a p q -> Matches b q r -> Matches (Seq a b) p r
| M_AltL : forall a b p q, Matches a p q -> Matches (Alt a b) p q
| M_AltR : forall a b p q, Matches b p q -> Matches (Alt a b) p q
| M_Star0 : forall g a p, Matches (Star g a) p p
| M_StarS : forall g a p q r,
    Matches a p q -> length (after q) < length (after p) ->
    Matches (Star g a) q r -> Matches (Star g a) p r
| M_Grp : forall i a p q, Matches a p q -> Matches (Grp i a) p q
| M_Bol : forall aft, Matches Bol (mkPos [] aft) (mkPos [] aft)
| M_Eol : forall bef, Matches Eol (mkPos bef []) (mkPos bef [])
| M_Wb : forall p,
    xorb (word_at (before p)) (word_at (after p)) = true -> Matches Wb p p.

(** [Span p w q]: position [q] is [p] moved forward over the units [w]. *)
Definition Span (p : pos) (w : str) (q : pos) : Prop :=
  after p = w ++ after q /\ before q = rev w ++ before p.

End Regex.
Import Regex.

Definition ch (a : ascii) : char := N_of_ascii a.

(** [String.prototype.toLowerCase] is a built-in whose full Unicode table is
    not part of the repository: the classifiers take it as a parameter.
    [ascii_toLowerCase] agrees with it on every string of ASCII units and is
    used to run the classifiers on concrete commands. *)
Definition ascii_toLowerCase (s : str) : str :=
  map (fun c => if is_upper c then (c + 32)%N else c) s.

(** ** ANSI stripper (techniques/ansi) *)

Module Ansi.

Definition params : char -> bool := fun c => is_digit c || char_eqb c (ch ";").
Definition osc_end : regex := Alt (One BEL) (Seq (One ESC) (One (ch "\"))).

(** /\x1b\[[0-9;]*[a-zA-Z]/g *)
Definition csi_re : regex :=
  Seqs [One ESC; One (ch "["); Star true (Chr params); Chr is_alpha].

(** /\x1b\][0-9;]*(?:\x07|\x1b\\)/g *)
Definition osc_re : regex :=
  Seqs [One ESC; One (ch "]"); Star true (Chr params); osc_end].

(** /\x1b\][^\x07\x1b]*(?:\x07|\x1b\\)/g *)
Definition other_re : regex :=
  Seqs [One ESC; One (ch "]");
        Star true (Chr (fun c => negb (char_eqb c BEL || char_eqb c ESC)));
        osc_end].

Definition stripAnsi (text : str) : str :=
  replaceAll other_re [] (replaceAll osc_re [] (replaceAll csi_re [] text)).

Definition stripAnsiFast (text : str) : str :=
  if negb (includes [ESC] text) then text else stripAnsi text.

End Ansi.

(** ** Path compactor

    The search grouper and the linter aggregator each carry a copy of
    [compactPath]; the two function bodies are the same text. *)

Definition SLASH : char := ch "/".

Definition compactPath (path : str) (maxLength : nat) : str :=
  if length path <=? maxLength then path
  else
    let parts := split SLASH path in
    if length parts <=? 3 then path
    else nth 0 parts [] ++ `"/.../" ++ nth (length parts - 2) parts [] ++ `"/"
         ++ nth (length parts - 1) parts [].

(** ** Build aggregator *)

Module Build.

Record BuildStats := mkStats {
  compiled : nat;
  errors : list (list str);
  warnings : list str
}.

Definition BUILD_COMMANDS : list str :=
  [ `"cargo build"; `"cargo check"; `"bun build"; `"npm run build";
    `"yarn build"; `"pnpm build"; `"tsc"; `"make"; `"cmake"; `"gradle";
    `"mvn"; `"go build"; `"go install"; `"python setup.py build";
    `"pip install" ].

(** /^\s*Word\s+/ *)
Definition progress (w : string) : regex := Seqs [Bol; s_star; Lit `w; s_plus].

Definition SKIP_PATTERNS : list regex :=
  [ progress "Compiling"; progress "Checking"; progress "Downloading";
    progress "Downloaded"; progress "Fetching"; progress "Fetched";
    progress "Updating"; progress "Updated"; progress "Building";
    progress "Generated"; progress "Creating"; progress "Running" ].

Definition ERROR_START_PATTERNS : list regex :=
  [ Seq Bol (Lit `"error[");
    Seq Bol (Lit `"error:");
    Seq Bol (Lit `"[ERROR]");
    Seq Bol (Lit `"FAIL") ].

Definition WARNING_PATTERNS : list regex :=
  [ Seq Bol (Lit `"warning:"); Seq Bol (Lit `"[WARNING]"); Seq Bol (Lit `"warn:") ].

Definition isSkipLine (line : str) : bool :=
  existsb (fun pattern => test pattern line) SKIP_PATTERNS.

Definition isErrorStart (line : str) : bool :=
  existsb (fun pattern => test pattern line) ERROR_START_PATTERNS.

Definition isWarning (line : str) : bool :=
  existsb (fun pattern => test pattern line) WARNING_PATTERNS.

(** /^\s*(Compiling|Checking|Building)\s+/ *)
Definition unit_re : regex :=
  Seqs [Bol; s_star;
        Grp 1 (Alts [Lit `"Compiling"; Lit `"Checking"; Lit `"Building"]);
        s_plus].

Definition isUnitStart (line : str) : bool := test unit_re line.

(** /^\s/ and /^-->/ *)
Definition lead_space_re : regex := Seq Bol s_.
Definition arrow_re : regex := Seq Bol (Lit `"-->").

(** The loop variables of [filterBuildOutput]. *)
Record scan := mkScan {
  stats : BuildStats;
  inErrorBlock : bool;
  currentError : list str;
  blankCount : nat
}.

Definition push_error (s : BuildStats) (e : list str) : BuildStats :=
  mkStats (compiled s) (errors s ++ [e]) (warnings s).

Definition init : scan := mkScan (mkStats 0 [] []) false [] 0.

(** One iteration of the [for (const line of lines)] loop. *)
Definition step (st : scan) (line : str) : scan :=
  let s := stats st in
  if isUnitStart line then
    mkScan (mkStats (S (compiled s)) (errors s) (warnings s))
           (inErrorBlock st) (currentError st) (blankCount st)
  else if isSkipLine line then st
  else if isErrorStart line then
    let s' := if inErrorBlock st && (0 <? length (currentError st))
              then push_error s (currentError st) else s in
    mkScan s' true [line] 0
  else if isWarning line then
    mkScan (mkStats (compiled s) (errors s) (warnings s ++ [line]))
           (inErrorBlock st) (currentError st) (blankCount st)
  else if inErrorBlock st then
    if str_eqb (trim line) [] then
      let bc := S (blankCount st) in
      if (2 <=? bc) && (3 <? length (currentError st)) then
        mkScan (push_error s (currentError st)) false [] bc
      else
        mkScan s true (currentError st ++ [line]) bc
    else if test lead_space_re line || test arrow_re line then
      mkScan s true (currentError st ++ [line]) 0
    else
      mkScan (push_error s (currentError st)) false [] (blankCount st)
  else st.

(** The final flush after the loop. *)
Definition finish (st : scan) : BuildStats :=
  if inErrorBlock st && (0 <? length (currentError st))
  then push_error (stats st) (currentError st)
  else stats st.

Definition scanLines (lines : list str) : BuildStats :=
  finish (fold_left step lines init).

Definition formatError (error : list str) : list str :=
  firstn 10 error ++ (if 10 <? length error then [`"  ..."] else []).

Definition format (s : BuildStats) : str :=
  if (length (errors s) =? 0) && (length (warnings s) =? 0) then
    `"[OK] Build successful (" ++ nat_to_str (compiled s) ++ `" units compiled)"
  else
    let errs :=
      if 0 <? length (errors s) then
        [`"[ERROR] " ++ nat_to_str (length (errors s)) ++ `" error(s):"]
        ++ flat_map formatError (firstn 5 (errors s))
        ++ (if 5 <? length (errors s)
            then [`"... and " ++ nat_to_str (length (errors s) - 5) ++ `" more errors"]
            else [])
      else [] in
    let warns :=
      if 0 <? length (warnings s) then
        [NL :: `"[WARN] " ++ nat_to_str (length (warnings s)) ++ `" warning(s)"]
      else [] in
    unlines (errs ++ warns).

Section WithLower.
Variable toLowerCase : str -> str.

(** The names of [BUILD_COMMANDS] are lower-case ASCII, so [bc.toLowerCase()]
    is [bc]. *)
Definition isBuildCommand (command : option str) : bool :=
  match command with
  | None => false
  | Some c =>
      if length c =? 0 then false
      else
        let cmdLower := toLowerCase c in
        existsb (fun bc => includes bc cmdLower) BUILD_COMMANDS
  end.

(** [None] is the source's [null]. *)
Definition filterBuildOutput (output : str) (command : option str) : option str :=
  if negb (isBuildCommand command) then None
  else Some (format (scanLines (lines_of output))).

End WithLower.

End Build.

(** ** Test aggregator (techniques/test-output.ts) *)

Module TestOutput.

Record TestSummary := mkSummary {
  passed : Z;
  failed : Z;
  skipped : Z;
  failures : list str
}.

Definition TEST_COMMANDS : list str :=
  [ `"test"; `"jest"; `"vitest"; `"pytest"; `"cargo test"; `"bun test";
    `"go test"; `"mocha"; `"ava"; `"tap" ].

Definition BULLET : char := 9679%N.      (* U+25CF *)
Definition CROSS : char := 10005%N.      (* U+2715 *)
Definition CHECK : char := 10003%N.      (* U+2713 *)
Definition HEAVY_CHECK : char := 10004%N. (* U+2714 *)
Definition BALLOT_X : char := 10007%N.   (* U+2717 *)

(** (?:,\s*(\d+)\s*word)? with capture number [i], under the i flag *)
Definition opt_count (i : nat) (word : string) : regex :=
  Opt (Seqs [One (ch ","); s_star; Grp i (Plus d_); s_star; LitCI `word]).

Definition TEST_RESULT_PATTERNS : list regex :=
  [ (* /test result:\s*(\w+)\.\s*(\d+)\s*passed;\s*(\d+)\s*failed;/ *)
    Seqs [Lit `"test result:"; s_star; Grp 1 (Plus w_); One (ch "."); s_star;
          Grp 2 (Plus d_); s_star; Lit `"passed;"; s_star;
          Grp 3 (Plus d_); s_star; Lit `"failed;"];
    (* /(\d+)\s*passed(?:,\s*(\d+)\s*failed)?(?:,\s*(\d+)\s*skipped)?/i *)
    Seqs [Grp 1 (Plus d_); s_star; LitCI `"passed";
          opt_count 2 "failed"; opt_count 3 "skipped"];
    (* /(\d+)\s*pass(?:,\s*(\d+)\s*fail)?(?:,\s*(\d+)\s*skip)?/i *)
    Seqs [Grp 1 (Plus d_); s_star; LitCI `"pass";
          opt_count 2 "fail"; opt_count 3 "skip"];
    (* /tests?:\s*(\d+)\s*passed(?:,\s*(\d+)\s*failed)?(?:,\s*(\d+)\s*skipped)?/i *)
    Seqs [LitCI `"test"; Opt (OneCI (ch "s")); One (ch ":"); s_star;
          Grp 1 (Plus d_); s_star; LitCI `"passed";
          opt_count 2 "failed"; opt_count 3 "skipped"] ].

Definition FAILURE_START_PATTERNS : list regex :=
  [ Seqs [Bol; Lit `"FAIL"; s_plus];
    Seqs [Bol; Lit `"FAILED"; s_plus];
    Seqs [Bol; s_star; One BULLET; s_plus];
    Seqs [Bol; s_star; One CROSS; s_plus];
    (* /test\s+\w+\s+\.\.\.\s*FAILED/ *)
    Seqs [Lit `"test"; s_plus; Plus w_; s_plus; Lit `"..."; s_star; Lit `"FAILED"];
    (* /thread\s+'\w+'\s+panicked/ *)
    Seqs [Lit `"thread"; s_plus; One (ch "'"); Plus w_; One (ch "'"); s_plus;
          Lit `"panicked"] ].

(** The class [\s|;&] of the token pattern. *)
Definition is_sep (c : char) : bool :=
  is_space c || char_eqb c (ch "|") || char_eqb c (ch ";") || char_eqb c (ch "&").

(** new RegExp(`(?:^|[\\s|;&])${escaped}(?:[\\s|;&]|$)`).  The names of
    [TEST_COMMANDS] are lower-case and hold no regex metacharacter, so the
    escaped source is the name itself, matched unit by unit. *)
Definition token_re (tc : str) : regex :=
  Seqs [Alt Bol (Chr is_sep); Lit tc; Alt (Chr is_sep) Eol].

Definition isFailureStart (line : str) : bool :=
  existsb (fun pattern => test pattern line) FAILURE_START_PATTERNS.

(** [parseInt(x, 10)]: leading white space, an optional sign, then the
    longest prefix of digits; [None] is NaN (also for [undefined]).  Values
    are exact integers (the source's doubles are, below 2^53). *)
Fixpoint digits_value (s : str) (acc : Z) : Z :=
  match s with
  | c :: s' => if is_digit c then digits_value s' (10 * acc + (Z.of_N c - 48))%Z else acc
  | [] => acc
  end.

Definition parse_digits (s : str) : option Z :=
  match s with
  | c :: _ => if is_digit c then Some (digits_value s 0) else None
  | [] => None
  end.

Definition parseInt (x : option str) : option Z :=
  match x with
  | None => None
  | Some s =>
      match trimStart s with
      | c :: s' =>
          if char_eqb c (ch "-") then option_map Z.opp (parse_digits s')
          else if char_eqb c (ch "+") then parse_digits s'
          else parse_digits (c :: s')
      | [] => None
      end
  end.

(** [x || 0] on a number: NaN and 0 give 0. *)
Definition orZero (x : option Z) : Z :=
  match x with
  | Some z => z
  | None => 0%Z
  end.

(** [Partial<TestSummary>]: the three counters, absent when nothing matched. *)
Fixpoint extractFrom (patterns : list regex) (output : str) : option (Z * Z * Z) :=
  match patterns with
  | [] => None
  | pattern :: rest =>
      match exec pattern output with
      | Some mt =>
          Some (orZero (parseInt (cap 1 mt)),
                orZero (parseInt (cap 2 mt)),
                orZero (parseInt (cap 3 mt)))
      | None => extractFrom rest output
      end
  end.

Definition extractTestStats (output : str) : option (Z * Z * Z) :=
  extractFrom TEST_RESULT_PATTERNS output.

(** /\b(ok|PASS|U+2713|U+2714)\b/ and /\b(FAIL|fail|U+2717|U+2715)\b/ *)
Definition pass_re : regex :=
  Seqs [Wb; Grp 1 (Alts [Lit `"ok"; Lit `"PASS"; One CHECK; One HEAVY_CHECK]); Wb].
Definition fail_re : regex :=
  Seqs [Wb; Grp 1 (Alts [Lit `"FAIL"; Lit `"fail"; One BALLOT_X; One CROSS]); Wb].

Definition count_step (pf : Z * Z) (line : str) : Z * Z :=
  let (p, f) := pf in
  ((if test pass_re line then p + 1 else p)%Z,
   (if test fail_re line then f + 1 else f)%Z).

(** /^\s/ and /^-/ *)
Definition lead_space_re : regex := Seq Bol s_.
Definition dash_re : regex := Seq Bol (One (ch "-")).

(** The loop variables of the failure-block scanner. *)
Record scan := mkScan {
  found : list str;
  inFailure : bool;
  currentFailure : list str;
  blankCount : nat
}.

Definition init : scan := mkScan [] false [] 0.

Definition step (st : scan) (line : str) : scan :=
  if isFailureStart line then
    let fs := if inFailure st && (0 <? length (currentFailure st))
              then found st ++ [unlines (currentFailure st)] else found st in
    mkScan fs true [line] 0
  else if inFailure st then
    if str_eqb (trim line) [] then
      let bc := S (blankCount st) in
      if (2 <=? bc) && (3 <? length (currentFailure st)) then
        mkScan (found st ++ [unlines (currentFailure st)]) false [] bc
      else
        mkScan (found st) true (currentFailure st ++ [line]) bc
    else if test lead_space_re line || test dash_re line then
      mkScan (found st) true (currentFailure st ++ [line]) 0
    else
      mkScan (found st ++ [unlines (currentFailure st)]) false [] (blankCount st)
  else st.

Definition finish (st : scan) : list str :=
  if inFailure st && (0 <? length (currentFailure st))
  then found st ++ [unlines (currentFailure st)]
  else found st.

Definition scanFailures (lines : list str) : list str :=
  finish (fold_left step lines init).

Definition ellipsis (n : nat) (s : str) : str :=
  slice0 n s ++ (if n <? length s then `"..." else []).

Definition formatFailure (failure : str) : list str :=
  let lines := lines_of failure in
  let firstLine := nth 0 lines [] in
  [`"   - " ++ ellipsis 70 firstLine]
  ++ flat_map (fun line =>
       if negb (str_eqb (trim line) []) then [`"     " ++ ellipsis 65 line] else [])
       (firstn 3 (skipn 1 lines))
  ++ (if 4 <? length lines
      then [`"     ... (" ++ nat_to_str (length lines - 4) ++ `" more lines)"]
      else []).

Definition format (s : TestSummary) : str :=
  unlines
    ([`"Test Results:"; `"   PASS: " ++ Z_to_str (passed s) ++ `" passed"]
     ++ (if (0 <? failed s)%Z then [`"   FAIL: " ++ Z_to_str (failed s) ++ `" failed"] else [])
     ++ (if (0 <? skipped s)%Z then [`"   SKIP: " ++ Z_to_str (skipped s) ++ `" skipped"] else [])
     ++ (if (0 <? failed s)%Z && (0 <? length (failures s)) then
           [NL :: `"   Failures:"]
           ++ flat_map formatFailure (firstn 5 (failures s))
           ++ (if 5 <? length (failures s)
               then [`"   ... and " ++ nat_to_str (length (failures s) - 5) ++ `" more failures"]
               else [])
         else [])).

(** The body of [aggregateTestOutput] after the applicability check. *)
Definition summarize (output : str) : TestSummary :=
  let lines := lines_of output in
  let '(p0, f0, s0) :=
    match extractTestStats output with
    | Some t => t
    | None => (0, 0, 0)%Z
    end in
  let '(p, f) :=
    if (p0 =? 0)%Z && (f0 =? 0)%Z then fold_left count_step lines (p0, f0)
    else (p0, f0) in
  mkSummary p f s0 (if (0 <? f)%Z then scanFailures lines else []).

Section WithLower.
Variable toLowerCase : str -> str.

Definition isTestCommand (command : option str) : bool :=
  match command with
  | None => false
  | Some c =>
      if length c =? 0 then false
      else
        let cmdLower := toLowerCase c in
        existsb (fun tc => test (token_re tc) cmdLower) TEST_COMMANDS
  end.

(** [None] is the source's [null]. *)
Definition aggregateTestOutput (output : str) (command : option str) : option str :=
  if negb (isTestCommand command) then None
  else Some (format (summarize output)).

End WithLower.

End TestOutput.

(** ** Search grouper *)

Module Search.

Record SearchResult := mkResult {
  file : str;
  lineNumber : str;
  content : str
}.

(** /^(.+?):(\d+)?:(.+)$/ *)
Definition line_re : regex :=
  Seqs [Bol; Grp 1 (PlusLazy dot_); One (ch ":"); Opt (Grp 2 (Plus d_));
        One (ch ":"); Grp 3 (Plus dot_); Eol].

Definition group (i : nat) (mt : caps) : str :=
  match cap i mt with
  | Some v => v
  | None => []
  end.

(** One iteration of the parsing loop: the result pushed for [line], if any. *)
Definition parseLine (line : str) : option SearchResult :=
  if str_eqb (trim line) [] then None
  else
    match exec line_re line with
    | Some mt =>
        Some (mkResult (group 1 mt)
                       (match cap 2 mt with
                        | Some (c :: v) => c :: v
                        | _ => `"?"
                        end)
                       (group 3 mt))
    | None => None
    end.

Fixpoint parseLines (lines : list str) : list SearchResult :=
  match lines with
  | [] => []
  | line :: rest =>
      match parseLine line with
      | Some r => r :: parseLines rest
      | None => parseLines rest
      end
  end.

(** [byFile]: a Map in insertion order. *)
Definition fileMap := list (str * list SearchResult).

Fixpoint addResult (byFile : fileMap) (r : SearchResult) : fileMap :=
  match byFile with
  | [] => [(file r, [r])]
  | (f, rs) :: rest =>
      if str_eqb f (file r) then (f, rs ++ [r]) :: rest
      else (f, rs) :: addResult rest r
  end.

Definition clean (c : str) : str :=
  let cleaned := trim c in
  if 70 <? length cleaned then slice0 67 cleaned ++ `"..." else cleaned.

Definition fileBlock (f : str) (matches : list SearchResult) : str :=
  `"> " ++ compactPath f 50 ++ `" (" ++ nat_to_str (length matches) ++ `" matches):" ++ [NL]
  ++ flat_map (fun mt => `"    " ++ lineNumber mt ++ `": " ++ clean (content mt) ++ [NL])
       (firstn 10 matches)
  ++ (if 10 <? length matches
      then `"  +" ++ nat_to_str (length matches - 10) ++ `" more" ++ [NL]
      else [])
  ++ [NL].

(** The output loop with its [break] on the global cap. *)
Fixpoint emit (files : fileMap) (maxResults : nat) (text : str) (shown : nat) : str * nat :=
  match files with
  | [] => (text, shown)
  | (f, matches) :: rest =>
      if maxResults <=? shown then (text, shown)
      else emit rest maxResults (text ++ fileBlock f matches)
                (shown + length (firstn 10 matches))
  end.

Section WithCollation.
(** [String.prototype.localeCompare] depends on the host's collation; it is
    a parameter of the grouper. *)
Variable localeCompare : str -> str -> Z.

Fixpoint insertSorted (e : str * list SearchResult) (sorted : fileMap) : fileMap :=
  match sorted with
  | [] => [e]
  | x :: rest =>
      if (localeCompare (fst x) (fst e) <? 0)%Z then x :: insertSorted e rest
      else e :: x :: rest
  end.

(** [Array.prototype.sort] is stable: an entry stays ahead of the later
    entries it compares equal to. *)
Definition sortFiles (byFile : fileMap) : fileMap :=
  fold_right insertSorted [] byFile.

Definition groupSearchResults (output : str) (maxResults : nat) : option str :=
  let lines := lines_of output in
  let results := parseLines lines in
  if length results =? 0 then None
  else
    let byFile := fold_left addResult results [] in
    let header := nat_to_str (length results) ++ `" matches in "
                  ++ nat_to_str (length byFile) ++ `" files:" ++ [NL; NL] in
    let '(text, shown) := emit (sortFiles byFile) maxResults header 0 in
    Some (if shown <? length results
          then text ++ `"... +" ++ nat_to_str (length results - shown) ++ `" more" ++ [NL]
          else text).

End WithCollation.

End Search.

(** ** Source filter and smart truncator *)

Module Source.

Inductive Language :=
| typescript | javascript | python | rust | go | java | c | cpp | unknown.

Record CommentPatterns := mkPatterns {
  line : option str;
  blockStart : option str;
  blockEnd : option str;
  docComment : option str
}.

Definition c_style (doc : string) : CommentPatterns :=
  mkPatterns (Some `"//") (Some `"/*") (Some `"*/") (Some `doc).

Definition COMMENT_PATTERNS (language : Language) : CommentPatterns :=
  match language with
  | typescript => c_style "/**"
  | javascript => c_style "/**"
  | python => mkPatterns (Some `"#") None None (Some [DQUOTE; DQUOTE; DQUOTE])
  | rust => c_style "///"
  | go => c_style "//"
  | java => c_style "/**"
  | c => c_style "/*"
  | cpp => c_style "/*"
  | unknown => mkPatterns None None None None
  end.

Definition is_python (language : Language) : bool :=
  match language with python => true | _ => false end.

Definition is_unknown (language : Language) : bool :=
  match language with unknown => true | _ => false end.

(** [pat && trimmed.startsWith(pat)]: an absent or empty marker is falsy. *)
Definition starts (pat : option str) (s : str) : bool :=
  match pat with
  | Some (x :: p) => startsWith (x :: p) s
  | _ => false
  end.

Definition ends (pat : option str) (s : str) : bool :=
  match pat with
  | Some (x :: p) => endsWith (x :: p) s
  | _ => false
  end.

Definition truthy (pat : option str) : bool :=
  match pat with
  | Some (_ :: _) => true
  | _ => false
  end.

(** The loop variables of [filterMinimal]. *)
Record mscan := mkM {
  kept : list str;
  inBlockComment : bool;
  inDocstring : bool
}.

Definition push (st : mscan) (l : str) : mscan :=
  mkM (kept st ++ [l]) (inBlockComment st) (inDocstring st).

Definition lineComment (patterns : CommentPatterns) (st : mscan) (l trimmed : str) : mscan :=
  match line patterns with
  | Some (x :: p) =>
      let commentIndex := indexOf (x :: p) l in
      if (0 <=? commentIndex)%Z then
        if starts (docComment patterns) trimmed then push st l
        else push st (slice0 (Z.to_nat commentIndex) l)
      else push st l
  | _ => push st l
  end.

Definition blockComment (patterns : CommentPatterns) (st : mscan) (l trimmed : str) : mscan :=
  if starts (blockStart patterns) trimmed && starts (docComment patterns) trimmed
  then push st l
  else
    let st1 := if starts (blockStart patterns) trimmed
               then mkM (kept st) true (inDocstring st) else st in
    if inBlockComment st1 then
      if ends (blockEnd patterns) trimmed
      then mkM (kept st1) false (inDocstring st1)
      else st1
    else lineComment patterns st1 l trimmed.

Definition mstep (language : Language) (st : mscan) (l : str) : mscan :=
  let patterns := COMMENT_PATTERNS language in
  let trimmed := trim l in
  if is_python language && truthy (docComment patterns) then
    if starts (docComment patterns) trimmed then
      mkM (kept st ++ [l]) (inBlockComment st) (negb (inDocstring st))
    else if inDocstring st then push st l
    else blockComment patterns st l trimmed
  else blockComment patterns st l trimmed.

Definition minimalPass (language : Language) (lines : list str) : list str :=
  kept (fold_left (mstep language) lines (mkM [] false false)).

(** /\n{3,}/g *)
Definition blank_run_re : regex := Seqs [One NL; One NL; One NL; Star true (One NL)].

Definition filterMinimal (content : str) (language : Language) : str :=
  if is_unknown language then content
  else
    trim (replaceAll blank_run_re [NL; NL]
            (unlines (minimalPass language (lines_of content)))).

(** /^(use\s+|import\s+|from\s+|require\(|#include)/ *)
Definition importPattern : regex :=
  Seq Bol (Grp 1 (Alts [Seq (Lit `"use") s_plus; Seq (Lit `"import") s_plus;
                        Seq (Lit `"from") s_plus; Lit `"require("; Lit `"#include"])).

(** /^(pub\s+)?(async\s+)?(fn|def|function|func|class|struct|enum|trait|interface|type)\s+\w+/ *)
Definition signaturePattern : regex :=
  Seqs [Bol; Opt (Grp 1 (Seq (Lit `"pub") s_plus));
        Opt (Grp 2 (Seq (Lit `"async") s_plus));
        Grp 3 (Alts [Lit `"fn"; Lit `"def"; Lit `"function"; Lit `"func";
                     Lit `"class"; Lit `"struct"; Lit `"enum"; Lit `"trait";
                     Lit `"interface"; Lit `"type"]);
        s_plus; Plus w_].

(** /^(const|static|let|pub\s+const|pub\s+static)\s+/ *)
Definition constPattern : regex :=
  Seqs [Bol;
        Grp 1 (Alts [Lit `"const"; Lit `"static"; Lit `"let";
                     Seqs [Lit `"pub"; s_plus; Lit `"const"];
                     Seqs [Lit `"pub"; s_plus; Lit `"static"]]);
        s_plus].

Definition LBRACE : char := ch "{".
Definition RBRACE : char := ch "}".

Definition PLACEHOLDER : str := `"    // ... implementation".

(** The loop variables of [filterAggressive]. *)
Record ascan := mkA {
  result : list str;
  braceDepth : Z;
  inImplementation : bool
}.

Definition astep (st : ascan) (l : str) : ascan :=
  let trimmed := trim l in
  if test importPattern trimmed then
    mkA (result st ++ [l]) (braceDepth st) (inImplementation st)
  else if test signaturePattern trimmed then
    mkA (result st ++ [l]) 0 true
  else if inImplementation st then
    let openBraces := countAll (One LBRACE) trimmed in    (* /\{/g *)
    let closeBraces := countAll (One RBRACE) trimmed in   (* /\}/g *)
    let depth := (braceDepth st + (Z.of_nat openBraces - Z.of_nat closeBraces))%Z in
    let r1 :=
      if (depth <=? 1)%Z
         && (str_eqb trimmed `"{" || str_eqb trimmed `"}" || endsWith `"{" trimmed)
      then result st ++ [l] else result st in
    if (depth <=? 0)%Z then
      mkA (if negb (str_eqb trimmed []) && negb (str_eqb trimmed `"}")
           then r1 ++ [PLACEHOLDER] else r1)
          depth false
    else mkA r1 depth true
  else if test constPattern trimmed then
    mkA (result st ++ [l]) (braceDepth st) (inImplementation st)
  else st.

Definition filterAggressive (content : str) (language : Language) : str :=
  if is_unknown language then filterMinimal content language
  else
    let minimal := filterMinimal content language in
    trim (unlines (result (fold_left astep (lines_of minimal) (mkA [] 0 false)))).

(** /^(import|use|from|require|#include|fn|def|function|func|class|struct|enum|trait|interface|type|const|static|let|pub\s)/ *)
Definition importantPattern : regex :=
  Seq Bol
    (Grp 1 (Alts [Lit `"import"; Lit `"use"; Lit `"from"; Lit `"require";
                  Lit `"#include"; Lit `"fn"; Lit `"def"; Lit `"function";
                  Lit `"func"; Lit `"class"; Lit `"struct"; Lit `"enum";
                  Lit `"trait"; Lit `"interface"; Lit `"type"; Lit `"const";
                  Lit `"static"; Lit `"let"; Seq (Lit `"pub") s_])).

Definition isImportant (l : str) : bool := test importantPattern (trim l).

Definition omittedMarker (n : Z) : str := `"    // ... " ++ Z_to_str n ++ `" lines omitted".

Definition summaryLine (more total : Z) : str :=
  `"// ... " ++ Z_to_str more ++ `" more lines (total: " ++ Z_to_str total ++ `")".

(** The loop variables of [smartTruncate]. *)
Record tscan := mkT {
  out : list str;
  keptLines : nat;
  skippedSection : bool
}.

(** The test, push and count of one iteration; [total] is [lines.length].
    [keptLines < maxLines / 2] compares with the exact quotient, which for
    integers is [2 * keptLines < maxLines]. *)
Definition tstep (total : nat) (maxLines : Z) (st : tscan) (l : str) : tscan :=
  if isImportant l || (2 * Z.of_nat (keptLines st) <? maxLines)%Z then
    let marked :=
      if skippedSection st
      then out st ++ [omittedMarker (Z.of_nat total - Z.of_nat (length (out st))
                                     - Z.of_nat (keptLines st))]
      else out st in
    mkT (marked ++ [l]) (S (keptLines st)) false
  else mkT (out st) (keptLines st) true.

(** The loop, left by [break] once [keptLines >= maxLines - 1]. *)
Fixpoint walk (total : nat) (maxLines : Z) (lines : list str) (st : tscan) : tscan :=
  match lines with
  | [] => st
  | l :: rest =>
      let st' := tstep total maxLines st l in
      if (maxLines - 1 <=? Z.of_nat (keptLines st'))%Z then st'
      else walk total maxLines rest st'
  end.

Definition smartTruncate (content : str) (maxLines : Z) (language : Language) : str :=
  let lines := lines_of content in
  if (Z.of_nat (length lines) <=? maxLines)%Z then content
  else
    let st := walk (length lines) maxLines lines (mkT [] 0 false) in
    let total := Z.of_nat (length lines) in
    unlines
      (if skippedSection st || (keptLines st <? length lines)
       then out st ++ [summaryLine (total - Z.of_nat (keptLines st)) total]
       else out st).

Inductive FilterLevel := level_none | level_minimal | level_aggressive.

Definition filterSourceCode (content : str) (language : Language) (level : FilterLevel) : str :=
  match level with
  | level_none => content
  | level_minimal => filterMinimal content language
  | level_aggressive => filterAggressive content language
  end.

End Source.

(** ** Array and string slices *)

(** [ToIntegerOrInfinity] followed by the clamping of [Array.prototype.slice]
    and [String.prototype.slice]: a negative index counts from the end. *)
Definition clampIndex (len : nat) (i : Z) : nat :=
  if (i <? 0)%Z then Z.to_nat (Z.max 0 (Z.of_nat len + i))
  else Nat.min (Z.to_nat i) len.

(** [xs.slice(start, end)] *)
Definition jsSlice (A : Type) (start stop : Z) (xs : list A) : list A :=
  let s := clampIndex (length xs) start in
  let e := clampIndex (length xs) stop in
  firstn (e - s) (skipn s xs).

(** [xs.slice(start)] *)
Definition jsSliceFrom (A : Type) (start : Z) (xs : list A) : list A :=
  skipn (clampIndex (length xs) start) xs.

(** ** Length-based truncation (techniques/truncate.ts) *)

Module Truncate.

Definition truncate (text : str) (maxLength : Z) : str :=
  if (Z.of_nat (length text) <=? maxLength)%Z then text
  else if (maxLength <? 3)%Z then `"..."
  else jsSlice 0 (maxLength - 3) text ++ `"...".

Definition omittedLine (n : Z) : str :=
  [NL] ++ `"... " ++ Z_to_str n ++ `" lines omitted ..." ++ [NL].

(** [Math.floor(maxLines / 2)] is [Z.div], which rounds down. *)
Definition truncateLines (text : str) (maxLines : Z) : str :=
  let lines := lines_of text in
  if (Z.of_nat (length lines) <=? maxLines)%Z then text
  else
    let keepLines := (maxLines / 2)%Z in
    unlines (jsSlice 0 keepLines lines
             ++ [omittedLine (Z.of_nat (length lines) - maxLines)]
             ++ jsSliceFrom (- keepLines) lines).

End Truncate.

(** ** Git compactor (techniques/git.ts) *)

Module Git.

Definition GIT_COMMANDS : list str :=
  [ `"git diff"; `"git status"; `"git log"; `"git show"; `"git stash" ].

(** [match[0]] of [s.match(r)] without the g flag: the text of the leftmost
    match. *)
Definition matched (r : regex) (s : str) : option str :=
  match search r [] s with
  | Some (p0, (p1, _)) => Some (firstn (length (after p0) - length (after p1)) (after p0))
  | None => None
  end.

(** /diff --git a\/(.+) b\/(.+)/ *)
Definition diff_header_re : regex :=
  Seqs [Lit `"diff --git a/"; Grp 1 (Plus dot_); Lit `" b/"; Grp 2 (Plus dot_)].

(** /@@ .+ @@/ *)
Definition hunk_re : regex := Seqs [Lit `"@@ "; Plus dot_; Lit `" @@"].

(** The loop variables of [compactDiff]. *)
Record dscan := mkD {
  result : list str;
  currentFile : str;
  added : nat;
  removed : nat;
  inHunk : bool;
  hunkLines : nat
}.

Definition maxHunkLines : nat := 10.

Definition statsLine (a r : nat) : str :=
  `"  +" ++ nat_to_str a ++ `" -" ++ nat_to_str r.

(** [currentFile && (added > 0 || removed > 0)]: an empty name is falsy. *)
Definition hasStats (st : dscan) : bool :=
  negb (length (currentFile st) =? 0) && ((0 <? added st) || (0 <? removed st)).

Definition flushStats (st : dscan) : list str :=
  if hasStats st then result st ++ [statsLine (added st) (removed st)] else result st.

(** The [if (hunkLines === maxHunkLines)] test that ends the hunk branch. *)
Definition capHunk (st : dscan) : dscan :=
  if hunkLines st =? maxHunkLines then
    mkD (result st ++ [`"  ... (truncated)"]) (currentFile st) (added st) (removed st)
        (inHunk st) (S (hunkLines st))
  else st.

Definition showLine (st : dscan) (l : str) (a r : nat) : dscan :=
  if hunkLines st <? maxHunkLines then
    mkD (result st ++ [`"  " ++ l]) (currentFile st) a r (inHunk st) (S (hunkLines st))
  else mkD (result st) (currentFile st) a r (inHunk st) (hunkLines st).

(** The body of one iteration, after the budget test. *)
Definition dstep (st : dscan) (l : str) : dscan :=
  if startsWith `"diff --git" l then
    let file := match exec diff_header_re l with
                | Some mt => match cap 2 mt with Some v => v | None => [] end
                | None => `"unknown"
                end in
    mkD (flushStats st ++ [[NL] ++ `"> " ++ file]) file 0 0 false (hunkLines st)
  else if startsWith `"@@" l then
    let hunkInfo := match matched hunk_re l with
                    | Some (c :: v) => c :: v
                    | _ => `"@@"
                    end in
    mkD (result st ++ [`"  " ++ hunkInfo]) (currentFile st) (added st) (removed st) true 0
  else if inHunk st then
    capHunk
      (if startsWith `"+" l && negb (startsWith `"+++" l) then
         showLine st l (S (added st)) (removed st)
       else if startsWith `"-" l && negb (startsWith `"---" l) then
         showLine st l (added st) (S (removed st))
       else if (hunkLines st <? maxHunkLines) && negb (startsWith `"\" l) then
         if 0 <? hunkLines st then showLine st l (added st) (removed st) else st
       else st)
  else st.

Definition TRUNCATED : str := [NL] ++ `"... (more changes truncated)".

(** The loop with its [break] on the output budget. *)
Fixpoint dwalk (maxLines : Z) (lines : list str) (st : dscan) : dscan :=
  match lines with
  | [] => st
  | l :: rest =>
      if (maxLines <=? Z.of_nat (length (result st)))%Z then
        mkD (result st ++ [TRUNCATED]) (currentFile st) (added st) (removed st)
            (inHunk st) (hunkLines st)
      else dwalk maxLines rest (dstep st l)
  end.

Definition dinit : dscan := mkD [] [] 0 0 false 0.

Definition compactDiff (output : str) (maxLines : Z) : str :=
  unlines (flushStats (dwalk maxLines (lines_of output) dinit)).

Record StatusStats := mkStatus {
  staged : nat;
  modified : nat;
  untracked : nat;
  conflicts : nat;
  stagedFiles : list str;
  modifiedFiles : list str;
  untrackedFiles : list str
}.

(** /## (.+)/ *)
Definition branch_re : regex := Seq (Lit `"## ") (Grp 1 (Plus dot_)).

(** [s.split(sep)[0]] for a non-empty [sep]: the text before the first
    occurrence of [sep], or all of [s]. *)
Definition firstField (sep s : str) : str :=
  let i := indexOf sep s in
  if (0 <=? i)%Z then firstn (Z.to_nat i) s else s.

Definition inSet (cs : string) (c : char) : bool := existsb (char_eqb c) `cs.

(** The loop variables of [compactStatus]. *)
Record sscan := mkS { stats : StatusStats; branchName : str }.

Definition sstep (st : sscan) (l : str) : sscan :=
  if startsWith `"##" l then
    match exec branch_re l with
    | Some mt =>
        mkS (stats st)
            (firstField `"..." (match cap 1 mt with Some v => v | None => [] end))
    | None => st
    end
  else if length l <? 3 then st
  else
    let indexStatus := nth 0 l 0%N in
    let worktreeStatus := nth 1 l 0%N in
    let filename := jsSliceFrom 3 l in
    let s0 := stats st in
    let s1 := if inSet "MADRC" indexStatus
              then mkStatus (S (staged s0)) (modified s0) (untracked s0) (conflicts s0)
                            (stagedFiles s0 ++ [filename]) (modifiedFiles s0)
                            (untrackedFiles s0)
              else s0 in
    let s2 := if char_eqb indexStatus (ch "U")
              then mkStatus (staged s1) (modified s1) (untracked s1) (S (conflicts s1))
                            (stagedFiles s1) (modifiedFiles s1) (untrackedFiles s1)
              else s1 in
    let s3 := if inSet "MD" worktreeStatus
              then mkStatus (staged s2) (S (modified s2)) (untracked s2) (conflicts s2)
                            (stagedFiles s2) (modifiedFiles s2 ++ [filename])
                            (untrackedFiles s2)
              else s2 in
    let s4 := if str_eqb (jsSlice 0 2 l) `"??"
              then mkStatus (staged s3) (modified s3) (S (untracked s3)) (conflicts s3)
                            (stagedFiles s3) (modifiedFiles s3)
                            (untrackedFiles s3 ++ [filename])
              else s3 in
    mkS s4 (branchName st).

(** One bucket of the summary: its count line, up to [shown] names, and the
    count of the names left out. *)
Definition bucket (label : string) (count : nat) (files : list str) (shown : nat) : str :=
  if 0 <? count then
    `label ++ `": " ++ nat_to_str count ++ `" files" ++ [NL]
    ++ flat_map (fun f => `"  " ++ f ++ [NL]) (jsSlice 0 (Z.of_nat shown) files)
    ++ (if shown <? count
        then `"  ... +" ++ nat_to_str (count - shown) ++ `" more" ++ [NL]
        else [])
  else [].

Definition CLEAN : str := `"Clean working tree".

Definition compactStatus (output : str) : str :=
  let lines := lines_of output in
  if (length lines =? 0)
     || ((length lines =? 1) && str_eqb (trim (nth 0 lines [])) [])
  then CLEAN
  else
    let st := fold_left sstep lines
                (mkS (mkStatus 0 0 0 0 [] [] []) []) in
    let s := stats st in
    trim (`"Branch: " ++ branchName st ++ [NL]
          ++ bucket "Staged" (staged s) (stagedFiles s) 5
          ++ bucket "Modified" (modified s) (modifiedFiles s) 5
          ++ bucket "Untracked" (untracked s) (untrackedFiles s) 3
          ++ (if 0 <? conflicts s
              then `"[WARN] Conflicts: " ++ nat_to_str (conflicts s) ++ `" files" ++ [NL]
              else [])).

Definition logLine (l : str) : str :=
  if 80 <? length l then jsSlice 0 77 l ++ `"..." else l.

Definition compactLog (output : str) (limit : Z) : str :=
  let lines := lines_of output in
  unlines (map logLine (jsSlice 0 limit lines)
           ++ (if (limit <? Z.of_nat (length lines))%Z
               then [`"... and " ++ Z_to_str (Z.of_nat (length lines) - limit)
                     ++ `" more commits"]
               else [])).

Section WithLower.
Variable toLowerCase : str -> str.

Definition isGitCommand (command : option str) : bool :=
  match command with
  | None => false
  | Some c =>
      if length c =? 0 then false
      else
        let cmdLower := toLowerCase c in
        existsb (fun gc => startsWith gc cmdLower) GIT_COMMANDS
  end.

(** [None] is the source's [null]; the defaults of [compactDiff] and
    [compactLog] are 50 and 20. *)
Definition compactGitOutput (output : str) (command : option str) : option str :=
  match command with
  | None => None
  | Some c =>
      if negb (isGitCommand command) then None
      else
        let cmdLower := toLowerCase c in
        if startsWith `"git diff" cmdLower then Some (compactDiff output 50)
        else if startsWith `"git status" cmdLower then Some (compactStatus output)
        else if startsWith `"git log" cmdLower then Some (compactLog output 20)
        else None
  end.

End WithLower.

End Git.

(** ** Language detection (techniques/source) *)

Module SourceLanguage.

Definition DOT : char := ch ".".

(** [LANGUAGE_EXTENSIONS].  The inherited keys of the object start with a
    letter or an underscore, and the key looked up starts with a dot
    whenever lower-casing keeps the dot, as the built-in does: only the
    fifteen own keys are found. *)
Definition LANGUAGE_EXTENSIONS : list (str * Source.Language) :=
  [(`".ts", Source.typescript); (`".tsx", Source.typescript);
   (`".js", Source.javascript); (`".jsx", Source.javascript);
   (`".mjs", Source.javascript);
   (`".py", Source.python); (`".pyw", Source.python);
   (`".rs", Source.rust);
   (`".go", Source.go);
   (`".java", Source.java);
   (`".c", Source.c); (`".h", Source.c);
   (`".cpp", Source.cpp); (`".hpp", Source.cpp); (`".cc", Source.cpp)].

Fixpoint lookup (A : Type) (key : str) (table : list (str * A)) : option A :=
  match table with
  | [] => None
  | (k, v) :: rest => if str_eqb k key then Some v else lookup key rest
  end.

(** [s.lastIndexOf(c)] for a one-unit [c]; [None] is the source's -1. *)
Fixpoint lastIndexOf (c : char) (s : str) : option nat :=
  match s with
  | [] => None
  | x :: s' =>
      match lastIndexOf c s' with
      | Some i => Some (S i)
      | None => if char_eqb x c then Some 0 else None
      end
  end.

Section WithLower.
Variable toLowerCase : str -> str.

Definition detectLanguage (filePath : str) : Source.Language :=
  match lastIndexOf DOT filePath with
  | None => Source.unknown
  | Some lastDot =>
      let ext := toLowerCase (jsSliceFrom (Z.of_nat lastDot) filePath) in
      match lookup ext LANGUAGE_EXTENSIONS with
      | Some language => language
      | None => Source.unknown
      end
  end.

End WithLower.

End SourceLanguage.

(** ** Linter aggregator (techniques/linter) *)

Module Linter.

Definition LINTER_COMMANDS : list str :=
  [`"eslint"; `"prettier"; `"ruff"; `"pylint"; `"mypy"; `"flake8"; `"black";
   `"clippy"; `"golangci-lint"].

Inductive Severity := ERROR | WARNING.

Record Issue := mkIssue {
  severity : Severity;
  rule : str;
  file : str;
  line : option Z;
  message : str
}.

(** What the [extract] function of a pattern returns. *)
Record Extracted := mkExtracted {
  x_severity : Severity;
  x_file : str;
  x_line : option Z;
  x_content : str;
  x_message : str
}.

(** /^(.+):(\d+):(\d+):\s*(.+)$/ *)
Definition located_re : regex :=
  Seqs [Bol; Grp 1 (Plus dot_); One (ch ":"); Grp 2 (Plus d_); One (ch ":");
        Grp 3 (Plus d_); One (ch ":"); s_star; Grp 4 (Plus dot_); Eol].

(** /^(error|warning):\s*(.+?)\s+at\s+(.+):(\d+):(\d+)$/ *)
Definition trailing_re : regex :=
  Seqs [Bol; Grp 1 (Alt (Lit `"error") (Lit `"warning")); One (ch ":"); s_star;
        Grp 2 (PlusLazy dot_); s_plus; Lit `"at"; s_plus;
        Grp 3 (Plus dot_); One (ch ":"); Grp 4 (Plus d_); One (ch ":");
        Grp 5 (Plus d_); Eol].

(** /\[(.+?)\]$/ *)
Definition rule_re : regex :=
  Seqs [One (ch "["); Grp 1 (PlusLazy dot_); One (ch "]"); Eol].

(** [match[1].toUpperCase()] of the word matched by [(error|warning)]. *)
Definition upperSeverity (w : str) : Severity :=
  if str_eqb w `"error" then ERROR else WARNING.

Definition patterns : list (regex * (caps -> Extracted)) :=
  [(located_re,
    fun mt => mkExtracted ERROR (Search.group 1 mt)
                (TestOutput.parseInt (cap 2 mt))
                (Search.group 4 mt) (Search.group 4 mt));
   (trailing_re,
    fun mt => mkExtracted (upperSeverity (Search.group 1 mt)) (Search.group 3 mt)
                (TestOutput.parseInt (cap 4 mt))
                (Search.group 2 mt) (Search.group 2 mt))].

(** [a || b] on strings: the empty string is falsy. *)
Definition orStr (a b : str) : str :=
  match a with
  | [] => b
  | _ :: _ => a
  end.

Definition ruleOf (content : str) : str :=
  match exec rule_re content with
  | Some mt => orStr (Search.group 1 mt) `"unknown"
  | None => `"unknown"
  end.

(** The loop over [patterns], left at the first pattern that matches. *)
Fixpoint firstMatch (ps : list (regex * (caps -> Extracted))) (l : str) : option Extracted :=
  match ps with
  | [] => None
  | (pattern, extract) :: rest =>
      match exec pattern l with
      | Some mt => Some (extract mt)
      | None => firstMatch rest l
      end
  end.

Definition parseLine (l : str) (linterType : str) : option Issue :=
  match firstMatch patterns l with
  | Some extracted =>
      Some (mkIssue (x_severity extracted)
                    (ruleOf (x_content extracted))
                    (x_file extracted)
                    (x_line extracted)
                    (orStr (x_content extracted) (orStr (x_message extracted) l)))
  | None => None
  end.

Fixpoint parseEach (lines : list str) (linterType : str) : list Issue :=
  match lines with
  | [] => []
  | l :: rest =>
      match parseLine l linterType with
      | Some issue => issue :: parseEach rest linterType
      | None => parseEach rest linterType
      end
  end.

Definition parseIssues (output : str) (linterType : str) : list Issue :=
  parseEach (lines_of output) linterType.

Definition isError (i : Issue) : bool :=
  match severity i with ERROR => true | WARNING => false end.

Definition isWarningIssue (i : Issue) : bool :=
  match severity i with WARNING => true | ERROR => false end.

(** [counts.set(key, (counts.get(key) || 0) + 1)] on a Map in insertion
    order. *)
Fixpoint bump (counts : list (str * nat)) (key : str) : list (str * nat) :=
  match counts with
  | [] => [(key, 1)]
  | (k, n) :: rest =>
      if str_eqb k key then (k, S n) :: rest else (k, n) :: bump rest key
  end.

Definition countRules (issues : list Issue) : list (str * nat) :=
  fold_left bump (map rule issues) [].

(** [byFile]: a Map in insertion order. *)
Fixpoint addIssue (byFile : list (str * list Issue)) (i : Issue) : list (str * list Issue) :=
  match byFile with
  | [] => [(file i, [i])]
  | (f, existing) :: rest =>
      if str_eqb f (file i) then (f, existing ++ [i]) :: rest
      else (f, existing) :: addIssue rest i
  end.

Section Sort.
Variable A : Type.
Variable weight : A -> nat.

(** [xs.sort((a, b) => weight(b) - weight(a))]: heaviest first; the sort is
    stable, so entries of equal weight keep their order. *)
Fixpoint insertDesc (e : A) (sorted : list A) : list A :=
  match sorted with
  | [] => [e]
  | x :: rest =>
      if weight e <? weight x then x :: insertDesc e rest else e :: x :: rest
  end.

Definition sortDesc (xs : list A) : list A := fold_right insertDesc [] xs.

End Sort.

Definition BAR : char := 9552%N.   (* U+2550 *)

Definition ruleLine (e : str * nat) : str :=
  `"  " ++ fst e ++ `" (" ++ nat_to_str (snd e) ++ `"x)" ++ [NL].

Definition fileRuleLine (e : str * nat) : str :=
  `"    " ++ fst e ++ `" (" ++ nat_to_str (snd e) ++ `")" ++ [NL].

Definition fileBlock (e : str * list Issue) : str :=
  `"  " ++ compactPath (fst e) 40 ++ `" (" ++ nat_to_str (length (snd e))
  ++ `" issues)" ++ [NL]
  ++ flat_map fileRuleLine
       (jsSlice 0 3 (sortDesc (@snd str nat) (countRules (snd e)))).

Definition report (linterType : str) (issues : list Issue) : str :=
  let errors := length (filter isError issues) in
  let warnings := length (filter isWarningIssue issues) in
  let byRule := countRules issues in
  let byFile := fold_left addIssue issues [] in
  linterType ++ `": " ++ nat_to_str errors ++ `" errors, " ++ nat_to_str warnings
  ++ `" warnings in " ++ nat_to_str (length byFile) ++ `" files" ++ [NL]
  ++ repeat BAR 39 ++ [NL]
  ++ `"Top rules:" ++ [NL]
  ++ flat_map ruleLine (jsSlice 0 10 (sortDesc (@snd str nat) byRule))
  ++ [NL] ++ `"Top files:" ++ [NL]
  ++ flat_map fileBlock
       (jsSlice 0 10 (sortDesc (fun e : str * list Issue => length (snd e)) byFile)).

Section WithLower.
Variable toLowerCase : str -> str.

Definition isLinterCommand (command : option str) : bool :=
  match command with
  | None => false
  | Some c =>
      if length c =? 0 then false
      else
        let cmdLower := toLowerCase c in
        existsb (fun lc => includes lc cmdLower) LINTER_COMMANDS
  end.

Definition detectLinterType (command : str) : str :=
  let cmdLower := toLowerCase command in
  if includes `"eslint" cmdLower then `"ESLint"
  else if includes `"ruff" cmdLower then `"Ruff"
  else if includes `"pylint" cmdLower then `"Pylint"
  else if includes `"mypy" cmdLower then `"MyPy"
  else if includes `"flake8" cmdLower then `"Flake8"
  else if includes `"clippy" cmdLower then `"Clippy"
  else if includes `"golangci" cmdLower then `"GolangCI-Lint"
  else if includes `"prettier" cmdLower then `"Prettier"
  else `"Linter".

(** [None] is the source's [null]. *)
Definition aggregateLinterOutput (output : str) (command : option str) : option str :=
  match command with
  | None => None
  | Some c =>
      if negb (isLinterCommand command) then None
      else
        let linterType := detectLinterType c in
        let issues := parseIssues output linterType in
        if length issues =? 0
        then Some (`"[OK] " ++ linterType ++ `": No issues found")
        else Some (report linterType issues)
  end.

End WithLower.

End Linter.

(** ** Configuration (config) *)

Module Config.

(** The budgets and the update period are taken to be integers. *)
Record Truncation := mkTruncation {
  truncation_enabled : bool;
  maxChars : Z
}.

Record SourceCodeFiltering := mkSourceCodeFiltering {
  sourceCodeFiltering_enabled : bool;
  level : Source.FilterLevel
}.

Record SmartTruncation := mkSmartTruncation {
  smartTruncation_enabled : bool;
  maxLines : Z
}.

Record Techniques := mkTechniques {
  ansiStripping : bool;
  truncation : Truncation;
  sourceCodeFiltering : SourceCodeFiltering;
  smartTruncation : SmartTruncation;
  testOutputAggregation : bool;
  buildOutputFiltering : bool;
  gitCompaction : bool;
  searchResultGrouping : bool;
  linterAggregation : bool
}.

Record RtkConfig := mkConfig {
  enabled : bool;
  logSavings : bool;
  showUpdateEvery : Z;
  techniques : Techniques
}.

Definition DEFAULT_CONFIG : RtkConfig :=
  mkConfig true true 10
    (mkTechniques true
       (mkTruncation true 10000)
       (mkSourceCodeFiltering true Source.level_minimal)
       (mkSmartTruncation true 200)
       true true true true true).

End Config.

(** ** Tool-result handler (index.ts) *)

Module Handler.
Import Config.

(** An item of the content of a tool result. *)
Inductive item :=
| text_item (text : str)
| image_item (data : str).

Definition isText (c : item) : bool :=
  match c with
  | text_item _ => true
  | image_item _ => false
  end.

(** [content.find((c) => c.type === "text")], then its [text]. *)
Definition findText (content : list item) : option str :=
  match find isText content with
  | Some (text_item t) => Some t
  | _ => None
  end.

(** [content.map((c) => c.type === "text" ? { ...c, text } : c)] *)
Definition setText (content : list item) (t : str) : list item :=
  map (fun c => match c with
                | text_item _ => text_item t
                | image_item d => image_item d
                end) content.

(** [technique ? `${technique},name` : "name"] *)
Definition label (technique name : str) : str :=
  match technique with
  | [] => name
  | _ :: _ => technique ++ `"," ++ name
  end.

(** The text being filtered and the techniques applied so far. *)
Definition progress := (str * str)%type.

(** One of the four aggregation steps of the command-output path: when the
    technique is switched on and the command is of its kind, its result
    replaces the text unless it is [null] or the same text. *)
Definition stage (active : bool) (f : str -> option str) (name : str)
    (st : progress) : progress :=
  if active then
    match f (fst st) with
    | Some out =>
        if negb (str_eqb out (fst st)) then (out, label (snd st) name) else st
    | None => st
    end
  else st.

Inductive event :=
| bash_result (command : option str) (content : list item)
| read_result (path : option str) (content : list item)
| grep_result (content : list item)
| other_result.

Section WithBuiltins.
Variable toLowerCase : str -> str.
Variable localeCompare : str -> str -> Z.

Definition bashFilter (config : RtkConfig) (command : option str)
    (originalText : str) : progress :=
  let t := techniques config in
  let s0 : progress := (originalText, []) in
  let s1 :=
    if ansiStripping t then
      let stripped := Ansi.stripAnsiFast (fst s0) in
      if negb (str_eqb stripped (fst s0)) then (stripped, label (snd s0) `"ansi")
      else s0
    else s0 in
  let s2 := stage (buildOutputFiltering t && Build.isBuildCommand toLowerCase command)
                  (fun x => Build.filterBuildOutput toLowerCase x command) `"build" s1 in
  let s3 := stage (testOutputAggregation t && TestOutput.isTestCommand toLowerCase command)
                  (fun x => TestOutput.aggregateTestOutput toLowerCase x command) `"test" s2 in
  let s4 := stage (gitCompaction t && Git.isGitCommand toLowerCase command)
                  (fun x => Git.compactGitOutput toLowerCase x command) `"git" s3 in
  let s5 := stage (linterAggregation t && Linter.isLinterCommand toLowerCase command)
                  (fun x => Linter.aggregateLinterOutput toLowerCase x command) `"linter" s4 in
  if truncation_enabled (truncation t)
     && (maxChars (truncation t) <? Z.of_nat (length (fst s5)))%Z
  then (Truncate.truncate (fst s5) (maxChars (truncation t)), label (snd s5) `"truncate")
  else s5.

Definition readFilter (config : RtkConfig) (language : Source.Language)
    (originalText : str) : progress :=
  let t := techniques config in
  let filteredText :=
    Source.filterSourceCode originalText language (level (sourceCodeFiltering t)) in
  if smartTruncation_enabled (smartTruncation t)
     && (maxLines (smartTruncation t) <? Z.of_nat (length (lines_of filteredText)))%Z
  then (Source.smartTruncate filteredText (maxLines (smartTruncation t)) language,
        `"source+smart")
  else (filteredText, `"source").

(** The replacement content, when the text changed. *)
Definition changed (content : list item) (originalText filteredText : str)
    : option (list item) :=
  if negb (str_eqb filteredText originalText) then Some (setText content filteredText)
  else None.

(** The handler of [tool_result]: [None] when it returns nothing and the
    result is left as it is.  The three kinds of result exclude each other. *)
Definition onToolResult (on : bool) (config : RtkConfig) (e : event)
    : option (list item) :=
  if negb on then None
  else
    match e with
    | bash_result command content =>
        match findText content with
        | None => None
        | Some originalText =>
            changed content originalText (fst (bashFilter config command originalText))
        end
    | read_result path content =>
        let filePath := match path with Some p => Linter.orStr p [] | None => [] end in
        let language := SourceLanguage.detectLanguage toLowerCase filePath in
        match findText content with
        | None => None
        | Some originalText =>
            if sourceCodeFiltering_enabled (sourceCodeFiltering (techniques config))
               && negb (Source.is_unknown language)
            then changed content originalText (fst (readFilter config language originalText))
            else None
        end
    | grep_result content =>
        if negb (searchResultGrouping (techniques config)) then None
        else
          match findText content with
          | None => None
          | Some originalText =>
              match Search.groupSearchResults localeCompare originalText 50 with
              | Some grouped => changed content originalText grouped
              | None => None
              end
          end
    | other_result => None
    end.

End WithBuiltins.

End Handler.

(** * Vocabulary of the properties *)

Module Blocks.

(** The build scanner opens a block on a line that reaches the error-start
    test (it is neither a unit-start nor a noise line) and passes it. *)
Definition buildOpens (l : str) : bool :=
  negb (Build.isUnitStart l) && negb (Build.isSkipLine l) && Build.isErrorStart l.

(** The blocks of a scan state in opening order: the flushed ones, then the
    open one. *)
Definition buildBlocks (st : Build.scan) : list (list str) :=
  Build.errors (Build.stats st)
  ++ (if Build.inErrorBlock st then [Build.currentError st] else []).

Definition testOpen (st : TestOutput.scan) : list (list str) :=
  if TestOutput.inFailure st then [TestOutput.currentFailure st] else [].

End Blocks.

Module Shapes.

(** The [file:line?:content] shape of a search-result line: a non-empty file
    part, a colon, an optional run of digits, a colon, and a non-empty
    content, the file and content parts free of line terminators. *)
Definition hasShape (l : str) : Prop :=
  exists f d c,
    l = f ++ [ch ":"] ++ d ++ [ch ":"] ++ c
    /\ f <> [] /\ c <> []
    /\ forallb is_dot f = true /\ forallb is_digit d = true
    /\ forallb is_dot c = true.

(** An occurrence of the name [tc] in [s] as a standalone token: at the
    start of [s] or after a separator, and at the end of [s] or before a
    separator. *)
Definition tokenStart (pre : str) : Prop :=
  pre = [] \/ exists pre' c, pre = pre' ++ [c] /\ TestOutput.is_sep c = true.

Definition tokenEnd (post : str) : Prop :=
  post = [] \/ exists c post', post = c :: post' /\ TestOutput.is_sep c = true.

Definition standalone (tc s : str) : Prop :=
  exists pre post, s = pre ++ tc ++ post /\ tokenStart pre /\ tokenEnd post.

(** Every occurrence of [tc] in [s] lies inside a longer word: a unit that
    is not a separator touches it on the left or on the right. *)
Definition embedded (tc s : str) : Prop :=
  forall pre post, s = pre ++ tc ++ post ->
    (exists pre' c, pre = pre' ++ [c] /\ TestOutput.is_sep c = false)
    \/ (exists c post', post = c :: post' /\ TestOutput.is_sep c = false).

(** Decision procedure for [standalone], scanning the occurrences of [tc]
    from left to right; [prev] is the unit before the current position. *)
Definition startOk (prev : option char) : bool :=
  match prev with
  | None => true
  | Some c => TestOutput.is_sep c
  end.

Definition endOk (post : str) : bool :=
  match post with
  | [] => true
  | c :: _ => TestOutput.is_sep c
  end.

Fixpoint standalone_from (tc : str) (prev : option char) (s : str) : bool :=
  (startOk prev && startsWith tc s && endOk (skipn (length tc) s))
  || match s with
     | [] => false
     | c :: s' => standalone_from tc (Some c) s'
     end.

Definition standaloneb (tc s : str) : bool := standalone_from tc None s.

End Shapes.

Module Runs.

(** Run-length view of a string: its maximal runs of equal units. *)
Fixpoint runs (s : str) : list (char * nat) :=
  match s with
  | [] => []
  | c :: s' =>
      match runs s' with
      | (d, n) :: rs => if char_eqb c d then (d, S n) :: rs else (c, 1) :: (d, n) :: rs
      | [] => [(c, 1)]
      end
  end.

(** The number of leading units of [s] equal to [c]. *)
Fixpoint lead (c : char) (s : str) : nat :=
  match s with
  | x :: s' => if char_eqb c x then S (lead c s') else 0
  | [] => 0
  end.

Definition unruns (rs : list (char * nat)) : str :=
  flat_map (fun r => repeat (fst r) (snd r)) rs.

(** A run of three or more newline units becomes a run of exactly two; every
    other run is kept. *)
Definition capRun (r : char * nat) : char * nat :=
  if char_eqb (fst r) NL && (3 <=? snd r) then (NL, 2) else r.

Definition squeezeNewlines (s : str) : str := unruns (map capRun (runs s)).

End Runs.

Module Truncation.

(** The output of the truncation loop with its two kinds of lines told
    apart: an input line that is kept, and an omitted-count marker. *)
Inductive entry :=
| Kept (l : str)
| Omitted (n : Z).

Definition render (e : entry) : str :=
  match e with
  | Kept l => l
  | Omitted n => Source.omittedMarker n
  end.

Definition isMarker (e : entry) : bool :=
  match e with
  | Omitted _ => true
  | Kept _ => false
  end.

Fixpoint keptOf (es : list entry) : list str :=
  match es with
  | [] => []
  | Kept l :: es' => l :: keptOf es'
  | Omitted _ :: es' => keptOf es'
  end.

(** The loop of [smartTruncate] writing labelled entries. *)
Record escan := mkE {
  eout : list entry;
  ekept : nat;
  eskipped : bool
}.

Definition estep (total : nat) (maxLines : Z) (st : escan) (l : str) : escan :=
  if Source.isImportant l || (2 * Z.of_nat (ekept st) <? maxLines)%Z then
    let marked :=
      if eskipped st
      then eout st ++ [Omitted (Z.of_nat total - Z.of_nat (length (eout st))
                                - Z.of_nat (ekept st))]
      else eout st in
    mkE (marked ++ [Kept l]) (S (ekept st)) false
  else mkE (eout st) (ekept st) true.

Fixpoint ewalk (total : nat) (maxLines : Z) (lines : list str) (st : escan) : escan :=
  match lines with
  | [] => st
  | l :: rest =>
      let st' := estep total maxLines st l in
      if (maxLines - 1 <=? Z.of_nat (ekept st'))%Z then st'
      else ewalk total maxLines rest st'
  end.

(** For each line the loop looks at, in order, whether the line is kept;
    [kept] is the number of lines kept before. *)
Fixpoint decisions (maxLines : Z) (lines : list str) (kept : nat) : list bool :=
  match lines with
  | [] => []
  | l :: rest =>
      let d := Source.isImportant l || (2 * Z.of_nat kept <? maxLines)%Z in
      let kept' := if d then S kept else kept in
      d :: (if (maxLines - 1 <=? Z.of_nat kept')%Z then []
            else decisions maxLines rest kept')
  end.

(** The number of contiguous runs of dropped lines that are followed by a
    kept line; [dropping] tells whether a run is under way. *)
Fixpoint resumes (ds : list bool) (dropping : bool) : nat :=
  match ds with
  | [] => 0
  | true :: ds' => (if dropping then 1 else 0) + resumes ds' false
  | false :: ds' => resumes ds' true
  end.

(** The lines whose decision is to keep. *)
Fixpoint select (ds : list bool) (lines : list str) : list str :=
  match ds, lines with
  | d :: ds', l :: lines' => if d then l :: select ds' lines' else select ds' lines'
  | _, _ => []
  end.

Definition markers (es : list entry) : nat := length (filter isMarker es).

(** The test of one iteration: the line is kept when it is important or
    while fewer than half the budget is kept. *)
Definition decide_keep (maxLines : Z) (st : escan) (l : str) : bool :=
  Source.isImportant l || (2 * Z.of_nat (ekept st) <? maxLines)%Z.

(** A line is dropped only once half the budget is kept, so every marker
    comes after that point. *)
Definition bounded (maxLines : Z) (st : escan) : Prop :=
  (eskipped st = true -> maxLines <= 2 * Z.of_nat (ekept st))%Z
  /\ (markers (eout st) = 0
      \/ (maxLines <= 2 * (Z.of_nat (ekept st) - Z.of_nat (markers (eout st))))%Z).

(** The state of the source's loop and the labelled state hold the same
    lines and counters. *)
Definition agree (st : Source.tscan) (est : escan) : Prop :=
  Source.out st = map render (eout est)
  /\ Source.keptLines st = ekept est
  /\ Source.skippedSection st = eskipped est.

(** 100 declaration lines, then 200 times a plain line and a declaration
    line: 500 lines, of which only declaration lines are kept. *)
Definition alternating : str :=
  unlines (repeat `"fn first()" 100
           ++ flat_map (fun _ => [`"  body();"; `"fn next()"]) (seq 0 200)).

End Truncation.

Module GitShapes.

(** A line that opens neither a file section nor a hunk of a diff. *)
Definition quietLine (l : str) : Prop :=
  startsWith `"diff --git" l = false /\ startsWith `"@@" l = false.

End GitShapes.

Module Lines.

(** A text that fits on one line. *)
Definition plain (l : str) : Prop := ~ In NL l.

End Lines.

Module Captures.

(** The numbers of the capture groups of a pattern. *)
Fixpoint groups (r : regex) : list nat :=
  match r with
  | Seq a b => groups a ++ groups b
  | Alt a b => groups a ++ groups b
  | Star _ a => groups a
  | Grp i a => i :: groups a
  | _ => []
  end.

(** [cs'] is [cs] with further bindings: of groups among [ids] only, and to
    values made of units of [w]. *)
Definition extends (ids : list nat) (w : str) (cs cs' : caps) : Prop :=
  (forall i, ~ In i ids -> cap i cs' = cap i cs)
  /\ (forall i v, cap i cs' = Some v -> cap i cs = Some v \/ incl v w).

End Captures.
Module LintShapes.

Definition COLON : char := ch ":".

(** The [file:line:col: message] shape of a linter line. *)
Definition located (l : str) : Prop :=
  exists f a b sp msg,
    l = f ++ [COLON] ++ a ++ [COLON] ++ b ++ [COLON] ++ sp ++ msg
    /\ (f <> [] /\ forallb is_dot f = true)
    /\ (a <> [] /\ forallb is_digit a = true)
    /\ (b <> [] /\ forallb is_digit b = true)
    /\ forallb is_space sp = true
    /\ (msg <> [] /\ forallb is_dot msg = true).

(** The [severity: message at file:line:col] shape. *)
Definition trailing (l : str) : Prop :=
  exists w sp1 msg sp2 sp3 f a b,
    l = w ++ [COLON] ++ sp1 ++ msg ++ sp2 ++ `"at" ++ sp3 ++ f ++ [COLON] ++ a
        ++ [COLON] ++ b
    /\ (w = `"error" \/ w = `"warning")
    /\ forallb is_space sp1 = true
    /\ (msg <> [] /\ forallb is_dot msg = true)
    /\ (sp2 <> [] /\ forallb is_space sp2 = true)
    /\ (sp3 <> [] /\ forallb is_space sp3 = true)
    /\ (f <> [] /\ forallb is_dot f = true)
    /\ (a <> [] /\ forallb is_digit a = true)
    /\ (b <> [] /\ forallb is_digit b = true).

(** A line the aggregator takes for an issue. *)
Definition issueLine (l : str) : Prop := located l \/ trailing l.

(** The number of entries of [rules] equal to [r]. *)
Definition occurrences (r : str) (rules : list str) : nat :=
  length (filter (str_eqb r) rules).

(** The count a table holds for [r], 0 when [r] is not a key. *)
Fixpoint countOf (r : str) (table : list (str * nat)) : nat :=
  match table with
  | [] => 0
  | (k, n) :: rest => if str_eqb k r then n else countOf r rest
  end.

End LintShapes.
Module LineCount.

(** The number of newline units of a text. *)
Definition newlines (s : str) : nat := length (filter (char_eqb NL) s).

(** An issue whose rule and file fit on one line each, and a file group of
    such issues. *)
Definition tidy (i : Linter.Issue) : Prop :=
  Lines.plain (Linter.rule i) /\ Lines.plain (Linter.file i).

Definition tidyGroup (e : str * list Linter.Issue) : Prop :=
  Lines.plain (fst e) /\ Forall tidy (snd e).

End LineCount.
Module Groups.

(** The matches a file table holds for [f], none when [f] is not a key. *)
Fixpoint groupOf (f : str) (byFile : Search.fileMap) : list Search.SearchResult :=
  match byFile with
  | [] => []
  | (k, rs) :: rest => if str_eqb k f then rs else groupOf f rest
  end.

(** The results of file [f], in input order. *)
Definition resultsOf (f : str) (results : list Search.SearchResult)
    : list Search.SearchResult :=
  filter (fun r => str_eqb f (Search.file r)) results.

(** The number of matches a file table holds. *)
Definition total (files : Search.fileMap) : nat :=
  list_sum (map (fun e => length (snd e)) files).

(** The closing line of the report, announcing [n] matches not listed. *)
Definition moreLine (n : nat) : str := `"... +" ++ nat_to_str n ++ `" more" ++ [NL].

(** The opening line of the report. *)
Definition headline (matches files : nat) : str :=
  nat_to_str matches ++ `" matches in " ++ nat_to_str files ++ `" files:" ++ [NL; NL].

(** A text printed line by line, each line followed by a newline. *)
Definition printed (ls : list str) : str := flat_map (fun l => l ++ [NL]) ls.

(** The matches of a file that its block lists: the first ten. *)
Definition listedOf (e : str * list Search.SearchResult) : list Search.SearchResult :=
  firstn 10 (snd e).

(** The content of a match as the report shows it: trimmed, and cut to its
    first 67 units followed by three dots when longer than 70. *)
Definition shownContent (c : str) : str :=
  let t := trim c in
  if 70 <? length t then firstn 67 t ++ `"..." else t.

Definition matchLine (mt : Search.SearchResult) : str :=
  `"    " ++ Search.lineNumber mt ++ `": " ++ shownContent (Search.content mt).

(** The lines of the block of a file: the header with the compacted path
    and the number of matches, a line for each listed match, the count of
    the matches left out when there are more than ten, an empty line. *)
Definition blockLines (e : str * list Search.SearchResult) : list str :=
  [`"> " ++ compactPath (fst e) 50 ++ `" (" ++ nat_to_str (length (snd e))
   ++ `" matches):"]
  ++ map matchLine (listedOf e)
  ++ (if 10 <? length (snd e)
      then [`"  +" ++ nat_to_str (length (snd e) - 10) ++ `" more"]
      else [])
  ++ [[]].

(** The number of matches listed by the blocks of [files]. *)
Definition listed (files : Search.fileMap) : nat :=
  length (flat_map listedOf files).

End Groups.

Module Budget.

(** A text item of at most [n] units; items of other kinds carry no text. *)
Definition within (n : Z) (c : Handler.item) : Prop :=
  match c with
  | Handler.text_item t => (Z.of_nat (length t) <= n)%Z
  | Handler.image_item _ => True
  end.

(** A text item of at most [(3 * n - 2) / 2] lines. *)
Definition withinLines (n : Z) (c : Handler.item) : Prop :=
  match c with
  | Handler.text_item t => (2 * Z.of_nat (length (lines_of t)) <= 3 * n - 2)%Z
  | Handler.image_item _ => True
  end.

(** The first and the last step of the command-output path. *)
Definition stripped (config : Config.RtkConfig) (text : str) : str :=
  if Config.ansiStripping (Config.techniques config) then Ansi.stripAnsiFast text
  else text.

Definition capped (config : Config.RtkConfig) (text : str) : str :=
  let t := Config.truncation (Config.techniques config) in
  if Config.truncation_enabled t && (Config.maxChars t <? Z.of_nat (length text))%Z
  then Truncate.truncate text (Config.maxChars t)
  else text.

(** A stage of the command-output path as a function on the text: the
    report of the technique when the stage is active and gives one, the
    text itself otherwise. *)
Definition applied (active : bool) (f : str -> option str) (x : str) : str :=
  if active then match f x with Some out => out | None => x end else x.

(** The git and linter stages, which follow the test stage. *)
Definition later (toLowerCase : str -> str) (config : Config.RtkConfig)
    (command : option str) (x : str) : str :=
  let t := Config.techniques config in
  applied (Config.linterAggregation t && Linter.isLinterCommand toLowerCase command)
          (fun y => Linter.aggregateLinterOutput toLowerCase y command)
    (applied (Config.gitCompaction t && Git.isGitCommand toLowerCase command)
             (fun y => Git.compactGitOutput toLowerCase y command)
       x).

End Budget.

Module Pruning.

(** [o] is [l] cut before the first occurrence of [marker]. *)
Definition cutAt (marker o l : str) : Prop :=
  marker <> []
  /\ exists rest,
       l = o ++ marker ++ rest
       /\ forall o' rest', l = o' ++ marker ++ rest' -> length o <= length o'.

(** What the comment loop may keep of a line [l]: the line itself, or its
    part before the first line-comment marker of the language. *)
Definition remains (language : Source.Language) (o l : str) : Prop :=
  o = l
  \/ exists marker,
       Source.line (Source.COMMENT_PATTERNS language) = Some marker
       /\ cutAt marker o l.

(** [pruned language out lines]: [out] is [lines] with some lines deleted
    and some cut before their first line-comment marker, in the same
    order. *)
Inductive pruned (language : Source.Language) : list str -> list str -> Prop :=
| pruned_nil : pruned language [] []
| pruned_drop : forall out l ls,
    pruned language out ls -> pruned language out (l :: ls)
| pruned_keep : forall o out l ls,
    remains language o l -> pruned language out ls ->
    pruned language (o :: out) (l :: ls).

(** [skeleton out lines]: [out] is [lines] with some lines deleted and
    placeholder lines inserted, the lines that remain unchanged and in the
    same order. *)
Inductive skeleton : list str -> list str -> Prop :=
| skeleton_nil : skeleton [] []
| skeleton_drop : forall out l ls, skeleton out ls -> skeleton out (l :: ls)
| skeleton_keep : forall out l ls, skeleton out ls -> skeleton (l :: out) (l :: ls)
| skeleton_mark : forall out ls,
    skeleton out ls -> skeleton (Source.PLACEHOLDER :: out) ls.

(** The lines the aggressive filter never drops: imports and signatures. *)
Definition declares (l : str) : bool :=
  test Source.importPattern (trim l) || test Source.signaturePattern (trim l).

End Pruning.

(** * Properties *)

(** ** The matcher against the declarative meaning of patterns *)

Module RegexFacts.

Lemma orElse_some a b x :
  orElse a b = Some x -> a = Some x \/ (a = None /\ b tt = Some x).
Proof. destruct a; simpl; intros H; [left | right]; auto. Qed.

Lemma orElse_none a b : orElse a b = None <-> a = None /\ b tt = None.
Proof.
  destruct a; simpl; split; intros H; try tauto; try discriminate.
Qed.

Section Star.
Variable ma : pos -> caps -> cont -> option result.
Variable a : regex.
Variable g : bool.

Hypothesis ma_ext : forall p cs k1 k2,
  (forall q c, k1 q c = k2 q c) -> ma p cs k1 = ma p cs k2.

Lemma star_loop_ext k1 k2 :
  (forall q c, k1 q c = k2 q c) ->
  forall n p cs, star_loop ma g k1 n p cs = star_loop ma g k2 n p cs.
Proof.
  intros Hk n. induction n as [|n IH]; intros p cs; simpl.
  - apply Hk.
  - rewrite (Hk p cs).
    rewrite (ma_ext p cs
               (fun p' cs' => if length (after p') <? length (after p)
                              then star_loop ma g k1 n p' cs' else None)
               (fun p' cs' => if length (after p') <? length (after p)
                              then star_loop ma g k2 n p' cs' else None)).
    + reflexivity.
    + intros q c0. destruct (length (after q) <? length (after p)); auto.
Qed.

(** Past one more than the units ahead, the bound on iterations is never
    reached. *)
Lemma star_loop_fuel k : forall n1 n2 p cs,
  length (after p) < n1 -> length (after p) < n2 ->
  star_loop ma g k n1 p cs = star_loop ma g k n2 p cs.
Proof.
  induction n1 as [|n1 IH]; intros n2 p cs H1 H2; [lia|].
  destruct n2 as [|n2]; [lia|]. simpl.
  rewrite (ma_ext p cs
             (fun p' cs' => if length (after p') <? length (after p)
                            then star_loop ma g k n1 p' cs' else None)
             (fun p' cs' => if length (after p') <? length (after p)
                            then star_loop ma g k n2 p' cs' else None)).
  - reflexivity.
  - intros q c0. destruct (length (after q) <? length (after p)) eqn:E; auto.
    apply Nat.ltb_lt in E. apply IH; lia.
Qed.

Hypothesis ma_sound : forall p cs k x,
  ma p cs k = Some x -> exists q cs', Matches a p q /\ k q cs' = Some x.

Lemma star_loop_sound k : forall n p cs x,
  star_loop ma g k n p cs = Some x ->
  exists q cs', Matches (Star g a) p q /\ k q cs' = Some x.
Proof.
  induction n as [|n IH]; intros p cs x H; simpl in H.
  - exists p, cs. split; [constructor | exact H].
  - assert (Hagain : forall y,
      ma p cs (fun p' cs' => if length (after p') <? length (after p)
                             then star_loop ma g k n p' cs' else None) = Some y ->
      exists q cs', Matches (Star g a) p q /\ k q cs' = Some y).
    { intros y Hy. apply ma_sound in Hy. destruct Hy as (q & cs' & Hq & Hk).
      destruct (length (after q) <? length (after p)) eqn:E; [|discriminate].
      apply Nat.ltb_lt in E.
      destruct (IH _ _ _ Hk) as (q' & cs'' & Hq' & Hk').
      exists q', cs''. split; [|exact Hk'].
      eapply M_StarS; eauto. }
    destruct g; apply orElse_some in H; destruct H as [H | [_ H]]; auto;
      exists p, cs; (split; [constructor | exact H]).
Qed.

End Star.

Lemma m_ext r : forall p cs k1 k2,
  (forall q c, k1 q c = k2 q c) -> m r p cs k1 = m r p cs k2.
Proof.
  induction r as [|f|a IHa b IHb|a IHa b IHb|g a IHa|i a IHa| | |];
    intros p cs k1 k2 Hk; cbn [m].
  - apply Hk.
  - destruct (after p) as [|c rest]; auto. destruct (f c); auto.
  - apply IHa. intros q c0. apply IHb. exact Hk.
  - rewrite (IHa p cs k1 k2 Hk), (IHb p cs k1 k2 Hk). reflexivity.
  - apply star_loop_ext; auto.
  - apply IHa. intros q c0. apply Hk.
  - destruct (before p); auto.
  - destruct (after p); auto.
  - destruct (xorb _ _); auto.
Qed.

Lemma m_sound r : forall p cs k x,
  m r p cs k = Some x -> exists q cs', Matches r p q /\ k q cs' = Some x.
Proof.
  induction r as [|f|a IHa b IHb|a IHa b IHb|g a IHa|i a IHa| | |];
    intros p cs k x H; cbn [m] in H.
  - exists p, cs. split; [constructor | exact H].
  - destruct p as [bef aft]; simpl in H. destruct aft as [|c rest]; [discriminate|].
    destruct (f c) eqn:E; [|discriminate].
    eexists _, cs. split; [constructor; exact E | exact H].
  - apply IHa in H. destruct H as (q & cs' & Hq & H).
    apply IHb in H. destruct H as (q' & cs'' & Hq' & H).
    exists q', cs''. split; [econstructor; eauto | exact H].
  - apply orElse_some in H. destruct H as [H | [_ H]].
    + apply IHa in H. destruct H as (q & cs' & Hq & H).
      exists q, cs'. split; [apply M_AltL; exact Hq | exact H].
    + apply IHb in H. destruct H as (q & cs' & Hq & H).
      exists q, cs'. split; [apply M_AltR; exact Hq | exact H].
  - eapply star_loop_sound; eauto.
  - apply IHa in H. destruct H as (q & cs' & Hq & H).
    eexists q, _. split; [constructor; exact Hq | exact H].
  - destruct p as [bef aft]; simpl in H. destruct bef; [|discriminate].
    exists (mkPos [] aft), cs. split; [constructor | exact H].
  - destruct p as [bef aft]; simpl in H. destruct aft; [|discriminate].
    exists (mkPos bef []), cs. split; [constructor | exact H].
  - destruct (xorb _ _) eqn:E; [|discriminate].
    exists p, cs. split; [constructor; exact E | exact H].
Qed.

Lemma m_complete r p q :
  Matches r p q ->
  forall cs k, (forall cs', k q cs' <> None) -> m r p cs k <> None.
Proof.
  induction 1 as [p|f c bef aft Hf|a b p q r Ha IHa Hb IHb|a b p q Ha IHa
                 |a b p q Hb IHb|g a p|g a p q r Ha IHa Hlt Hs IHs
                 |i a p q Ha IHa|aft|bef|p Hx];
    intros cs k Hk; simpl.
  - apply Hk.
  - rewrite Hf. apply Hk.
  - apply IHa. intros cs'. apply IHb. exact Hk.
  - intros E. apply orElse_none in E. destruct E as [E _]. revert E. apply IHa, Hk.
  - intros E. apply orElse_none in E. destruct E as [_ E]. revert E. apply IHb, Hk.
  - destruct g; intros E; apply orElse_none in E; destruct E as [E1 E2];
      [revert E2 | revert E1]; apply Hk.
  - assert (Hagain :
      m a p cs (fun p' cs' => if length (after p') <? length (after p)
                              then star_loop (m a) g k (length (after p)) p' cs'
                              else None) <> None).
    { apply IHa. intros cs'.
      apply Nat.ltb_lt in Hlt. rewrite Hlt. apply Nat.ltb_lt in Hlt.
      rewrite (@star_loop_fuel (m a) g (@m_ext a) k (length (after p))
                 (S (length (after q))) q cs'); try lia.
      apply (IHs cs' k Hk). }
    destruct g; intros E; apply orElse_none in E; destruct E as [E1 E2]; auto.
  - apply IHa. intros cs'. apply Hk.
  - apply Hk.
  - apply Hk.
  - rewrite Hx. apply Hk.
Qed.

(** A match only moves forward over the subject. *)
Lemma Matches_path r p q :
  Matches r p q ->
  exists w, after p = w ++ after q /\ before q = rev w ++ before p.
Proof.
  induction 1; try (exists []; split; reflexivity).
  - exists [c]. split; reflexivity.
  - destruct IHMatches1 as (w1 & A1 & B1), IHMatches2 as (w2 & A2 & B2).
    exists (w1 ++ w2). rewrite A1, A2, B2, B1, rev_app_distr, !app_assoc. auto.
  - assumption.
  - assumption.
  - destruct IHMatches1 as (w1 & A1 & B1), IHMatches2 as (w2 & A2 & B2).
    exists (w1 ++ w2). rewrite A1, A2, B2, B1, rev_app_distr, !app_assoc. auto.
  - assumption.
Qed.

Lemma match_at_sound r p x :
  match_at r p = Some x -> Matches r p (fst x).
Proof.
  unfold match_at. intros H. apply m_sound in H.
  destruct H as (q & cs' & Hq & H). unfold accept in H.
  inversion H; subst. exact Hq.
Qed.

Lemma match_at_complete r p q : Matches r p q -> match_at r p <> None.
Proof.
  intros H. unfold match_at. apply (m_complete H). unfold accept. discriminate.
Qed.

Lemma search_some r : forall aft bef p0 x,
  search r bef aft = Some (p0, x) ->
  exists u, aft = u ++ after p0 /\ before p0 = rev u ++ bef /\ match_at r p0 = Some x.
Proof.
  induction aft as [|c aft IH]; intros bef p0 x H; simpl in H.
  - destruct (match_at r (mkPos bef [])) eqn:E; [|discriminate].
    inversion H; subst. exists []. auto.
  - destruct (match_at r (mkPos bef (c :: aft))) eqn:E.
    + inversion H; subst. exists []. auto.
    + apply IH in H. destruct H as (u & A & B & C).
      exists (c :: u). simpl. rewrite A at 1. rewrite B, <- app_assoc. auto.
Qed.

Lemma search_none r : forall aft bef,
  search r bef aft = None ->
  forall u v, aft = u ++ v -> match_at r (mkPos (rev u ++ bef) v) = None.
Proof.
  induction aft as [|c aft IH]; intros bef H u v E; simpl in H.
  - destruct (match_at r (mkPos bef [])) eqn:E1; [discriminate|].
    symmetry in E. apply app_eq_nil in E. destruct E; subst. exact E1.
  - destruct (match_at r (mkPos bef (c :: aft))) eqn:E1; [discriminate|].
    destruct u as [|c' u]; simpl in E.
    + subst v. exact E1.
    + inversion E; subst. simpl. rewrite <- app_assoc. simpl.
      apply IH; auto.
Qed.

(** [r.test(s)] holds exactly when [r] matches somewhere in [s]. *)
Lemma test_iff r s :
  test r s = true <->
  exists u v q, s = u ++ v /\ Matches r (mkPos (rev u) v) q.
Proof.
  unfold test. split.
  - destruct (search r [] s) as [[p0 x]|] eqn:E; [|discriminate]. intros _.
    apply search_some in E. destruct E as (u & A & B & C).
    exists u, (after p0), (fst x). split; [exact A|].
    apply match_at_sound in C. rewrite app_nil_r in B.
    destruct p0 as [b0 a0]; simpl in *. subst b0. exact C.
  - intros (u & v & q & A & M). destruct (search r [] s) eqn:E; [reflexivity|].
    exfalso. pose proof (@search_none r s [] E u v A) as N.
    rewrite app_nil_r in N. apply match_at_complete in M. auto.
Qed.

Lemma exec_none_iff r s : exec r s = None <-> test r s = false.
Proof.
  unfold exec, test. destruct (search r [] s) as [[p0 [q cs]]|]; split;
    intros H; congruence.
Qed.

Lemma Matches_Lit w : forall p q,
  Matches (Lit w) p q <-> after p = w ++ after q /\ before q = rev w ++ before p.
Proof.
  induction w as [|c w IH]; intros p q; simpl; split.
  - intros H. inversion H; subst. auto.
  - intros [A B]. destruct p, q; simpl in *; subst. constructor.
  - intros H. inversion H as [| |a b p1 q1 r1 H1 H2| | | | | | | |]; subst.
    inversion H1 as [|f c0 bef aft Hc| | | | | | | | |]; subst.
    apply IH in H2. simpl in *. destruct H2 as [A B].
    unfold char_eqb in Hc. apply N.eqb_eq in Hc. subst c0.
    rewrite A, B, <- app_assoc. auto.
  - intros [A B]. destruct p as [bef aft], q as [bef' aft']; simpl in *. subst.
    econstructor.
    + constructor. unfold char_eqb. apply N.eqb_refl.
    + apply IH. simpl. rewrite <- app_assoc. auto.
Qed.

Lemma pos_eq p q : before p = before q -> after p = after q -> p = q.
Proof. destruct p, q; simpl; intros; subst; reflexivity. Qed.

Lemma Span_nil p q : Span p [] q <-> q = p.
Proof.
  unfold Span; simpl. split.
  - intros [A B]. apply pos_eq; auto.
  - intros ->. auto.
Qed.

Lemma Span_app p u q v r : Span p u q -> Span q v r -> Span p (u ++ v) r.
Proof.
  unfold Span. intros [A B] [C D]. rewrite A, C, D, B, rev_app_distr, !app_assoc. auto.
Qed.

Lemma Span_split p u v r :
  Span p (u ++ v) r -> exists q, Span p u q /\ Span q v r.
Proof.
  unfold Span. intros [A B].
  exists (mkPos (rev u ++ before p) (v ++ after r)). simpl.
  rewrite A, B, rev_app_distr, !app_assoc. auto.
Qed.

Lemma Matches_Eps_iff p q : Matches Eps p q <-> q = p.
Proof. split; [inversion 1; auto | intros ->; constructor]. Qed.

Lemma Matches_Seq_iff a b p r :
  Matches (Seq a b) p r <-> exists q, Matches a p q /\ Matches b q r.
Proof.
  split.
  - inversion 1; subst. eauto.
  - intros (q & A & B). econstructor; eauto.
Qed.

Lemma Matches_Alt_iff a b p q :
  Matches (Alt a b) p q <-> Matches a p q \/ Matches b p q.
Proof.
  split.
  - inversion 1; subst; auto.
  - intros [A | B]; [apply M_AltL | apply M_AltR]; auto.
Qed.

Lemma Matches_Grp_iff i a p q : Matches (Grp i a) p q <-> Matches a p q.
Proof. split; [inversion 1; auto | constructor; auto]. Qed.

Lemma Matches_Bol_iff p q : Matches Bol p q <-> before p = [] /\ q = p.
Proof.
  split.
  - inversion 1; subst. auto.
  - intros [A ->]. destruct p; simpl in *; subst. constructor.
Qed.

Lemma Matches_Eol_iff p q : Matches Eol p q <-> after p = [] /\ q = p.
Proof.
  split.
  - inversion 1; subst. auto.
  - intros [A ->]. destruct p; simpl in *; subst. constructor.
Qed.

Lemma Matches_Chr_iff f p q :
  Matches (Chr f) p q <-> exists c, f c = true /\ Span p [c] q.
Proof.
  unfold Span. split.
  - inversion 1; subst. exists c. simpl. auto.
  - intros (c & Hc & A & B). destruct p as [bp ap], q as [bq aq]; simpl in *.
    subst. constructor. exact Hc.
Qed.

Lemma Matches_One_iff c p q : Matches (One c) p q <-> Span p [c] q.
Proof.
  unfold One. rewrite Matches_Chr_iff. split.
  - intros (c' & Hc & S). unfold char_eqb in Hc. apply N.eqb_eq in Hc. subst. exact S.
  - intros S. exists c. split; [apply N.eqb_refl | exact S].
Qed.

Lemma Matches_Lit_iff w p q : Matches (Lit w) p q <-> Span p w q.
Proof. apply Matches_Lit. Qed.

Lemma Matches_StarChr_iff g f p q :
  Matches (Star g (Chr f)) p q <-> exists w, forallb f w = true /\ Span p w q.
Proof.
  split.
  - intros H. remember (Star g (Chr f)) as r eqn:Er.
    induction H; try discriminate; inversion Er; subst.
    + exists []. split; [reflexivity | apply Span_nil; reflexivity].
    + destruct (IHMatches2 eq_refl) as (w & Hw & S).
      apply Matches_Chr_iff in H. destruct H as (c & Hc & Sc).
      exists ([c] ++ w). split; [simpl; rewrite Hc; exact Hw|].
      eapply Span_app; eauto.
  - intros (w & Hw & S). revert p S Hw.
    induction w as [|c w IH]; intros p S Hw.
    + apply Span_nil in S. subst. constructor.
    + simpl in Hw. apply andb_true_iff in Hw. destruct Hw as [Hc Hw].
      change (c :: w) with ([c] ++ w) in S. apply Span_split in S.
      destruct S as (p1 & S1 & S2).
      eapply M_StarS.
      * apply Matches_Chr_iff. exists c. split; eauto.
      * destruct S1 as [A _]. rewrite A. simpl. lia.
      * apply IH; auto.
Qed.

Lemma Matches_PlusChr_iff f p q :
  Matches (Plus (Chr f)) p q <->
  exists w, w <> [] /\ forallb f w = true /\ Span p w q.
Proof.
  unfold Plus. rewrite Matches_Seq_iff. split.
  - intros (p1 & A & B). apply Matches_Chr_iff in A. destruct A as (c & Hc & S1).
    apply Matches_StarChr_iff in B. destruct B as (w & Hw & S2).
    exists ([c] ++ w). split; [discriminate|]. split; [simpl; rewrite Hc; exact Hw|].
    eapply Span_app; eauto.
  - intros (w & Hne & Hw & S). destruct w as [|c w]; [contradiction|].
    simpl in Hw. apply andb_true_iff in Hw. destruct Hw as [Hc Hw].
    change (c :: w) with ([c] ++ w) in S. apply Span_split in S.
    destruct S as (p1 & S1 & S2). exists p1. split.
    + apply Matches_Chr_iff. eauto.
    + apply Matches_StarChr_iff. eauto.
Qed.

Lemma Matches_PlusLazyChr_iff f p q :
  Matches (PlusLazy (Chr f)) p q <->
  exists w, w <> [] /\ forallb f w = true /\ Span p w q.
Proof.
  rewrite <- Matches_PlusChr_iff. unfold Plus, PlusLazy.
  rewrite !Matches_Seq_iff. split; intros (p1 & A & B); exists p1; split; auto;
    apply Matches_StarChr_iff; apply Matches_StarChr_iff in B; exact B.
Qed.

(** A pattern that starts with [^] can only match at the start. *)
Lemma test_Bol_iff r s :
  test (Seq Bol r) s = true <-> exists q, Matches r (mkPos [] s) q.
Proof.
  rewrite test_iff. split.
  - intros (u & v & q & E & M). apply Matches_Seq_iff in M.
    destruct M as (p1 & B & M). apply Matches_Bol_iff in B. simpl in B.
    destruct B as [B ->]. destruct u as [|c u].
    + simpl in *. subst. eauto.
    + simpl in B. apply app_eq_nil in B. destruct B; discriminate.
  - intros (q & M). exists [], s, q. split; [reflexivity|].
    apply Matches_Seq_iff. exists (mkPos [] s). split; [|exact M].
    apply Matches_Bol_iff. auto.
Qed.

End RegexFacts.

(** ** Splitting, joining and trimming *)

Module StrFacts.

Lemma char_eqb_eq a b : char_eqb a b = true <-> a = b.
Proof. unfold char_eqb. apply N.eqb_eq. Qed.

Lemma char_eqb_neq a b : char_eqb a b = false <-> a <> b.
Proof. unfold char_eqb. apply N.eqb_neq. Qed.

Lemma str_eqb_eq : forall a b, str_eqb a b = true <-> a = b.
Proof.
  induction a as [|x a IH]; destruct b as [|y b]; simpl; split; intros H;
    try reflexivity; try discriminate.
  - apply andb_true_iff in H. destruct H as [H1 H2].
    apply char_eqb_eq in H1. apply IH in H2. congruence.
  - inversion H; subst. apply andb_true_iff. split.
    + apply char_eqb_eq. reflexivity.
    + apply IH. reflexivity.
Qed.

Lemma str_eqb_refl a : str_eqb a a = true.
Proof. apply str_eqb_eq. reflexivity. Qed.

Lemma str_eqb_neq a b : str_eqb a b = false <-> a <> b.
Proof.
  split.
  - intros H E. apply str_eqb_eq in E. congruence.
  - intros H. destruct (str_eqb a b) eqn:E; auto. apply str_eqb_eq in E. contradiction.
Qed.

Lemma split_nonempty sep s : split sep s <> [].
Proof.
  destruct s as [|c s]; simpl; [discriminate|].
  destruct (char_eqb c sep); [discriminate|].
  destruct (split sep s); discriminate.
Qed.

Lemma split_no_sep sep : forall s, Forall (fun l => ~ In sep l) (split sep s).
Proof.
  induction s as [|c s IH]; simpl.
  - constructor; auto.
  - destruct (char_eqb c sep) eqn:E.
    + constructor; auto.
    + destruct (split sep s) as [|l ls]; constructor.
      * simpl. intros [H|H]; [|contradiction]. apply char_eqb_neq in E. auto.
      * constructor.
      * inversion IH; subst. simpl. intros [H|H]; [|auto].
        apply char_eqb_neq in E. auto.
      * inversion IH; auto.
Qed.

Lemma split_app_no_sep sep : forall x s,
  ~ In sep x ->
  split sep (x ++ s) =
  match split sep s with
  | l :: ls => (x ++ l) :: ls
  | [] => [x]
  end.
Proof.
  induction x as [|c x IH]; intros s H; simpl.
  - destruct (split sep s) eqn:E; auto. exfalso. revert E. apply split_nonempty.
  - destruct (char_eqb c sep) eqn:E.
    + apply char_eqb_eq in E. exfalso. apply H. left. auto.
    + rewrite IH by (intros F; apply H; right; exact F).
      destruct (split sep s); reflexivity.
Qed.

Lemma split_join sep : forall xs,
  xs <> [] -> Forall (fun l => ~ In sep l) xs -> split sep (join [sep] xs) = xs.
Proof.
  induction xs as [|x xs IH]; intros Hne Hall; [contradiction|].
  inversion Hall as [|? ? Hx Hxs]; subst.
  destruct xs as [|y xs].
  - simpl. rewrite <- (app_nil_r x) at 1. rewrite split_app_no_sep by exact Hx.
    simpl. rewrite app_nil_r. reflexivity.
  - change (join [sep] (x :: y :: xs)) with (x ++ [sep] ++ join [sep] (y :: xs)).
    rewrite split_app_no_sep by exact Hx.
    simpl. unfold char_eqb at 1. rewrite N.eqb_refl.
    rewrite app_nil_r. f_equal. apply IH; [discriminate | exact Hxs].
Qed.

Lemma join_split sep : forall s, join [sep] (split sep s) = s.
Proof.
  induction s as [|c s IH]; simpl; auto.
  destruct (char_eqb c sep) eqn:E.
  - apply char_eqb_eq in E. subst c.
    destruct (split sep s) eqn:E2.
    + exfalso. revert E2. apply split_nonempty.
    + simpl in *. rewrite IH. reflexivity.
  - destruct (split sep s) as [|l ls] eqn:E2.
    + exfalso. revert E2. apply split_nonempty.
    + destruct ls; simpl in *; rewrite <- IH; reflexivity.
Qed.

Lemma join_length_ge sep : forall xs, length xs - 1 <= length (join [sep] xs).
Proof.
  induction xs as [|x xs IH]; simpl; auto.
  destruct xs as [|y xs]; [simpl; lia|].
  rewrite length_app. simpl in *. lia.
Qed.

Lemma dropWhile_nil_iff p : forall s, dropWhile p s = [] <-> forallb p s = true.
Proof.
  induction s as [|c s IH]; simpl; [tauto|].
  destruct (p c); simpl; [exact IH|]. split; discriminate.
Qed.

Lemma forallb_rev (p : char -> bool) s : forallb p (rev s) = forallb p s.
Proof.
  induction s as [|c s IH]; simpl; auto.
  rewrite forallb_app, IH. simpl. rewrite andb_true_r. apply andb_comm.
Qed.

Lemma dropWhile_all p : forall s, forallb p s = true -> dropWhile p s = [].
Proof. intros s. apply dropWhile_nil_iff. Qed.

(** A line is blank for [trim] exactly when all its units are white space. *)
Lemma trim_nil_iff s : trim s = [] <-> forallb is_space s = true.
Proof.
  unfold trim, trimEnd, trimStart. split.
  - intros H. destruct (forallb is_space s) eqn:E; auto. exfalso.
    assert (R : rev (dropWhile is_space (rev (dropWhile is_space s))) = []) by exact H.
    apply (f_equal (@rev char)) in R. rewrite rev_involutive in R. simpl in R.
    apply dropWhile_nil_iff in R. rewrite forallb_rev in R.
    clear H. induction s as [|c s IH]; simpl in *; [discriminate|].
    destruct (is_space c) eqn:Ec; simpl in *; auto.
    rewrite Ec in R. simpl in R. discriminate.
  - intros H. rewrite (dropWhile_all _ _ H). reflexivity.
Qed.

Lemma dropWhile_head p : forall s c t, dropWhile p s = c :: t -> p c = false.
Proof.
  induction s as [|x s IH]; simpl; intros c t H; [discriminate|].
  destruct (p x) eqn:E; [eauto|]. inversion H; subst. exact E.
Qed.

Lemma dropWhile_id p s : match s with c :: _ => p c = false | [] => True end ->
  dropWhile p s = s.
Proof. destruct s as [|c s]; simpl; auto. intros ->. reflexivity. Qed.

(** [trim] leaves a string alone when it neither starts nor ends with white
    space. *)
Lemma trim_id s :
  match s with c :: _ => is_space c = false | [] => True end ->
  match rev s with c :: _ => is_space c = false | [] => True end ->
  trim s = s.
Proof.
  intros H1 H2. unfold trim, trimEnd, trimStart.
  rewrite (dropWhile_id _ s H1), (dropWhile_id _ (rev s) H2).
  apply rev_involutive.
Qed.

Lemma dropWhile_app_stop p : forall l x t,
  p x = false -> dropWhile p (l ++ x :: t) = dropWhile p l ++ x :: t.
Proof.
  induction l as [|y l IH]; intros x t H; simpl.
  - rewrite H. reflexivity.
  - destruct (p y); auto.
Qed.

Lemma trim_cons s x d :
  dropWhile is_space s = x :: d ->
  trim s = x :: rev (dropWhile is_space (rev d)).
Proof.
  intros E. pose proof (dropWhile_head _ _ E) as Hx.
  unfold trim, trimEnd, trimStart. rewrite E. simpl rev at 2.
  rewrite dropWhile_app_stop by exact Hx.
  rewrite rev_app_distr. reflexivity.
Qed.

Lemma trim_head s c t : trim s = c :: t -> is_space c = false.
Proof.
  intros H. destruct (dropWhile is_space s) as [|x d] eqn:E.
  - unfold trim, trimEnd, trimStart in H. rewrite E in H. discriminate.
  - rewrite (trim_cons _ E) in H. inversion H; subst.
    eapply dropWhile_head; eauto.
Qed.

Lemma trim_last s c t : rev (trim s) = c :: t -> is_space c = false.
Proof.
  unfold trim, trimEnd. rewrite rev_involutive. apply dropWhile_head.
Qed.

Lemma trim_idem s : trim (trim s) = trim s.
Proof.
  apply trim_id.
  - destruct (trim s) eqn:E; auto. eapply trim_head; eauto.
  - destruct (rev (trim s)) eqn:E; auto. eapply trim_last; eauto.
Qed.

Lemma startsWith_iff : forall p s, startsWith p s = true <-> exists t, s = p ++ t.
Proof.
  induction p as [|x p IH]; intros s; simpl.
  - split; eauto.
  - destruct s as [|y s].
    + split; [discriminate | intros (t & E); discriminate].
    + rewrite andb_true_iff, char_eqb_eq, IH. split.
      * intros (-> & t & ->). eauto.
      * intros (t & E). inversion E; subst. eauto.
Qed.

Lemma skipn_app_exact (A : Type) (xs ys : list A) : skipn (length xs) (xs ++ ys) = ys.
Proof. induction xs; simpl; auto. Qed.

End StrFacts.

(** ** Test aggregator: the cargo summary line *)

Module TestFacts.
Import TestOutput.

(** C1.  On the text "test result: ok. 3 passed; 1 failed;" with the command
    "cargo test" the aggregator reports 0 passed, 3 failed and 1 skipped: the
    first summary pattern has the status word as its first capture group, and
    the extractor reads groups 1, 2, 3 as passed, failed, skipped.  The
    report therefore holds neither "   PASS: 3 passed" nor
    "   FAIL: 1 failed". *)
Theorem C1_cargo_summary_shifted :
  aggregateTestOutput ascii_toLowerCase `"test result: ok. 3 passed; 1 failed;"
                      (Some `"cargo test")
  = Some (unlines [`"Test Results:"; `"   PASS: 0 passed"; `"   FAIL: 3 failed";
                   `"   SKIP: 1 skipped"]).
Proof. vm_compute. reflexivity. Qed.

End TestFacts.

(** ** Path compactor *)

Module PathFacts.
Import StrFacts.

Lemma nth_last_two (A : Type) (d : A) : forall (xs : list A) (y z : A),
  nth (length (xs ++ [y; z]) - 2) (xs ++ [y; z]) d = y
  /\ nth (length (xs ++ [y; z]) - 1) (xs ++ [y; z]) d = z.
Proof.
  intros xs y z. rewrite length_app. simpl length.
  replace (length xs + 2 - 2) with (length xs) by lia.
  replace (length xs + 2 - 1) with (S (length xs)) by lia.
  split.
  - rewrite app_nth2 by lia. rewrite Nat.sub_diag. reflexivity.
  - rewrite app_nth2 by lia. replace (S (length xs) - length xs) with 1 by lia.
    reflexivity.
Qed.

(** C6, counterexample.  "/a/b/c/d/e/file.ts" is 18 units long, within the
    limit of 50, and comes back unchanged, not as "a/.../d/file.ts". *)
Lemma C6_example_unchanged :
  compactPath `"/a/b/c/d/e/file.ts" 50 = `"/a/b/c/d/e/file.ts"
  /\ compactPath `"/a/b/c/d/e/file.ts" 50 <> `"a/.../d/file.ts".
Proof. split; [reflexivity | vm_compute; discriminate]. Qed.

(** C6, amended.  A path made of at least four slash-separated segments
    [first], [mid] (one or more), [penult], [last] and longer than the limit
    handed to the compactor (50 in the search grouper, 40 in the linter
    aggregator) compacts to first/.../penult/last; the segments are those of
    [split], so a leading slash gives an empty first segment.  A path within
    the limit is returned as it is. *)
Theorem C6_compactPath_long
    (maxLength : nat) (first penult last : str) (mid : list str) :
  (Forall (fun seg => ~ In SLASH seg) (first :: mid ++ [penult; last]) ->
   mid <> [] ->
   maxLength < length (join [SLASH] (first :: mid ++ [penult; last])) ->
   compactPath (join [SLASH] (first :: mid ++ [penult; last])) maxLength
   = first ++ `"/.../" ++ penult ++ `"/" ++ last)
  /\ (forall path, length path <= maxLength -> compactPath path maxLength = path).
Proof.
  split.
  2:{ intros path H. unfold compactPath. apply Nat.leb_le in H. rewrite H. reflexivity. }
  intros Hseg Hmid Hlen. unfold compactPath.
  apply Nat.leb_gt in Hlen. rewrite Hlen.
  rewrite split_join by (auto; discriminate).
  remember (first :: mid ++ [penult; last]) as parts eqn:Ep.
  assert (Ep' : parts = (first :: mid) ++ [penult; last]) by (subst; reflexivity).
  assert (L : length parts = length mid + 3).
  { rewrite Ep'. rewrite length_app. simpl. lia. }
  assert (Hgt : (length parts <=? 3) = false).
  { apply Nat.leb_gt. destruct mid; [contradiction | simpl in L; lia]. }
  rewrite Hgt.
  destruct (@nth_last_two str [] (first :: mid) penult last) as [E1 E2].
  rewrite <- Ep' in E1, E2. rewrite E1, E2.
  rewrite Ep. reflexivity.
Qed.

Lemma C6_compactPath_long_witness :
  compactPath
    (join [SLASH] ([] :: [`"home"; `"user"; `"projects"; `"pi-rtk-noemoji"; `"src"]
                   ++ [`"techniques"; `"test-output.ts"])) 50
  = [] ++ `"/.../" ++ `"techniques" ++ `"/" ++ `"test-output.ts".
Proof.
  apply (proj1 (@C6_compactPath_long 50 [] `"techniques" `"test-output.ts"
                  [`"home"; `"user"; `"projects"; `"pi-rtk-noemoji"; `"src"])).
  - repeat constructor; vm_compute; intuition discriminate.
  - discriminate.
  - vm_compute. lia.
Defined.

End PathFacts.

(** ** Build aggregator *)

Module BuildFacts.
Import Build.

(** A scan that has met neither an error start nor a warning only counts
    units. *)
Lemma quiet_scan : forall lines st,
  Forall (fun l => isErrorStart l = false /\ isWarning l = false) lines ->
  inErrorBlock st = false ->
  let st' := fold_left step lines st in
  inErrorBlock st' = false
  /\ errors (stats st') = errors (stats st)
  /\ warnings (stats st') = warnings (stats st)
  /\ compiled (stats st') = compiled (stats st) + length (filter isUnitStart lines).
Proof.
  induction lines as [|l lines IH]; intros st Hq Hin; simpl.
  - repeat split; auto.
  - inversion Hq as [|? ? [He Hw] Hq']; subst.
    assert (S1 : inErrorBlock (step st l) = false
                 /\ errors (stats (step st l)) = errors (stats st)
                 /\ warnings (stats (step st l)) = warnings (stats st)
                 /\ compiled (stats (step st l))
                    = compiled (stats st) + (if isUnitStart l then 1 else 0)).
    { unfold step. destruct (isUnitStart l); simpl.
      - repeat split; auto. lia.
      - destruct (isSkipLine l); [repeat split; auto|].
        rewrite He, Hw, Hin. repeat split; auto. }
    destruct S1 as (A & B & C & D).
    destruct (IH (step st l) Hq' A) as (A' & B' & C' & D').
    repeat split; try congruence.
    rewrite D', D. destruct (isUnitStart l); simpl; lia.
Qed.

(** C9.  For a build command and an output none of whose lines is an error
    start or a warning, [filterBuildOutput] returns exactly
    "[OK] Build successful (N units compiled)" with N the number of
    unit-start (Compiling/Checking/Building) lines; for "go build" and two
    "Compiling foo" lines this is "[OK] Build successful (2 units compiled)". *)
Theorem C9_quiet_build_ok :
  (forall (toLowerCase : str -> str) (command output : str),
     isBuildCommand toLowerCase (Some command) = true ->
     Forall (fun l => isErrorStart l = false /\ isWarning l = false)
            (lines_of output) ->
     filterBuildOutput toLowerCase output (Some command)
     = Some (`"[OK] Build successful ("
             ++ nat_to_str (length (filter isUnitStart (lines_of output)))
             ++ `" units compiled)"))
  /\ filterBuildOutput ascii_toLowerCase
       (unlines [`"Compiling foo"; `"Compiling foo"]) (Some `"go build")
     = Some `"[OK] Build successful (2 units compiled)".
Proof.
  split; [|vm_compute; reflexivity].
  intros lower command output Hcmd Hq.
  unfold filterBuildOutput. rewrite Hcmd. simpl negb. cbv iota.
  f_equal. unfold scanLines.
  destruct (quiet_scan init Hq eq_refl) as (A & B & C & D).
  simpl in B, C, D.
  unfold finish. rewrite A. simpl andb. cbv iota.
  unfold format. rewrite B, C, D. reflexivity.
Qed.

Lemma C9_quiet_build_ok_witness :
  filterBuildOutput ascii_toLowerCase
    (unlines [`"   Compiling serde v1.0"; `"Downloading crates"; `"    Checking rtk v0.1";
              `"Finished dev profile"]) (Some `"cargo build --release")
  = Some (`"[OK] Build successful ("
          ++ nat_to_str (length (filter isUnitStart
               (lines_of (unlines [`"   Compiling serde v1.0"; `"Downloading crates";
                                   `"    Checking rtk v0.1"; `"Finished dev profile"]))))
          ++ `" units compiled)").
Proof.
  apply (proj1 C9_quiet_build_ok ascii_toLowerCase).
  - vm_compute. reflexivity.
  - vm_compute. repeat constructor.
Defined.

End BuildFacts.

(** ** Block scanners: every opened block is flushed once *)

Module BlockFacts.
Import Build Blocks.

Lemma hd_app_nonempty (A : Type) (d : A) (xs ys : list A) :
  xs <> [] -> hd d (xs ++ ys) = hd d xs.
Proof. destruct xs; [contradiction | reflexivity]. Qed.

Lemma map_hd_snoc (bs : list (list str)) (b : list str) (l : str) :
  b <> [] ->
  map (hd []) (bs ++ [b ++ [l]]) = map (hd []) (bs ++ [b]).
Proof.
  intros H. rewrite !map_app. simpl. rewrite hd_app_nonempty by exact H. reflexivity.
Qed.

Lemma Forall_snoc_inv (A : Type) (P : A -> Prop) xs x :
  Forall P (xs ++ [x]) -> Forall P xs /\ P x.
Proof.
  intros H. apply Forall_app in H. destruct H as [H1 H2]. inversion H2; auto.
Qed.

(** One line keeps the blocks of the state in step with the opening lines. *)
Lemma build_step_blocks st l :
  Forall (fun b => b <> []) (buildBlocks st) ->
  map (hd []) (buildBlocks (step st l))
  = map (hd []) (buildBlocks st) ++ (if buildOpens l then [l] else [])
  /\ Forall (fun b => b <> []) (buildBlocks (step st l)).
Proof.
  intros Hne. unfold buildOpens, step.
  destruct (isUnitStart l); simpl.
  { unfold buildBlocks; simpl. rewrite app_nil_r. auto. }
  destruct (isSkipLine l); simpl.
  { rewrite app_nil_r. auto. }
  destruct st as [[cmp errs warns] inblk cur bc]; unfold buildBlocks in *; simpl in *.
  destruct (isErrorStart l); simpl.
  { destruct inblk; simpl.
    - apply Forall_snoc_inv in Hne. destruct Hne as [H1 H2].
      destruct cur as [|c0 cur]; [contradiction|]. simpl.
      rewrite !map_app. simpl. split; [reflexivity|].
      apply Forall_app; split; [apply Forall_app; split; auto|];
        repeat constructor; discriminate.
    - rewrite app_nil_r in *. rewrite map_app. simpl. split; [reflexivity|].
      apply Forall_app; split; auto. repeat constructor; discriminate. }
  destruct (isWarning l); simpl.
  { rewrite app_nil_r. auto. }
  destruct inblk; simpl; [|rewrite !app_nil_r in *; auto].
  apply Forall_snoc_inv in Hne. destruct Hne as [H1 H2].
  assert (Hext : forall x,
    map (hd []) (errs ++ [cur ++ [x]]) = map (hd []) (errs ++ [cur]) ++ []
    /\ Forall (fun b : list str => b <> []) (errs ++ [cur ++ [x]])).
  { intros x. rewrite app_nil_r. split; [apply map_hd_snoc; exact H2|].
    apply Forall_app; split; auto. constructor; auto.
    destruct cur; [contradiction | discriminate]. }
  assert (Hflush :
    map (hd []) ((errs ++ [cur]) ++ []) = map (hd []) (errs ++ [cur]) ++ []
    /\ Forall (fun b : list str => b <> []) ((errs ++ [cur]) ++ [])).
  { rewrite !app_nil_r. split; auto. apply Forall_app; split; auto. }
  destruct (str_eqb (trim l) []); simpl.
  - destruct ((match bc with 0 => false | S _ => true end)
              && (3 <? length cur)); simpl; auto.
  - destruct (test lead_space_re l || test arrow_re l); simpl; auto.
Qed.

Lemma build_scan_blocks lines :
  let st := fold_left step lines init in
  map (hd []) (buildBlocks st) = filter buildOpens lines
  /\ Forall (fun b => b <> []) (buildBlocks st).
Proof.
  induction lines as [|l lines IH] using rev_ind; simpl.
  - split; [reflexivity | constructor].
  - rewrite fold_left_app. simpl. destruct IH as [IH1 IH2].
    destruct (build_step_blocks (fold_left step lines init) l IH2) as [S1 S2].
    split; [|exact S2].
    rewrite S1, IH1, filter_app. simpl. destruct (buildOpens l); reflexivity.
Qed.

(** The flush after the loop adds the open block, if any, to the flushed
    ones. *)
Lemma build_finish_blocks st :
  Forall (fun b => b <> []) (buildBlocks st) ->
  errors (finish st) = buildBlocks st.
Proof.
  unfold finish, buildBlocks. intros H.
  destruct (inErrorBlock st); simpl.
  - apply Forall_snoc_inv in H. destruct H as [_ H].
    destruct (currentError st); [contradiction | reflexivity].
  - rewrite app_nil_r. reflexivity.
Qed.

Lemma test_step_blocks st l flushed :
  TestOutput.found st = map unlines flushed ->
  Forall (fun b => b <> []) (flushed ++ testOpen st) ->
  exists flushed',
    TestOutput.found (TestOutput.step st l) = map unlines flushed'
    /\ map (hd []) (flushed' ++ testOpen (TestOutput.step st l))
       = map (hd []) (flushed ++ testOpen st)
         ++ (if TestOutput.isFailureStart l then [l] else [])
    /\ Forall (fun b => b <> []) (flushed' ++ testOpen (TestOutput.step st l)).
Proof.
  intros Hf Hne. unfold TestOutput.step.
  destruct st as [fnd inf cur bc]; unfold testOpen in *; simpl in *. subst fnd.
  destruct (TestOutput.isFailureStart l); simpl.
  { destruct inf; simpl.
    - apply Forall_snoc_inv in Hne. destruct Hne as [H1 H2].
      destruct cur as [|c0 cur]; [contradiction|]. simpl.
      exists (flushed ++ [c0 :: cur]). rewrite !map_app. simpl.
      repeat split; auto.
      apply Forall_app; split; [apply Forall_app; split; auto|];
        repeat constructor; discriminate.
    - rewrite app_nil_r in *. exists flushed. rewrite map_app. simpl.
      repeat split; auto.
      apply Forall_app; split; auto. repeat constructor; discriminate. }
  destruct inf; simpl; [|exists flushed; rewrite !app_nil_r in *; auto].
  apply Forall_snoc_inv in Hne. destruct Hne as [H1 H2].
  assert (Hext : forall x, exists flushed',
    map unlines flushed = map unlines flushed'
    /\ map (hd []) (flushed' ++ [cur ++ [x]]) = map (hd []) (flushed ++ [cur]) ++ []
    /\ Forall (fun b : list str => b <> []) (flushed' ++ [cur ++ [x]])).
  { intros x. exists flushed. rewrite app_nil_r.
    repeat split; [apply map_hd_snoc; exact H2|].
    apply Forall_app; split; auto. constructor; auto.
    destruct cur; [contradiction | discriminate]. }
  assert (Hflush : exists flushed',
    map unlines flushed ++ [unlines cur] = map unlines flushed'
    /\ map (hd []) (flushed' ++ []) = map (hd []) (flushed ++ [cur]) ++ []
    /\ Forall (fun b : list str => b <> []) (flushed' ++ [])).
  { exists (flushed ++ [cur]). rewrite !app_nil_r, map_app. simpl.
    repeat split; auto. apply Forall_app; split; auto. }
  destruct (str_eqb (trim l) []); simpl.
  - destruct ((match bc with 0 => false | S _ => true end)
              && (3 <? length cur)); simpl; auto.

  - destruct (test TestOutput.lead_space_re l || test TestOutput.dash_re l);
      simpl; auto.

Qed.

Lemma test_scan_blocks lines :
  let st := fold_left TestOutput.step lines TestOutput.init in
  exists flushed,
    TestOutput.found st = map unlines flushed
    /\ map (hd []) (flushed ++ testOpen st) = filter TestOutput.isFailureStart lines
    /\ Forall (fun b => b <> []) (flushed ++ testOpen st).
Proof.
  induction lines as [|l lines IH] using rev_ind; simpl.
  - exists []. repeat split; constructor.
  - rewrite fold_left_app. simpl. destruct IH as (fl & IH0 & IH1 & IH2).
    destruct (test_step_blocks _ l fl IH0 IH2) as (fl' & S0 & S1 & S2).
    exists fl'. repeat split; auto.
    rewrite S1, IH1, filter_app. simpl.
    destruct (TestOutput.isFailureStart l); reflexivity.
Qed.

Lemma test_finish_blocks st flushed :
  TestOutput.found st = map unlines flushed ->
  Forall (fun b => b <> []) (flushed ++ testOpen st) ->
  TestOutput.finish st = map unlines (flushed ++ testOpen st).
Proof.
  unfold TestOutput.finish, testOpen. intros Hf H.
  destruct (TestOutput.inFailure st); simpl.
  - apply Forall_snoc_inv in H. destruct H as [_ H]. rewrite map_app, Hf.
    destruct (TestOutput.currentFailure st); [contradiction | reflexivity].
  - rewrite app_nil_r. exact Hf.
Qed.

(** C7.  In the build error-block scanner and in the test failure-block
    scanner the result list holds exactly the blocks of the final state, the
    flushed ones followed by the one still open at end-of-stream; these
    blocks are non-empty and their first lines are, in order, the lines that
    opened a block.  So every opened block is in the result exactly once,
    whether it was flushed on closure or by the flush at end-of-stream. *)
Theorem C7_blocks_flushed_once (lines : list str) :
  (let st := fold_left Build.step lines Build.init in
   Build.errors (Build.scanLines lines) = buildBlocks st
   /\ map (hd []) (Build.errors (Build.scanLines lines)) = filter buildOpens lines
   /\ Forall (fun b => b <> []) (Build.errors (Build.scanLines lines)))
  /\ (let st := fold_left TestOutput.step lines TestOutput.init in
      exists flushed,
        TestOutput.found st = map unlines flushed
        /\ TestOutput.scanFailures lines = map unlines (flushed ++ testOpen st)
        /\ map (hd []) (flushed ++ testOpen st)
           = filter TestOutput.isFailureStart lines
        /\ Forall (fun b => b <> []) (flushed ++ testOpen st)).
Proof.
  split.
  - destruct (build_scan_blocks lines) as [B1 B2]. cbv zeta.
    unfold Build.scanLines. rewrite (build_finish_blocks _ B2). auto.
  - destruct (test_scan_blocks lines) as (fl & T0 & T1 & T2). cbv zeta.
    exists fl. unfold TestOutput.scanFailures.
    rewrite (test_finish_blocks _ fl T0 T2). auto.
Qed.

End BlockFacts.

(** ** Search grouper *)

Module SearchFacts.
Import Search Shapes RegexFacts StrFacts.

Lemma colon_not_space : is_space (ch ":") = false.
Proof. reflexivity. Qed.

Lemma forallb_In (p : char -> bool) s c : forallb p s = true -> In c s -> p c = true.
Proof. intros H. rewrite forallb_forall in H. auto. Qed.

(** The line pattern matches exactly the lines of the shape. *)
Lemma line_re_shape l : test line_re l = true <-> hasShape l.
Proof.
  unfold line_re. cbn [Seqs]. rewrite test_Bol_iff. unfold hasShape, Opt. split.
  - intros (q & M).
    apply Matches_Seq_iff in M. destruct M as (p1 & M1 & M).
    apply Matches_Grp_iff, Matches_PlusLazyChr_iff in M1.
    destruct M1 as (f & Hf & Df & S1).
    apply Matches_Seq_iff in M. destruct M as (p2 & M2 & M).
    apply Matches_One_iff in M2.
    apply Matches_Seq_iff in M. destruct M as (p3 & M3 & M).
    apply Matches_Seq_iff in M. destruct M as (p4 & M4 & M).
    apply Matches_One_iff in M4.
    apply Matches_Seq_iff in M. destruct M as (p5 & M5 & M).
    apply Matches_Grp_iff, Matches_PlusChr_iff in M5.
    destruct M5 as (c & Hc & Dc & S5).
    apply Matches_Eol_iff in M. destruct M as [E ->].
    assert (D : exists d, forallb is_digit d = true /\ Span p2 d p3).
    { apply Matches_Alt_iff in M3. destruct M3 as [M3 | M3].
      - apply Matches_Grp_iff, Matches_PlusChr_iff in M3.
        destruct M3 as (d & _ & Dd & Sd). eauto.
      - apply Matches_Eps_iff in M3. subst. exists []. split; auto.
        apply Span_nil. reflexivity. }
    destruct D as (d & Dd & S3).
    exists f, d, c.
    pose proof (Span_app S1 (Span_app M2 (Span_app S3 (Span_app M4 S5)))) as [A _].
    simpl in A. rewrite E, app_nil_r in A. simpl. auto 10.
  - intros (f & d & c & El & Hf & Hc & Df & Dd & Dc).
    exists (mkPos (rev l) []).
    assert (S : Span (mkPos [] l) (f ++ [ch ":"] ++ d ++ [ch ":"] ++ c) (mkPos (rev l) [])).
    { unfold Span. simpl. rewrite !app_nil_r. subst l. auto. }
    apply Span_split in S. destruct S as (p1 & S1 & S).
    apply Span_split in S. destruct S as (p2 & S2 & S).
    apply Span_split in S. destruct S as (p3 & S3 & S).
    apply Span_split in S. destruct S as (p4 & S4 & S5).
    apply Matches_Seq_iff. exists p1. split.
    { apply Matches_Grp_iff, Matches_PlusLazyChr_iff. eauto. }
    apply Matches_Seq_iff. exists p2. split.
    { apply Matches_One_iff. exact S2. }
    apply Matches_Seq_iff. exists p3. split.
    { apply Matches_Alt_iff. destruct d as [|d0 d].
      - right. apply Matches_Eps_iff. apply Span_nil in S3. exact S3.
      - left. apply Matches_Grp_iff, Matches_PlusChr_iff.
        exists (d0 :: d). repeat split; auto; try discriminate; apply S3. }
    apply Matches_Seq_iff. exists p4. split.
    { apply Matches_One_iff. exact S4. }
    apply Matches_Seq_iff. exists (mkPos (rev l) []). split.
    { apply Matches_Grp_iff, Matches_PlusChr_iff. eauto. }
    apply Matches_Eol_iff. auto.
Qed.

Lemma shape_not_blank l : hasShape l -> str_eqb (trim l) [] = false.
Proof.
  intros (f & d & c & El & _). apply str_eqb_neq. intros B.
  apply trim_nil_iff in B.
  assert (I : In (ch ":") l).
  { subst l. apply in_or_app. right. left. reflexivity. }
  pose proof (forallb_In _ _ _ B I) as F. rewrite colon_not_space in F. discriminate.
Qed.

Lemma parseLine_none_iff l : parseLine l = None <-> ~ hasShape l.
Proof.
  unfold parseLine. split.
  - intros H Hs. rewrite (shape_not_blank Hs) in H.
    apply line_re_shape in Hs. unfold test, exec in *.
    destruct (search line_re [] l) as [[p0 [q cs]]|]; discriminate.
  - intros H. destruct (str_eqb (trim l) []); [reflexivity|].
    destruct (exec line_re l) eqn:E; [|reflexivity].
    exfalso. apply H. apply line_re_shape.
    destruct (test line_re l) eqn:T; [reflexivity|].
    apply exec_none_iff in T. congruence.
Qed.

Lemma parseLines_nil_iff lines :
  parseLines lines = [] <-> forall l, In l lines -> ~ hasShape l.
Proof.
  induction lines as [|l lines IH]; simpl.
  - split; [intros _ l [] | reflexivity].
  - destruct (parseLine l) eqn:E.
    + split; [discriminate|]. intros H. exfalso.
      assert (N : parseLine l = None) by (apply parseLine_none_iff; apply H; auto).
      congruence.
    + rewrite IH. apply parseLine_none_iff in E. split.
      * intros H x [<- | Hx]; auto.
      * intros H x Hx. apply H. auto.
Qed.

Lemma group_none_iff localeCompare output maxResults :
  groupSearchResults localeCompare output maxResults = None
  <-> parseLines (lines_of output) = [].
Proof.
  unfold groupSearchResults.
  destruct (parseLines (lines_of output)) as [|r rs] eqn:E; simpl.
  - split; reflexivity.
  - destruct (emit _ _ _ _) as [text shown]. split; discriminate.
Qed.

Lemma split_units sep : forall s l c, In l (split sep s) -> In c l -> In c s.
Proof.
  induction s as [|x s IH]; simpl; intros l c Hl Hc.
  - destruct Hl as [<- | []]. exact Hc.
  - destruct (char_eqb x sep).
    + destruct Hl as [<- | Hl]; [contradiction | right; eauto].
    + destruct (split sep s) as [|l0 ls] eqn:E.
      * destruct Hl as [<- | []]. destruct Hc as [-> | []]. auto.
      * destruct Hl as [<- | Hl].
        -- destruct Hc as [-> | Hc]; [auto | right; apply (IH l0); simpl; auto].
        -- right. apply (IH l); simpl; auto.
Qed.

(** C10.  [groupSearchResults] returns null exactly when no line of the
    input has the [file:line?:content] shape; this is the case for an empty
    or all-blank input; and when some line has the shape, the result is a
    report string.  The function is total: it has a result on every input. *)
Theorem C10_group_null_iff
    (localeCompare : str -> str -> Z) (output : str) (maxResults : nat) :
  (groupSearchResults localeCompare output maxResults = None
   <-> forall l, In l (lines_of output) -> ~ hasShape l)
  /\ (forallb is_space output = true ->
      groupSearchResults localeCompare output maxResults = None)
  /\ ((exists l, In l (lines_of output) /\ hasShape l) ->
      exists report, groupSearchResults localeCompare output maxResults = Some report).
Proof.
  assert (I : groupSearchResults localeCompare output maxResults = None
              <-> forall l, In l (lines_of output) -> ~ hasShape l).
  { rewrite group_none_iff. apply parseLines_nil_iff. }
  split; [exact I|]. split.
  - intros B. apply I. intros l Hl Hs.
    destruct Hs as (f & d & c & El & _).
    assert (Hc : In (ch ":") l).
    { subst l. apply in_or_app. right. left. reflexivity. }
    pose proof (split_units _ _ _ _ Hl Hc) as Ho.
    pose proof (forallb_In _ _ _ B Ho) as F. rewrite colon_not_space in F. discriminate.
  - intros (l & Hl & Hs).
    destruct (groupSearchResults localeCompare output maxResults) as [report|] eqn:E.
    + exists report. reflexivity.
    + exfalso. apply (proj1 I eq_refl l Hl Hs).
Qed.

Lemma C10_group_null_iff_witness :
  exists report,
    groupSearchResults (fun _ _ => 0%Z)
      (unlines [[]; `"src/index.ts:42:  const x = 1;"; `"not a match"]) 50
    = Some report.
Proof.
  apply (proj2 (proj2 (C10_group_null_iff (fun _ _ => 0%Z)
    (unlines [[]; `"src/index.ts:42:  const x = 1;"; `"not a match"]) 50))).
  exists `"src/index.ts:42:  const x = 1;". split.
  - vm_compute. right. left. reflexivity.
  - exists `"src/index.ts", `"42", `"  const x = 1;".
    vm_compute. repeat split; discriminate.
Defined.

End SearchFacts.

(** ** Test classifier: whole-token matching *)

Module ClassifierFacts.
Import TestOutput Shapes RegexFacts StrFacts.

(** The token pattern finds exactly the standalone occurrences. *)
Lemma token_re_standalone tc s : test (token_re tc) s = true <-> standalone tc s.
Proof.
  unfold token_re, standalone, tokenStart, tokenEnd. cbn [Seqs].
  rewrite test_iff. split.
  - intros (u & v & q & Es & M).
    apply Matches_Seq_iff in M. destruct M as (p1 & M1 & M).
    apply Matches_Seq_iff in M. destruct M as (p2 & M2 & M3).
    apply Matches_Lit_iff in M2.
    assert (L : exists pre, Span (mkPos (rev pre) (after p1)) [] p1
                            /\ s = pre ++ after p1
                            /\ (pre = [] \/ exists pre' c, pre = pre' ++ [c] /\ is_sep c = true)).
    { apply Matches_Alt_iff in M1. destruct M1 as [M1 | M1].
      - apply Matches_Bol_iff in M1. simpl in M1. destruct M1 as [B ->].
        assert (u = []) by (destruct u; [auto | simpl in B; apply app_eq_nil in B;
                                               destruct B; discriminate]).
        subst u. exists []. simpl. repeat split; auto.
      - apply Matches_Chr_iff in M1. destruct M1 as (c & Hc & [A B]). simpl in A, B.
        exists (u ++ [c]). rewrite rev_app_distr. simpl. unfold Span. simpl.
        repeat split; eauto. rewrite <- app_assoc. simpl. rewrite <- A. exact Es. }
    destruct L as (pre & _ & Es' & Hpre).
    destruct M2 as [A2 _].
    exists pre, (after p2). split; [rewrite Es', A2; reflexivity|]. split; [exact Hpre|].
    apply Matches_Alt_iff in M3. destruct M3 as [M3 | M3].
    + apply Matches_Chr_iff in M3. destruct M3 as (c & Hc & [A _]). simpl in A.
      right. eauto.
    + apply Matches_Eol_iff in M3. destruct M3 as [E _]. left. exact E.
  - intros (pre & post & Es & Hpre & Hpost).
    assert (R : exists q, Matches (Alt (Chr is_sep) Eol)
                            (mkPos (rev tc ++ rev pre) post) q).
    { destruct Hpost as [-> | (c & post' & -> & Hc)].
      - eexists. apply Matches_Alt_iff. right. apply Matches_Eol_iff. simpl. eauto.
      - eexists. apply Matches_Alt_iff. left. constructor. exact Hc. }
    destruct R as (q & R).
    assert (T : Matches (Lit tc) (mkPos (rev pre) (tc ++ post))
                  (mkPos (rev tc ++ rev pre) post)).
    { apply Matches_Lit_iff. unfold Span. simpl. auto. }
    destruct Hpre as [-> | (pre' & c & -> & Hc)].
    + exists [], s, q. split; [reflexivity|]. simpl in *. subst s.
      apply Matches_Seq_iff. exists (mkPos [] (tc ++ post)). split.
      * apply Matches_Alt_iff. left. constructor.
      * apply Matches_Seq_iff. eauto.
    + exists pre', (c :: tc ++ post), q. split.
      * rewrite Es, <- app_assoc. reflexivity.
      * rewrite rev_app_distr in T, R. simpl in T, R.
        apply Matches_Seq_iff. exists (mkPos (c :: rev pre') (tc ++ post)). split.
        -- apply Matches_Alt_iff. right. constructor. exact Hc.
        -- apply Matches_Seq_iff. eauto.
Qed.

Lemma isTestCommand_iff toLowerCase command :
  isTestCommand toLowerCase (Some command) = true
  <-> command <> [] /\ exists tc, In tc TEST_COMMANDS
                                  /\ standalone tc (toLowerCase command).
Proof.
  unfold isTestCommand. destruct command as [|c0 command]; simpl length.
  - simpl. split; [discriminate | intros [H _]; contradiction].
  - cbv iota. change (S (length command) =? 0) with false. cbv iota.
    rewrite existsb_exists. split.
    + intros (tc & Hin & Ht). split; [discriminate|].
      exists tc. split; auto. apply token_re_standalone. exact Ht.
    + intros (_ & tc & Hin & Hs). exists tc. split; auto.
      apply token_re_standalone. exact Hs.
Qed.

Lemma embedded_not_standalone tc s : embedded tc s -> ~ standalone tc s.
Proof.
  intros He (pre & post & Es & Hpre & Hpost).
  destruct (He pre post Es) as [(pre' & c & E & Hc) | (c & post' & E & Hc)].
  - destruct Hpre as [-> | (pre2 & c2 & E2 & Hc2)].
    + destruct pre'; discriminate.
    + rewrite E in E2. apply app_inj_tail in E2. destruct E2; subst. congruence.
  - destruct Hpost as [-> | (c2 & post2 & E2 & Hc2)]; [discriminate|].
    rewrite E in E2. inversion E2; subst. congruence.
Qed.

Lemma endOk_iff post : endOk post = true <-> tokenEnd post.
Proof.
  unfold endOk, tokenEnd. destruct post as [|c post]; split; auto.
  - intros H. right. eauto.
  - intros [E | (c' & p' & E & H)]; [discriminate | inversion E; subst; auto].
Qed.

Lemma standalone_from_iff tc : forall s prev,
  standalone_from tc prev s = true <->
  exists pre post, s = pre ++ tc ++ post
    /\ (match rev pre with [] => startOk prev = true | c :: _ => is_sep c = true end)
    /\ tokenEnd post.
Proof.
  induction s as [|x s IH]; intros prev; cbn [standalone_from];
    rewrite orb_true_iff, !andb_true_iff, startsWith_iff.
  - split.
    + intros [[[H1 (t & Et)] H3] | H]; [|discriminate].
      exists [], t. rewrite Et in H3. rewrite skipn_app_exact in H3.
      apply endOk_iff in H3. simpl. auto.
    + intros (pre & post & E & Hs & He). left.
      destruct pre; [|discriminate]. simpl in *.
      rewrite E, skipn_app_exact. repeat split; eauto. apply endOk_iff. exact He.
  - rewrite IH. split.
    + intros [[[H1 (t & Et)] H3] | (pre & post & E & Hs & He)].
      * exists [], t. rewrite Et in H3. rewrite skipn_app_exact in H3.
        apply endOk_iff in H3. simpl. auto.
      * exists (x :: pre), post. split; [simpl; rewrite E; reflexivity|].
        split; [|exact He]. simpl.
        destruct (rev pre) as [|c r] eqn:Er; simpl; auto.
    + intros (pre & post & E & Hs & He). destruct pre as [|y pre].
      * left. simpl in *. rewrite E, skipn_app_exact. repeat split; eauto.
        apply endOk_iff. exact He.
      * right. simpl in E. inversion E; subst. exists pre, post.
        split; [reflexivity|]. split; [|exact He]. simpl in Hs.
        destruct (rev pre) as [|c r] eqn:Er; simpl in *; auto.
Qed.

Lemma standaloneb_iff tc s : standaloneb tc s = true <-> standalone tc s.
Proof.
  unfold standaloneb, standalone, tokenStart. rewrite standalone_from_iff.
  split; intros (pre & post & E & Hs & He); exists pre, post; repeat split; auto.
  - destruct (rev pre) as [|c r] eqn:Er.
    + left. apply (f_equal (@rev char)) in Er. rewrite rev_involutive in Er. exact Er.
    + right. exists (rev r), c. split; auto.
      apply (f_equal (@rev char)) in Er. rewrite rev_involutive in Er. exact Er.
  - destruct Hs as [-> | (pre' & c & -> & Hc)]; simpl; auto.
    rewrite rev_app_distr. simpl. exact Hc.
Qed.

Lemma embedded_iff tc s : embedded tc s <-> standaloneb tc s = false.
Proof.
  split.
  - intros He. destruct (standaloneb tc s) eqn:E; auto.
    apply standaloneb_iff in E. exfalso. revert E. apply embedded_not_standalone, He.
  - intros Hb pre post Es.
    assert (N : ~ standalone tc s).
    { intros H. apply standaloneb_iff in H. congruence. }
    destruct (rev pre) as [|c r] eqn:Er.
    + apply (f_equal (@rev char)) in Er. rewrite rev_involutive in Er. simpl in Er.
      subst pre. destruct post as [|c post].
      * exfalso. apply N. exists [], []. unfold tokenStart, tokenEnd. auto.
      * destruct (is_sep c) eqn:Ec; [|right; eauto].
        exfalso. apply N. exists [], (c :: post). unfold tokenStart, tokenEnd.
        split; auto. split; auto. right. eauto.
    + apply (f_equal (@rev char)) in Er. rewrite rev_involutive in Er. simpl in Er.
      destruct (is_sep c) eqn:Ec; [|left; eauto].
      destruct post as [|c' post].
      * exfalso. apply N. exists pre, []. unfold tokenStart, tokenEnd.
        split; auto. split; auto. right. eauto.
      * destruct (is_sep c') eqn:Ec'; [|right; eauto].
        exfalso. apply N. exists pre, (c' :: post). unfold tokenStart, tokenEnd.
        split; auto. split; right; eauto.
Qed.

(** C8.  When every occurrence of every test-runner name in the lower-cased
    command lies inside a longer word, [isTestCommand] is false and
    [aggregateTestOutput] returns null; and [isTestCommand] holds only when
    some name occurs as a standalone token, bounded on each side by white
    space, one of | ; & or an end of the string. *)
Theorem C8_whole_token_only (toLowerCase : str -> str) (command output : str) :
  ((forall tc, In tc TEST_COMMANDS -> embedded tc (toLowerCase command)) ->
   isTestCommand toLowerCase (Some command) = false
   /\ aggregateTestOutput toLowerCase output (Some command) = None)
  /\ (isTestCommand toLowerCase (Some command) = true ->
      exists tc, In tc TEST_COMMANDS /\ standalone tc (toLowerCase command)).
Proof.
  split.
  - intros He.
    assert (F : isTestCommand toLowerCase (Some command) = false).
    { destruct (isTestCommand toLowerCase (Some command)) eqn:E; auto.
      apply isTestCommand_iff in E. destruct E as (_ & tc & Hin & Hs).
      exfalso. revert Hs. apply embedded_not_standalone, He, Hin. }
    split; [exact F|]. unfold aggregateTestOutput. rewrite F. reflexivity.
  - intros H. apply isTestCommand_iff in H. tauto.
Qed.

Lemma C8_whole_token_only_witness :
  isTestCommand ascii_toLowerCase (Some `"npm install LATEST attestation") = false
  /\ aggregateTestOutput ascii_toLowerCase `"3 passed"
       (Some `"npm install LATEST attestation") = None.
Proof.
  apply (proj1 (C8_whole_token_only ascii_toLowerCase
                  `"npm install LATEST attestation" `"3 passed")).
  intros tc Hin. apply embedded_iff. revert tc Hin. apply Forall_forall.
  vm_compute. repeat constructor.
Defined.

End ClassifierFacts.

(** ** ANSI stripper *)

Module AnsiFacts.
Import Ansi RegexFacts StrFacts.

(** A pattern that starts with the ESC unit fails where no ESC stands. *)
Lemma esc_first_fails r bef aft :
  match aft with c :: _ => c <> ESC | [] => True end ->
  match_at (Seq (One ESC) r) (mkPos bef aft) = None.
Proof.
  intros H. unfold match_at, One. cbn [m after].
  destruct aft as [|c aft]; [reflexivity|].
  destruct (char_eqb ESC c) eqn:E; [|reflexivity].
  apply char_eqb_eq in E. congruence.
Qed.

Lemma replace_no_esc r rep : forall aft bef,
  ~ In ESC aft -> replace_from (Seq (One ESC) r) rep bef aft 0 = aft.
Proof.
  induction aft as [|c aft IH]; intros bef H; cbn [replace_from].
  - rewrite esc_first_fails by exact I. reflexivity.
  - rewrite esc_first_fails by (intros E; apply H; left; auto).
    rewrite IH by (intros F; apply H; right; exact F). reflexivity.
Qed.

(** Without an ESC unit the text is left as it is. *)
Lemma stripAnsi_clean x : ~ In ESC x -> stripAnsi x = x.
Proof.
  intros H. unfold stripAnsi, replaceAll, csi_re, osc_re, other_re. cbn [Seqs].
  rewrite (replace_no_esc _ [] x [] H).
  rewrite (replace_no_esc _ [] x [] H).
  apply replace_no_esc. exact H.
Qed.

(** C4, counterexample.  Removing the inner sequence of
    ESC [ ESC [ 0 m m leaves ESC [ m, which a second pass removes. *)
Lemma C4_not_idempotent :
  stripAnsi (stripAnsi ([ESC] ++ `"[" ++ [ESC] ++ `"[0mm"))
  <> stripAnsi ([ESC] ++ `"[" ++ [ESC] ++ `"[0mm").
Proof. vm_compute. discriminate. Qed.

(** C4, amended.  Stripping twice equals stripping once for every text whose
    stripped form holds no ESC unit; a text without ESC is returned
    unchanged. *)
Theorem C4_strip_idempotent_when_clean (x : str) :
  (~ In ESC (stripAnsi x) -> stripAnsi (stripAnsi x) = stripAnsi x)
  /\ (~ In ESC x -> stripAnsi x = x).
Proof. split; apply stripAnsi_clean. Qed.

Lemma C4_strip_idempotent_when_clean_witness :
  stripAnsi (stripAnsi ([ESC] ++ `"[1;31merror" ++ [ESC] ++ `"[0m: failed"))
  = stripAnsi ([ESC] ++ `"[1;31merror" ++ [ESC] ++ `"[0m: failed").
Proof.
  apply (proj1 (C4_strip_idempotent_when_clean
                  ([ESC] ++ `"[1;31merror" ++ [ESC] ++ `"[0m: failed"))).
  vm_compute. intuition discriminate.
Defined.

End AnsiFacts.

(** ** Source filter: blank-line normalisation *)

Module MinimalFacts.
Import Runs RegexFacts StrFacts.

Lemma star_greedy_class f : forall n bef aft cs,
  length aft < n ->
  exists bef',
    star_loop (m (Chr f)) true accept n (mkPos bef aft) cs
    = Some (mkPos bef' (dropWhile f aft), cs).
Proof.
  set (ma := m (Chr f)).
  assert (Hma : forall p cs k,
    ma p cs k = match after p with
                | [] => None
                | c :: rest =>
                    if f c then k (mkPos (c :: before p) rest) cs else None
                end) by reflexivity.
  clearbody ma.
  induction n as [|n IH]; intros bef aft cs Hn; [lia|].
  cbn [star_loop]. rewrite Hma. cbn [after before].
  destruct aft as [|c aft].
  - simpl. eexists. reflexivity.
  - cbn [dropWhile]. destruct (f c).
    + cbn [after before length].
      assert (L : (length aft <? S (length aft)) = true) by (apply Nat.ltb_lt; lia).
      rewrite L. simpl in Hn.
      destruct (IH (c :: bef) aft cs ltac:(lia)) as (b' & E).
      rewrite E. simpl. eexists. reflexivity.
    + simpl. eexists. reflexivity.
Qed.

Lemma match_blank_run bef rest :
  exists bef',
    match_at Source.blank_run_re (mkPos bef (NL :: NL :: NL :: rest))
    = Some (mkPos bef' (dropWhile (char_eqb NL) rest), []).
Proof.
  unfold match_at, Source.blank_run_re, One. cbn [Seqs m after before].
  change (char_eqb NL NL) with true. cbv iota. cbn [after before].
  apply star_greedy_class. lia.
Qed.

Lemma match_blank_fail bef aft :
  startsWith [NL; NL; NL] aft = false -> match_at Source.blank_run_re (mkPos bef aft) = None.
Proof.
  unfold match_at, Source.blank_run_re, One. cbn [Seqs m after before startsWith].
  destruct aft as [|c1 aft]; [reflexivity|].
  destruct (char_eqb NL c1); [|reflexivity]. cbn [after before andb].
  destruct aft as [|c2 aft]; [reflexivity|].
  destruct (char_eqb NL c2); [|reflexivity]. cbn [after before andb].
  destruct aft as [|c3 aft]; [reflexivity|].
  destruct (char_eqb NL c3); [|reflexivity]. simpl. discriminate.
Qed.

Lemma replace_skip r rep : forall n aft bef,
  n <= length aft ->
  exists bef', replace_from r rep bef aft n = replace_from r rep bef' (skipn n aft) 0.
Proof.
  induction n as [|n IH]; intros aft bef Hn.
  - exists bef. reflexivity.
  - destruct aft as [|c aft]; simpl in Hn; [lia|].
    cbn [replace_from skipn]. apply IH. lia.
Qed.

Lemma lead_skipn c : forall s, skipn (lead c s) s = dropWhile (char_eqb c) s.
Proof.
  induction s as [|x s IH]; simpl; auto.
  destruct (char_eqb c x); simpl; auto.
Qed.

Lemma lead_length c : forall s, lead c s + length (dropWhile (char_eqb c) s) = length s.
Proof.
  induction s as [|x s IH]; simpl; auto.
  destruct (char_eqb c x); simpl; lia.
Qed.

Lemma runs_head c s : exists n rs, runs (c :: s) = (c, S n) :: rs.
Proof.
  simpl. destruct (runs s) as [|[d k] rs]; [eauto|].
  destruct (char_eqb c d) eqn:E; [|eauto].
  apply char_eqb_eq in E. subst. eauto.
Qed.

Lemma runs_lead c : forall s,
  runs (c :: s) = (c, S (lead c s)) :: runs (dropWhile (char_eqb c) s).
Proof.
  induction s as [|x s IH].
  - reflexivity.
  - cbn [lead dropWhile]. destruct (char_eqb c x) eqn:E.
    + apply char_eqb_eq in E. subst x.
      change (runs (c :: c :: s)) with
        (match runs (c :: s) with
         | (d, n) :: rs => if char_eqb c d then (d, S n) :: rs else (c, 1) :: (d, n) :: rs
         | [] => [(c, 1)]
         end).
      rewrite IH. rewrite (proj2 (char_eqb_eq c c) eq_refl). reflexivity.
    + change (runs (c :: x :: s)) with
        (match runs (x :: s) with
         | (d, n) :: rs => if char_eqb c d then (d, S n) :: rs else (c, 1) :: (d, n) :: rs
         | [] => [(c, 1)]
         end).
      destruct (runs_head x s) as (n & rs & R). rewrite R, E. reflexivity.
Qed.

Lemma squeeze_NL s :
  squeezeNewlines (NL :: s)
  = (if 2 <=? lead NL s then [NL; NL] else repeat NL (S (lead NL s)))
    ++ squeezeNewlines (dropWhile (char_eqb NL) s).
Proof.
  unfold squeezeNewlines. rewrite runs_lead. cbn [map unruns flat_map].
  unfold capRun. cbn [fst snd]. change (char_eqb NL NL) with true. cbn [andb].
  change (3 <=? S (lead NL s)) with (2 <=? lead NL s).
  destruct (2 <=? lead NL s); reflexivity.
Qed.

Lemma squeeze_other c s : c <> NL -> squeezeNewlines (c :: s) = c :: squeezeNewlines s.
Proof.
  intros Hc. unfold squeezeNewlines. cbn [runs].
  assert (Hcap : forall n, capRun (c, n) = (c, n)).
  { intros n. unfold capRun. cbn [fst]. apply char_eqb_neq in Hc. rewrite Hc. reflexivity. }
  destruct (runs s) as [|[d k] rs].
  - cbn [map]. rewrite Hcap. reflexivity.
  - destruct (char_eqb c d) eqn:E.
    + apply char_eqb_eq in E. subst d. cbn [map]. rewrite !Hcap. reflexivity.
    + cbn [map]. rewrite Hcap. reflexivity.
Qed.

Lemma squeeze_run rest :
  squeezeNewlines (NL :: NL :: NL :: rest)
  = NL :: NL :: squeezeNewlines (dropWhile (char_eqb NL) rest).
Proof.
  rewrite squeeze_NL. cbn [lead dropWhile]. change (char_eqb NL NL) with true.
  reflexivity.
Qed.

Lemma squeeze_short c s :
  startsWith [NL; NL; NL] (c :: s) = false ->
  squeezeNewlines (c :: s) = c :: squeezeNewlines s.
Proof.
  intros H. destruct (char_eqb NL c) eqn:E.
  2:{ apply squeeze_other. apply char_eqb_neq in E. congruence. }
  apply char_eqb_eq in E. subst c. cbn [startsWith] in H.
  change (char_eqb NL NL) with true in H. cbn [andb] in H.
  rewrite squeeze_NL.
  destruct s as [|c2 s]; [reflexivity|].
  cbn [lead dropWhile]. destruct (char_eqb NL c2) eqn:E2.
  - apply char_eqb_eq in E2. subst c2. cbn [andb] in H.
    rewrite squeeze_NL.
    destruct s as [|c3 s]; [reflexivity|].
    cbn [lead dropWhile]. destruct (char_eqb NL c3) eqn:E3.
    + cbn in H. discriminate.
    + reflexivity.
  - reflexivity.
Qed.

(** The replacement of /\n{3,}/g by two newlines caps every run of newline
    units at two and touches nothing else. *)
Lemma replace_blank_runs : forall n aft bef,
  length aft <= n ->
  replace_from Source.blank_run_re [NL; NL] bef aft 0 = squeezeNewlines aft.
Proof.
  induction n as [|n IH]; intros aft bef Hn.
  - destruct aft; [|simpl in Hn; lia]. cbn [replace_from].
    rewrite match_blank_fail by reflexivity. reflexivity.
  - destruct aft as [|c aft].
    { cbn [replace_from]. rewrite match_blank_fail by reflexivity. reflexivity. }
    simpl in Hn.
    destruct (startsWith [NL; NL; NL] (c :: aft)) eqn:E.
    + apply startsWith_iff in E. destruct E as (rest & E).
      simpl in E. inversion E; subst c aft. clear E.
      cbn [replace_from]. destruct (match_blank_run bef rest) as (b' & M).
      rewrite M. cbn [after length].
      pose proof (lead_length NL rest) as L.
      replace (S (S (S (length rest))) - length (dropWhile (char_eqb NL) rest))
        with (S (S (S (lead NL rest)))) by lia.
      cbn [replace_from].
      destruct (@replace_skip Source.blank_run_re [NL; NL] (lead NL rest) rest
                  (NL :: NL :: NL :: bef)) as (b2 & R); [lia|].
      rewrite R, lead_skipn, squeeze_run.
      rewrite IH; [reflexivity|]. simpl in Hn. lia.
    + cbn [replace_from]. rewrite (match_blank_fail bef _ E).
      rewrite IH by lia. symmetry. apply squeeze_short. exact E.
Qed.

Lemma known_language l : l <> Source.unknown -> Source.is_unknown l = false.
Proof. destruct l; try reflexivity. contradiction. Qed.

Lemma filterMinimal_trimmed content language :
  language <> Source.unknown ->
  trim (Source.filterMinimal content language) = Source.filterMinimal content language.
Proof.
  intros H. unfold Source.filterMinimal. rewrite (known_language H). apply trim_idem.
Qed.

(** C5, counterexample.  Three empty lines between two lines (four newline
    units) come out as one empty line, not two. *)
Lemma C5_three_blank_lines_become_one :
  Source.filterMinimal (unlines [`"a"; []; []; []; `"b"]) Source.typescript = unlines [`"a"; []; `"b"]
  /\ Source.filterMinimal (unlines [`"a"; []; []; []; `"b"]) Source.typescript
     <> unlines [`"a"; []; []; `"b"].
Proof. split; vm_compute; [reflexivity | discriminate]. Qed.

(** C5, amended.  After the minimal pass over a known language, every
    maximal run of three or more consecutive newline units of the joined
    intermediate result (two or more consecutive empty lines) is replaced by
    exactly two newline units (one empty line), every other run is kept, and
    the final result is trimmed of leading and trailing white space. *)
Theorem C5_newline_runs_capped (content : str) (language : Source.Language) :
  language <> Source.unknown ->
  Source.filterMinimal content language
  = trim (squeezeNewlines (unlines (Source.minimalPass language (lines_of content))))
  /\ trim (Source.filterMinimal content language) = Source.filterMinimal content language.
Proof.
  intros Hl. split; [|apply filterMinimal_trimmed; exact Hl].
  unfold Source.filterMinimal. rewrite (known_language Hl).
  unfold replaceAll. rewrite (@replace_blank_runs _ _ [] (le_n _)). reflexivity.
Qed.

Lemma C5_newline_runs_capped_witness :
  Source.filterMinimal (unlines [`"  // header"; `"a"; []; []; []; []; `"b  "]) Source.rust
  = trim (squeezeNewlines (unlines (Source.minimalPass Source.rust
            (lines_of (unlines [`"  // header"; `"a"; []; []; []; []; `"b  "])))))
  /\ trim (Source.filterMinimal (unlines [`"  // header"; `"a"; []; []; []; []; `"b  "]) Source.rust)
     = Source.filterMinimal (unlines [`"  // header"; `"a"; []; []; []; []; `"b  "]) Source.rust.
Proof.
  apply (@C5_newline_runs_capped
           (unlines [`"  // header"; `"a"; []; []; []; []; `"b  "]) Source.rust).
  discriminate.
Defined.

End MinimalFacts.

(** ** Source filter: aggressive level *)

Module AggressiveFacts.
Import RegexFacts StrFacts.



















End AggressiveFacts.

(** ** Smart truncator *)

Module TruncateFacts.
Import Truncation StrFacts.


Lemma markers_app es es' : markers (es ++ es') = markers es + markers es'.
Proof. unfold markers. rewrite filter_app, length_app. reflexivity. Qed.

Lemma estep_bounded total maxLines st l :
  bounded maxLines st -> bounded maxLines (estep total maxLines st l).
Proof.
  intros (S1 & S2). unfold bounded, estep.
  destruct (Source.isImportant l || (2 * Z.of_nat (ekept st) <? maxLines)%Z) eqn:Ed;
    cbn [eout ekept eskipped].
  - split; [discriminate|].
    destruct (eskipped st) eqn:Es.
    + specialize (S1 eq_refl). rewrite !markers_app.
      change (markers [Omitted (Z.of_nat total - Z.of_nat (length (eout st)) - Z.of_nat (ekept st))]) with 1.
      change (markers [Kept l]) with 0.
      right. destruct S2 as [S2 | S2]; [rewrite S2|]; lia.
    + rewrite markers_app. change (markers [Kept l]) with 0.
      destruct S2 as [S2 | S2]; [left | right]; lia.
  - apply orb_false_iff in Ed. destruct Ed as [_ El]. apply Z.ltb_ge in El.
    split; [intros _; exact El | exact S2].
Qed.


Lemma keptOf_app : forall es es', keptOf (es ++ es') = keptOf es ++ keptOf es'.
Proof.
  induction es as [|e es IH]; intros es'; simpl; auto.
  destruct e; simpl; rewrite IH; reflexivity.
Qed.

Lemma estep_facts total maxLines st l :
  let d := decide_keep maxLines st l in
  let st' := estep total maxLines st l in
  ekept st' = (if d then S (ekept st) else ekept st)
  /\ markers (eout st') = markers (eout st) + (if d && eskipped st then 1 else 0)
  /\ keptOf (eout st') = keptOf (eout st) ++ (if d then [l] else [])
  /\ eskipped st' = negb d.
Proof.
  unfold decide_keep, estep.
  destruct (Source.isImportant l || (2 * Z.of_nat (ekept st) <? maxLines)%Z);
    cbn [eout ekept eskipped andb negb].
  - destruct (eskipped st); rewrite ?markers_app, ?keptOf_app; unfold markers; simpl;
      rewrite ?app_nil_r; repeat split; auto; lia.
  - rewrite app_nil_r. repeat split; auto.
Qed.

Lemma ewalk_counts total maxLines : forall lines st,
  (Z.of_nat (ekept st) < maxLines - 1)%Z ->
  bounded maxLines st ->
  ekept (ewalk total maxLines lines st)
  = ekept st + length (filter (fun d => d) (decisions maxLines lines (ekept st)))
  /\ markers (eout (ewalk total maxLines lines st))
     = markers (eout st) + resumes (decisions maxLines lines (ekept st)) (eskipped st)
  /\ keptOf (eout (ewalk total maxLines lines st))
     = keptOf (eout st) ++ select (decisions maxLines lines (ekept st)) lines
  /\ (Z.of_nat (ekept (ewalk total maxLines lines st)) <= maxLines - 1)%Z
  /\ bounded maxLines (ewalk total maxLines lines st).
Proof.
  induction lines as [|l lines IH]; intros st Hk Hb.
  - simpl. rewrite !Nat.add_0_r, app_nil_r. repeat split; auto; try lia; apply Hb.
  - pose proof (estep_bounded total l Hb) as Hb'.
    destruct (estep_facts total maxLines st l) as (Ek & Em & Eo & Es).
    cbn zeta in *. cbn [ewalk decisions].
    fold (decide_keep maxLines st l). rewrite <- Ek.
    destruct (maxLines - 1 <=? Z.of_nat (ekept (estep total maxLines st l)))%Z eqn:Estop.
    + rewrite Em, Eo. rewrite Ek at 1 2.
      destruct (decide_keep maxLines st l) eqn:Ed; cbn [filter length resumes select andb].
      * destruct lines; cbn [select]; repeat split; auto; try lia;
          try (destruct (eskipped st); lia); apply Hb'.
      * destruct lines; cbn [select]; rewrite ?app_nil_r; repeat split; auto; try lia;
          apply Hb'.
    + apply Z.leb_gt in Estop.
      destruct (IH (estep total maxLines st l) Estop Hb') as (I1 & I2 & I3 & I4 & I5).
      rewrite I1, I2, I3, Em, Eo, Es. rewrite Ek at 1.
      destruct (decide_keep maxLines st l) eqn:Ed;
        cbn [filter length resumes select andb negb];
        rewrite <- ?app_assoc, ?app_nil_r; repeat split; auto; try lia;
        try (destruct (eskipped st); lia); apply I5.
Qed.

Lemma step_agree total maxLines st est l :
  agree st est ->
  agree (Source.tstep total maxLines st l) (estep total maxLines est l).
Proof.
  intros (A & B & C). unfold agree, Source.tstep, estep.
  rewrite A, B, C, length_map.
  destruct (Source.isImportant l || (2 * Z.of_nat (ekept est) <? maxLines)%Z);
    cbn [Source.out Source.keptLines Source.skippedSection eout ekept eskipped].
  - destruct (eskipped est); rewrite !map_app; simpl; auto.
  - auto.
Qed.

(** The loop of the source writes the rendering of the labelled entries. *)
Lemma walk_agree total maxLines : forall lines st est,
  agree st est ->
  agree (Source.walk total maxLines lines st) (ewalk total maxLines lines est).
Proof.
  induction lines as [|l lines IH]; intros st est H; simpl; auto.
  pose proof (step_agree total maxLines l H) as H'.
  destruct H' as (A & B & C). rewrite B.
  destruct (maxLines - 1 <=? Z.of_nat (ekept (estep total maxLines est l)))%Z;
    [repeat split; auto | apply IH; repeat split; auto].
Qed.

Lemma entries_length : forall es, length es = length (keptOf es) + markers es.
Proof.
  unfold markers. induction es as [|e es IH]; simpl; auto.
  destruct e; simpl; lia.
Qed.

Lemma select_In : forall ds lines l, In l (select ds lines) -> In l lines.
Proof.
  induction ds as [|d ds IH]; intros lines l H; [destruct lines; contradiction|].
  destruct lines as [|x lines]; [contradiction|]. simpl in H.
  destruct d; [destruct H as [<- | H]|]; simpl; auto.
Qed.

Lemma select_length : forall ds lines,
  length ds <= length lines ->
  length (select ds lines) = length (filter (fun d => d) ds).
Proof.
  induction ds as [|d ds IH]; intros lines H; [destruct lines; reflexivity|].
  destruct lines as [|x lines]; simpl in H; [lia|].
  simpl. destruct d; simpl; rewrite IH by lia; reflexivity.
Qed.

Lemma decisions_length maxLines : forall lines kept,
  length (decisions maxLines lines kept) <= length lines.
Proof.
  induction lines as [|l lines IH]; intros kept; simpl; auto.
  destruct (maxLines - 1 <=? _)%Z; simpl; [lia|]. apply le_n_S, IH.
Qed.

Lemma digits_no_NL : forall d, ~ In NL (uint_chars d).
Proof.
  induction d; simpl; try tauto; intros [H | H]; try contradiction; discriminate.
Qed.

Lemma Z_to_str_no_NL z : ~ In NL (Z_to_str z).
Proof.
  unfold Z_to_str, N_to_str. destruct z; try apply digits_no_NL.
  simpl. intros [H | H]; [discriminate|]. revert H. apply digits_no_NL.
Qed.

Lemma marker_no_NL n : ~ In NL (Source.omittedMarker n).
Proof.
  unfold Source.omittedMarker. intros H.
  apply in_app_or in H. destruct H as [H | H].
  - vm_compute in H. intuition discriminate.
  - apply in_app_or in H. destruct H as [H | H].
    + revert H. apply Z_to_str_no_NL.
    + vm_compute in H. intuition discriminate.
Qed.

Lemma summary_no_NL a b : ~ In NL (Source.summaryLine a b).
Proof.
  unfold Source.summaryLine. intros H.
  apply in_app_or in H. destruct H as [H | H].
  { vm_compute in H. intuition discriminate. }
  apply in_app_or in H. destruct H as [H | H].
  { revert H. apply Z_to_str_no_NL. }
  apply in_app_or in H. destruct H as [H | H].
  { vm_compute in H. intuition discriminate. }
  apply in_app_or in H. destruct H as [H | H].
  { revert H. apply Z_to_str_no_NL. }
  vm_compute in H. intuition discriminate.
Qed.

Lemma render_no_NL : forall es,
  (forall l, In l (keptOf es) -> ~ In NL l) ->
  Forall (fun l => ~ In NL l) (map render es).
Proof.
  induction es as [|e es IH]; intros H; simpl; constructor.
  - destruct e; simpl; [apply H; left; reflexivity | apply marker_no_NL].
  - apply IH. intros l Hl. apply H. destruct e; simpl; auto.
Qed.

(** C3, counterexample.  A 500-line input in which only declaration lines
    are kept gives, with a budget of 200 lines, an output of 299 lines. *)
Lemma C3_output_exceeds_budget :
  length (lines_of alternating) = 500
  /\ length (lines_of (Source.smartTruncate alternating 200 Source.rust)) = 299.
Proof. split; vm_compute; reflexivity. Qed.

(** C3, amended.  For every 500-line input and a 200-line budget,
    [smartTruncate] returns the kept input lines in order, at most 199 of
    them, with exactly one omitted-count marker line for each contiguous run
    of dropped lines that is followed by a kept line, and one trailing
    summary line giving the number of lines not kept and the original total
    of 500.  The output has one line per kept line, per marker and for the
    summary: at most 299 lines, not at most 200. *)
Theorem C3_truncate_500_200 (content : str) (language : Source.Language) :
  length (lines_of content) = 500 ->
  let lines := lines_of content in
  let st := ewalk 500 200 lines (mkE [] 0 false) in
  let ds := decisions 200 lines 0 in
  Source.smartTruncate content 200 language
  = unlines (map render (eout st)
             ++ [Source.summaryLine (500 - Z.of_nat (ekept st)) 500])
  /\ keptOf (eout st) = select ds lines
  /\ ekept st = length (select ds lines)
  /\ ekept st <= 199
  /\ markers (eout st) = resumes ds false
  /\ length (lines_of (Source.smartTruncate content 200 language))
     = ekept st + resumes ds false + 1
  /\ length (lines_of (Source.smartTruncate content 200 language)) <= 299.
Proof.
  intros Hlen lines st ds. change (length lines = 500) in Hlen.
  assert (B0 : bounded 200 (mkE [] 0 false)).
  { split; [discriminate | left; reflexivity]. }
  destruct (@ewalk_counts 500 200 lines (mkE [] 0 false) ltac:(simpl; lia) B0)
    as (K & M & O & L & B).
  fold st in K, M, O, L, B. cbn [ekept eout eskipped] in K, M, O. fold ds in K, M, O.
  simpl in K, M, O.
  assert (Ksel : ekept st = length (select ds lines)).
  { rewrite K. symmetry. apply select_length. apply decisions_length. }
  assert (K199 : ekept st <= 199) by lia.
  assert (A : agree (Source.walk 500 200 lines (Source.mkT [] 0 false)) st).
  { apply walk_agree. repeat split. }
  destruct A as (A1 & A2 & A3).
  assert (E : Source.smartTruncate content 200 language
              = unlines (map render (eout st)
                         ++ [Source.summaryLine (500 - Z.of_nat (ekept st)) 500])).
  { unfold Source.smartTruncate. fold lines. rewrite Hlen.
    change (Z.of_nat 500 <=? 200)%Z with false. cbv iota.
    rewrite A1, A2.
    assert (T : (ekept st <? 500) = true) by (apply Nat.ltb_lt; lia).
    rewrite T, orb_true_r. reflexivity. }
  assert (N : length (lines_of (Source.smartTruncate content 200 language))
              = ekept st + resumes ds false + 1).
  { rewrite E. unfold lines_of, unlines. rewrite split_join.
    - rewrite length_app, length_map, entries_length, O, <- Ksel, M. simpl. lia.
    - destruct (map render (eout st)); discriminate.
    - apply Forall_app. split.
      + apply render_no_NL. intros l Hl. rewrite O in Hl. apply select_In in Hl.
        pose proof (split_no_sep NL content) as F. rewrite Forall_forall in F.
        apply F. exact Hl.
      + constructor; [apply summary_no_NL | constructor]. }
  repeat split; auto.
  rewrite N, <- M. destruct B as [_ [B | B]]; lia.
Qed.

Lemma C3_truncate_500_200_witness :
  length (lines_of (Source.smartTruncate alternating 200 Source.go)) <= 299.
Proof.
  apply (@C3_truncate_500_200 alternating Source.go).
  vm_compute. reflexivity.
Defined.

End TruncateFacts.

(** ** Slices, and lines of joined text *)

Module SliceFacts.
Import StrFacts.

Lemma jsSlice_prefix (A : Type) (k : Z) (xs : list A) :
  (0 <= k)%Z -> jsSlice 0 k xs = firstn (Z.to_nat k) xs.
Proof.
  intros H. unfold jsSlice, clampIndex. simpl.
  destruct (k <? 0)%Z eqn:E; [apply Z.ltb_lt in E; lia|].
  rewrite Nat.sub_0_r.
  destruct (Nat.le_ge_cases (Z.to_nat k) (length xs)) as [L | L].
  - rewrite Nat.min_l by exact L. reflexivity.
  - rewrite Nat.min_r by exact L. rewrite !firstn_all2; auto.
Qed.

Lemma jsSliceFrom_suffix (A : Type) (k : Z) (xs : list A) :
  (0 < k)%Z -> jsSliceFrom (- k) xs = skipn (length xs - Z.to_nat k) xs.
Proof.
  intros H. unfold jsSliceFrom, clampIndex.
  destruct (- k <? 0)%Z eqn:E; [|apply Z.ltb_ge in E; lia].
  f_equal. lia.
Qed.

Lemma jsSliceFrom_zero (A : Type) (xs : list A) : jsSliceFrom 0 xs = xs.
Proof. reflexivity. Qed.

Lemma split_app_sep sep : forall x y,
  split sep (x ++ sep :: y) = split sep x ++ split sep y.
Proof.
  induction x as [|c x IH]; intros y; simpl.
  - unfold char_eqb at 1. rewrite N.eqb_refl. reflexivity.
  - destruct (char_eqb c sep); rewrite IH; [reflexivity|].
    destruct (split sep x) as [|l ls] eqn:E; [|reflexivity].
    exfalso. revert E. apply split_nonempty.
Qed.

(** The lines of joined entries are the lines of the entries. *)
Lemma lines_unlines : forall xs,
  xs <> [] -> lines_of (unlines xs) = flat_map lines_of xs.
Proof.
  unfold lines_of, unlines. induction xs as [|x xs IH]; intros H; [contradiction|].
  destruct xs as [|y xs].
  - simpl. rewrite app_nil_r. reflexivity.
  - change (join [NL] (x :: y :: xs)) with (x ++ NL :: join [NL] (y :: xs)).
    rewrite split_app_sep, IH by discriminate. reflexivity.
Qed.

Lemma lines_of_plain l : ~ In NL l -> lines_of l = [l].
Proof.
  intros H. unfold lines_of.
  pose proof (@split_join NL [l] ltac:(discriminate) ltac:(constructor; auto)) as E.
  exact E.
Qed.

Lemma flat_map_plain : forall xs,
  Forall (fun l => ~ In NL l) xs -> flat_map lines_of xs = xs.
Proof.
  induction xs as [|x xs IH]; intros H; simpl; auto.
  inversion H; subst. rewrite lines_of_plain, IH by assumption. reflexivity.
Qed.

Lemma firstn_In_list (A : Type) (x : A) : forall n xs, In x (firstn n xs) -> In x xs.
Proof.
  induction n as [|n IH]; intros xs H; [contradiction|].
  destruct xs; simpl in *; [contradiction|]. destruct H; auto.
Qed.

Lemma skipn_In_list (A : Type) (x : A) : forall n xs, In x (skipn n xs) -> In x xs.
Proof.
  induction n as [|n IH]; intros xs H; [exact H|].
  destruct xs; simpl in *; [contradiction|]. auto.
Qed.

End SliceFacts.

(** ** Length-based truncation *)

Module TruncateTextFacts.
Import Truncate SliceFacts StrFacts.

(** X1.  [truncate] returns a text within the limit unchanged; a longer
    text is cut to a prefix followed by three dots, exactly [maxLength]
    units long, when the limit is at least 3; below 3 the result is the
    three dots alone, which is longer than the limit. *)
Theorem X1_truncate_cases (text : str) (maxLength : Z) :
  ((Z.of_nat (length text) <= maxLength)%Z -> truncate text maxLength = text)
  /\ ((maxLength < Z.of_nat (length text))%Z -> (3 <= maxLength)%Z ->
      truncate text maxLength = firstn (Z.to_nat (maxLength - 3)) text ++ `"..."
      /\ Z.of_nat (length (truncate text maxLength)) = maxLength)
  /\ ((maxLength < Z.of_nat (length text))%Z -> (maxLength < 3)%Z ->
      truncate text maxLength = `"..."
      /\ (maxLength < Z.of_nat (length (truncate text maxLength)))%Z).
Proof.
  unfold truncate. repeat split.
  - intros H. apply Z.leb_le in H. rewrite H. reflexivity.
  - apply Z.leb_gt in H. rewrite H.
    destruct (maxLength <? 3)%Z eqn:E; [apply Z.ltb_lt in E; lia|].
    rewrite jsSlice_prefix by lia. reflexivity.
  - pose proof H as H'. apply Z.leb_gt in H. rewrite H.
    destruct (maxLength <? 3)%Z eqn:E; [apply Z.ltb_lt in E; lia|].
    rewrite jsSlice_prefix by lia. rewrite length_app, length_firstn.
    change (length `"...") with 3. lia.
  - apply Z.leb_gt in H. rewrite H. apply Z.ltb_lt in H0. rewrite H0. reflexivity.
  - apply Z.leb_gt in H. rewrite H. pose proof H0 as H1. apply Z.ltb_lt in H0.
    rewrite H0. simpl. lia.
Qed.

Lemma X1_truncate_cases_witness :
  truncate `"error: cannot find module" 10 = firstn (Z.to_nat (10 - 3)) `"error: cannot find module" ++ `"..."
  /\ Z.of_nat (length (truncate `"error: cannot find module" 10)) = 10%Z.
Proof.
  apply (proj1 (proj2 (X1_truncate_cases `"error: cannot find module" 10))).
  - vm_compute. reflexivity.
  - lia.
Defined.

Lemma framed_lines mid :
  ~ In NL mid -> lines_of ([NL] ++ mid ++ [NL]) = [[]; mid; []].
Proof.
  intros P. unfold lines_of.
  change ([NL] ++ mid ++ [NL]) with ([] ++ NL :: mid ++ NL :: []).
  rewrite split_app_sep, split_app_sep.
  pose proof (@lines_of_plain mid P) as E. unfold lines_of in E. rewrite E. reflexivity.
Qed.

Lemma omittedLine_lines n :
  lines_of (omittedLine n)
  = [[]; `"... " ++ Z_to_str n ++ `" lines omitted ..."; []].
Proof.
  unfold omittedLine.
  replace ([NL] ++ `"... " ++ Z_to_str n ++ `" lines omitted ..." ++ [NL])
    with ([NL] ++ (`"... " ++ Z_to_str n ++ `" lines omitted ...") ++ [NL])
    by (rewrite <- !app_assoc; reflexivity).
  apply framed_lines.
  intros H. apply in_app_or in H. destruct H as [H | H].
  - vm_compute in H. intuition discriminate.
  - apply in_app_or in H. destruct H as [H | H].
    + revert H. apply TruncateFacts.Z_to_str_no_NL.
    + vm_compute in H. intuition discriminate.
Qed.

(** X2.  For a text of more than [maxLines] lines and a limit of at least 2,
    [truncateLines] keeps the first and the last [maxLines / 2] lines with
    the omitted-count notice between them; the notice is surrounded by
    newlines, so the result has [2 * (maxLines / 2) + 3] lines, more than the
    limit.  With a limit of 0 or 1 nothing is dropped: the result is the
    notice followed by every line of the text. *)
Theorem X2_truncateLines_shape (text : str) (maxLines : Z) :
  (0 <= maxLines < Z.of_nat (length (lines_of text)))%Z ->
  let lines := lines_of text in
  let k := Z.to_nat (maxLines / 2) in
  let notice := omittedLine (Z.of_nat (length lines) - maxLines) in
  ((2 <= maxLines)%Z ->
   truncateLines text maxLines
   = unlines (firstn k lines ++ [notice] ++ skipn (length lines - k) lines)
   /\ length (lines_of (truncateLines text maxLines)) = 2 * k + 3)
  /\ ((maxLines < 2)%Z ->
      truncateLines text maxLines = unlines (notice :: lines)).
Proof.
  intros [H0 H1] lines k notice. unfold truncateLines. fold lines.
  change (maxLines < Z.of_nat (length lines))%Z in H1.
  assert (E : (Z.of_nat (length lines) <=? maxLines)%Z = false) by (apply Z.leb_gt; lia).
  rewrite E. fold notice. split.
  - intros H2.
    assert (Hk : (0 < maxLines / 2)%Z) by (apply Z.div_str_pos; lia).
    rewrite jsSlice_prefix by lia. rewrite jsSliceFrom_suffix by lia. fold k.
    split; [reflexivity|].
    assert (Hkn : k <= length lines).
    { unfold k. assert (maxLines / 2 <= maxLines)%Z by (apply Z.div_le_upper_bound; lia). lia. }
    assert (P : Forall (fun l => ~ In NL l) lines) by apply split_no_sep.
    rewrite Forall_forall in P.
    rewrite lines_unlines by (destruct (firstn k lines); discriminate).
    rewrite !flat_map_app. cbn [flat_map]. rewrite app_nil_r.
    unfold notice. rewrite omittedLine_lines.
    rewrite !flat_map_plain.
    + rewrite !length_app, length_firstn, length_skipn. simpl. lia.
    + apply Forall_forall. intros x Hx. apply P. eapply skipn_In_list; eauto.
    + apply Forall_forall. intros x Hx. apply P. eapply firstn_In_list; eauto.
  - intros H2. assert (Hk : (maxLines / 2 = 0)%Z) by (apply Z.div_small; lia).
    rewrite Hk. reflexivity.
Qed.

Lemma X2_truncateLines_shape_witness :
  truncateLines (unlines [`"l1"; `"l2"; `"l3"; `"l4"; `"l5"; `"l6"; `"l7"]) 4
  = unlines (firstn (Z.to_nat (4 / 2)) (lines_of (unlines [`"l1"; `"l2"; `"l3"; `"l4"; `"l5"; `"l6"; `"l7"]))
             ++ [omittedLine (Z.of_nat (length (lines_of (unlines [`"l1"; `"l2"; `"l3"; `"l4"; `"l5"; `"l6"; `"l7"]))) - 4)]
             ++ skipn (length (lines_of (unlines [`"l1"; `"l2"; `"l3"; `"l4"; `"l5"; `"l6"; `"l7"])) - Z.to_nat (4 / 2))
                  (lines_of (unlines [`"l1"; `"l2"; `"l3"; `"l4"; `"l5"; `"l6"; `"l7"])))
  /\ length (lines_of (truncateLines (unlines [`"l1"; `"l2"; `"l3"; `"l4"; `"l5"; `"l6"; `"l7"]) 4))
     = 2 * Z.to_nat (4 / 2) + 3.
Proof.
  apply (proj1 (@X2_truncateLines_shape
                  (unlines [`"l1"; `"l2"; `"l3"; `"l4"; `"l5"; `"l6"; `"l7"]) 4
                  ltac:(vm_compute; split; [discriminate | reflexivity]))).
  lia.
Defined.

End TruncateTextFacts.

(** ** Git compactor *)

Module GitFacts.
Import Git SliceFacts StrFacts.

Lemma logLine_short l : length (logLine l) <= 80.
Proof.
  unfold logLine. destruct (80 <? length l) eqn:E.
  - rewrite jsSlice_prefix by lia. rewrite length_app, length_firstn.
    change (length `"...") with 3. lia.
  - apply Nat.ltb_ge in E. exact E.
Qed.

Lemma logLine_plain l : ~ In NL l -> ~ In NL (logLine l).
Proof.
  unfold logLine. intros H. destruct (80 <? length l); [|exact H].
  rewrite jsSlice_prefix by lia. intros F. apply in_app_or in F. destruct F as [F | F].
  - apply H. eapply firstn_In_list; eauto.
  - vm_compute in F. intuition discriminate.
Qed.

Lemma moreCommits_plain n : ~ In NL (`"... and " ++ Z_to_str n ++ `" more commits").
Proof.
  intros H. apply in_app_or in H. destruct H as [H | H].
  - vm_compute in H. intuition discriminate.
  - apply in_app_or in H. destruct H as [H | H].
    + revert H. apply TruncateFacts.Z_to_str_no_NL.
    + vm_compute in H. intuition discriminate.
Qed.

(** X3.  For a limit of at least 0, the report of [compactLog] has at most
    [limit + 1] lines, and each of its first [limit] lines is at most 80
    units long. *)
Theorem X3_compactLog_bounds (output : str) (limit : Z) :
  (0 <= limit)%Z ->
  length (lines_of (compactLog output limit)) <= Z.to_nat limit + 1
  /\ Forall (fun l => length l <= 80)
            (firstn (Z.to_nat limit) (lines_of (compactLog output limit))).
Proof.
  intros H. unfold compactLog. rewrite jsSlice_prefix by exact H.
  set (lines := lines_of output).
  set (shown := map logLine (firstn (Z.to_nat limit) lines)).
  set (more := if (limit <? Z.of_nat (length lines))%Z
               then [`"... and " ++ Z_to_str (Z.of_nat (length lines) - limit)
                     ++ `" more commits"] else []).
  assert (Hlines : lines <> []) by apply split_nonempty.
  assert (Hne : shown ++ more <> []).
  { unfold shown, more. destruct (limit <? Z.of_nat (length lines))%Z eqn:E.
    - destruct (map logLine _); discriminate.
    - apply Z.ltb_ge in E. destruct lines as [|l0 ls]; [contradiction|].
      simpl in E. replace (Z.to_nat limit) with (S (Z.to_nat limit - 1)) by lia.
      discriminate. }
  assert (Hplain : Forall (fun l => ~ In NL l) (shown ++ more)).
  { apply Forall_app. split.
    - unfold shown. apply Forall_forall. intros x Hx. apply in_map_iff in Hx.
      destruct Hx as (l & <- & Hl). apply logLine_plain.
      pose proof (split_no_sep NL output) as P. rewrite Forall_forall in P.
      apply P. eapply firstn_In_list; eauto.
    - unfold more. destruct (limit <? _)%Z; constructor; auto. apply moreCommits_plain. }
  rewrite lines_unlines by exact Hne. rewrite flat_map_plain by exact Hplain.
  assert (Ls : length shown <= Z.to_nat limit).
  { unfold shown. rewrite length_map, length_firstn. lia. }
  split.
  - rewrite length_app. unfold more. destruct (limit <? _)%Z; simpl; lia.
  - rewrite firstn_app. apply Forall_app. split.
    + apply Forall_forall. intros x Hx. apply firstn_In_list in Hx.
      unfold shown in Hx. apply in_map_iff in Hx. destruct Hx as (l & <- & _).
      apply logLine_short.
    + unfold more. destruct (limit <? Z.of_nat (length lines))%Z eqn:E.
      * apply Z.ltb_lt in E.
        assert (Lf : length shown = Z.to_nat limit).
        { unfold shown. rewrite length_map, length_firstn. lia. }
        rewrite Lf, Nat.sub_diag. constructor.
      * rewrite firstn_nil. constructor.
Qed.

Lemma X3_compactLog_bounds_witness :
  length (lines_of (compactLog (unlines [`"a1 fix"; `"b2 add"; `"c3 docs"]) 2))
  <= Z.to_nat 2 + 1
  /\ Forall (fun l => length l <= 80)
       (firstn (Z.to_nat 2)
          (lines_of (compactLog (unlines [`"a1 fix"; `"b2 add"; `"c3 docs"]) 2))).
Proof.
  apply (@X3_compactLog_bounds (unlines [`"a1 fix"; `"b2 add"; `"c3 docs"]) 2).
  lia.
Defined.

Lemma map_logLine_id : forall ls,
  Forall (fun l => length l <= 80) ls -> map logLine ls = ls.
Proof.
  induction ls as [|l ls IH]; intros H; simpl; auto.
  inversion H; subst. rewrite IH by assumption. unfold logLine.
  assert (E : (80 <? length l) = false) by (apply Nat.ltb_ge; assumption).
  rewrite E. reflexivity.
Qed.

(** X4.  A log of at most [limit] lines, none longer than 80 units, is
    returned by [compactLog] exactly as it is. *)
Theorem X4_compactLog_identity (output : str) (limit : Z) :
  (Z.of_nat (length (lines_of output)) <= limit)%Z ->
  Forall (fun l => length l <= 80) (lines_of output) ->
  compactLog output limit = output.
Proof.
  intros H1 H2. unfold compactLog.
  rewrite jsSlice_prefix by lia. rewrite firstn_all2 by lia.
  rewrite map_logLine_id by exact H2.
  assert (E : (limit <? Z.of_nat (length (lines_of output)))%Z = false)
    by (apply Z.ltb_ge; exact H1).
  rewrite E, app_nil_r. apply join_split.
Qed.

Lemma X4_compactLog_identity_witness :
  compactLog (unlines [`"a1b2c3d fix the scanner"; `"e4f5a6b add tests"]) 20
  = unlines [`"a1b2c3d fix the scanner"; `"e4f5a6b add tests"].
Proof.
  apply X4_compactLog_identity.
  - vm_compute. discriminate.
  - vm_compute. repeat constructor.
Defined.

(** X5.  [compactStatus] answers "Clean working tree" exactly when its input
    is a single blank line (no newline, only white space); an input such as
    one newline, which splits into two empty lines, gets a "Branch:" report
    instead. *)
Theorem X5_compactStatus_clean_iff (output : str) :
  compactStatus output = CLEAN
  <-> (~ In NL output /\ forallb is_space output = true).
Proof.
  unfold compactStatus. set (lines := lines_of output).
  assert (Hne : lines <> []) by apply split_nonempty.
  destruct lines as [|l0 ls] eqn:El; [contradiction|].
  cbn [length Nat.eqb orb nth].
  assert (Hone : ls = [] -> output = l0).
  { intros ->. rewrite <- (join_split NL output). fold (lines_of output).
    fold lines. rewrite El. reflexivity. }
  destruct ls as [|l1 ls].
  - cbn [length Nat.eqb andb]. specialize (Hone eq_refl). subst l0.
    assert (Hnl : ~ In NL output).
    { pose proof (split_no_sep NL output) as P. fold (lines_of output) in P.
      fold lines in P. rewrite El in P. inversion P; auto. }
    destruct (str_eqb (trim output) []) eqn:E.
    + apply str_eqb_eq, trim_nil_iff in E. tauto.
    + split.
      * intros C. exfalso.
        match type of C with trim ?x = _ =>
          assert (T : exists t, trim x = ch "B" :: t)
        end.
        { eexists. apply trim_cons. reflexivity. }
        destruct T as (t & T). rewrite T in C. discriminate.
      * intros [_ B]. apply trim_nil_iff in B. apply str_eqb_neq in E. contradiction.
  - cbn [length Nat.eqb andb]. split.
    + intros C. exfalso.
      match type of C with trim ?x = _ =>
        assert (T : exists t, trim x = ch "B" :: t)
      end.
      { eexists. apply trim_cons. reflexivity. }
      destruct T as (t & T). rewrite T in C. discriminate.
    + intros [Hnl _]. exfalso.
      assert (L : lines_of output = [output]) by (apply lines_of_plain; exact Hnl).
      fold lines in L. rewrite El in L. discriminate.
Qed.


Lemma dstep_quiet st l : inHunk st = false -> GitShapes.quietLine l -> dstep st l = st.
Proof. intros H [A B]. unfold dstep. rewrite A, B, H. reflexivity. Qed.

Lemma dwalk_quiet maxLines : forall lines,
  (1 <= maxLines)%Z -> Forall GitShapes.quietLine lines -> dwalk maxLines lines dinit = dinit.
Proof.
  induction lines as [|l lines IH]; intros H Q; simpl; auto.
  inversion Q; subst.
  assert (E : (maxLines <=? 0)%Z = false) by (apply Z.leb_gt; lia).
  rewrite E. rewrite dstep_quiet by (auto; reflexivity). apply IH; assumption.
Qed.

(** X6.  A text in which no line starts with "diff --git" or "@@" is
    compacted by [compactDiff] to the empty string, for any budget of at
    least 1; with a budget of 0 or less the report is only the truncation
    notice, whatever the text. *)
Theorem X6_compactDiff_edges (output : str) (maxLines : Z) :
  ((1 <= maxLines)%Z -> Forall GitShapes.quietLine (lines_of output) ->
   compactDiff output maxLines = [])
  /\ ((maxLines <= 0)%Z -> compactDiff output maxLines = TRUNCATED).
Proof.
  unfold compactDiff. split.
  - intros H Q. rewrite dwalk_quiet by assumption. reflexivity.
  - intros H. destruct (lines_of output) as [|l ls] eqn:E.
    + exfalso. revert E. apply split_nonempty.
    + simpl. assert (E0 : (maxLines <=? 0)%Z = true) by (apply Z.leb_le; lia).
      rewrite E0. reflexivity.
Qed.

Lemma X6_compactDiff_edges_witness :
  compactDiff (unlines [`"Binary files a/logo.png and b/logo.png differ"; `"+ stray"]) 50 = [].
Proof.
  apply (proj1 (X6_compactDiff_edges
    (unlines [`"Binary files a/logo.png and b/logo.png differ"; `"+ stray"]) 50)).
  - lia.
  - vm_compute. repeat constructor.
Defined.

Lemma flushStats_grows st : length (flushStats st) <= length (result st) + 1.
Proof.
  unfold flushStats. destruct (hasStats st); rewrite ?length_app; simpl; lia.
Qed.

Lemma showLine_grows st l a r :
  length (result (showLine st l a r)) <= length (result st) + 1.
Proof.
  unfold showLine. destruct (hunkLines st <? maxHunkLines); simpl;
    rewrite ?length_app; simpl; lia.
Qed.

Lemma capHunk_grows st : length (result (capHunk st)) <= length (result st) + 1.
Proof.
  unfold capHunk. destruct (hunkLines st =? maxHunkLines); simpl;
    rewrite ?length_app; simpl; lia.
Qed.

(** One line adds at most two entries to the report. *)
Lemma dstep_grows st l : length (result (dstep st l)) <= length (result st) + 2.
Proof.
  unfold dstep.
  destruct (startsWith `"diff --git" l).
  { cbn [result]. rewrite length_app. pose proof (flushStats_grows st). simpl. lia. }
  destruct (startsWith `"@@" l).
  { cbn [result]. rewrite length_app. simpl. lia. }
  destruct (inHunk st); [|lia].
  match goal with |- length (result (capHunk ?x)) <= _ =>
    pose proof (capHunk_grows x) as C;
    assert (S1 : length (result x) <= length (result st) + 1)
  end.
  { destruct (startsWith `"+" l && negb (startsWith `"+++" l));
      [apply showLine_grows|].
    destruct (startsWith `"-" l && negb (startsWith `"---" l));
      [apply showLine_grows|].
    destruct ((hunkLines st <? maxHunkLines) && negb (startsWith `"\" l)); [|lia].
    destruct (0 <? hunkLines st); [apply showLine_grows | lia]. }
  lia.
Qed.

Lemma dwalk_bound maxLines : forall lines st,
  (0 <= maxLines)%Z ->
  length (result st) <= Z.to_nat maxLines + 1 ->
  length (result (dwalk maxLines lines st)) <= Z.to_nat maxLines + 2.
Proof.
  induction lines as [|l lines IH]; intros st H B; simpl; [lia|].
  destruct (maxLines <=? Z.of_nat (length (result st)))%Z eqn:E.
  - cbn [result]. rewrite length_app. simpl. lia.
  - apply Z.leb_gt in E. apply IH; [exact H|].
    pose proof (dstep_grows st l). lia.
Qed.

(** X7.  Whatever the size of the diff, the report of [compactDiff] is made
    of at most [maxLines + 3] entries (file headers, hunk headers, change
    lines and notices), for a budget of at least 0. *)
Theorem X7_compactDiff_budget (output : str) (maxLines : Z) :
  (0 <= maxLines)%Z ->
  compactDiff output maxLines
  = unlines (flushStats (dwalk maxLines (lines_of output) dinit))
  /\ length (flushStats (dwalk maxLines (lines_of output) dinit))
     <= Z.to_nat maxLines + 3.
Proof.
  intros H. split; [reflexivity|].
  pose proof (flushStats_grows (dwalk maxLines (lines_of output) dinit)) as F.
  pose proof (@dwalk_bound maxLines (lines_of output) dinit H ltac:(simpl; lia)) as B.
  lia.
Qed.

Lemma X7_compactDiff_budget_witness :
  compactDiff (unlines [`"diff --git a/x b/x"; `"@@ -1 +1 @@"; `"+a"; `"+b"; `"+c"]) 2
  = unlines (flushStats (dwalk 2
      (lines_of (unlines [`"diff --git a/x b/x"; `"@@ -1 +1 @@"; `"+a"; `"+b"; `"+c"])) dinit))
  /\ length (flushStats (dwalk 2
        (lines_of (unlines [`"diff --git a/x b/x"; `"@@ -1 +1 @@"; `"+a"; `"+b"; `"+c"])) dinit))
     <= Z.to_nat 2 + 3.
Proof.
  apply (@X7_compactDiff_budget
           (unlines [`"diff --git a/x b/x"; `"@@ -1 +1 @@"; `"+a"; `"+b"; `"+c"]) 2).
  lia.
Defined.

Lemma startsWith_app p t : startsWith p (p ++ t) = true.
Proof. apply startsWith_iff. eauto. Qed.

(** X8.  [compactGitOutput] gives a report exactly for the non-empty
    commands whose lower-cased text starts with "git diff", "git status" or
    "git log"; a command that starts with "git show" or "git stash" is
    accepted by [isGitCommand] and still gets null. *)
Theorem X8_git_dispatch (toLowerCase : str -> str) (output command : str) :
  (compactGitOutput toLowerCase output (Some command) <> None
   <-> command <> []
       /\ (startsWith `"git diff" (toLowerCase command) = true
           \/ startsWith `"git status" (toLowerCase command) = true
           \/ startsWith `"git log" (toLowerCase command) = true))
  /\ (command <> [] ->
      startsWith `"git show" (toLowerCase command) = true
      \/ startsWith `"git stash" (toLowerCase command) = true ->
      isGitCommand toLowerCase (Some command) = true
      /\ compactGitOutput toLowerCase output (Some command) = None).
Proof.
  unfold compactGitOutput, isGitCommand, GIT_COMMANDS.
  destruct command as [|c0 command].
  { simpl. split; [split; [intros H; contradiction | intros [H _]; contradiction]
                  | intros H; contradiction]. }
  change (length (c0 :: command) =? 0) with false. cbv iota.
  set (s := toLowerCase (c0 :: command)). cbn [existsb].
  split.
  - destruct (startsWith `"git diff" s) eqn:D; cbn [orb negb].
    { split; [intros _; split; [discriminate | auto] | discriminate]. }
    destruct (startsWith `"git status" s) eqn:S; cbn [orb negb].
    { split; [intros _; split; [discriminate | auto] | discriminate]. }
    destruct (startsWith `"git log" s) eqn:L; cbn [orb negb].
    { split; [intros _; split; [discriminate | auto] | discriminate]. }
    split.
    + intros H. exfalso. apply H.
      destruct (startsWith `"git show" s || (startsWith `"git stash" s || false));
        reflexivity.
    + intros [_ [H | [H | H]]]; discriminate.
  - intros _ H.
    assert (E : exists t, s = `"git show" ++ t \/ s = `"git stash" ++ t).
    { destruct H as [H | H]; apply startsWith_iff in H; destruct H as (t & H); eauto. }
    destruct E as (t & [E | E]); rewrite E; split; reflexivity.
Qed.

Lemma X8_git_dispatch_witness :
  isGitCommand ascii_toLowerCase (Some `"git stash list") = true
  /\ compactGitOutput ascii_toLowerCase `"stash@{0}: WIP on main" (Some `"git stash list") = None.
Proof.
  apply (proj2 (X8_git_dispatch ascii_toLowerCase `"stash@{0}: WIP on main" `"git stash list")).
  - discriminate.
  - right. vm_compute. reflexivity.
Defined.

End GitFacts.

(** ** ANSI stripper: fast path, length, well-formed sequences *)

Module AnsiMoreFacts.
Import Ansi RegexFacts StrFacts.

Lemma indexOf_from_absent c : forall s i,
  ~ In c s -> indexOf_from [c] s i = (-1)%Z.
Proof.
  induction s as [|x s IH]; intros i H; simpl; auto.
  destruct (char_eqb c x) eqn:E.
  - apply char_eqb_eq in E. subst. exfalso. apply H. left. reflexivity.
  - simpl. apply IH. intros F. apply H. right. exact F.
Qed.

Lemma indexOf_from_present c : forall s i,
  (0 <= i)%Z -> In c s -> (0 <= indexOf_from [c] s i)%Z.
Proof.
  induction s as [|x s IH]; intros i Hi H; [contradiction|]. simpl.
  destruct (char_eqb c x) eqn:E; simpl; [exact Hi|].
  apply IH; [lia|]. destruct H as [H | H]; [|exact H].
  subst. apply char_eqb_neq in E. contradiction.
Qed.

Lemma includes_one c s : includes [c] s = true <-> In c s.
Proof.
  unfold includes, indexOf. split.
  - intros H. apply Z.leb_le in H.
    destruct (in_dec N.eq_dec c s) as [I | I]; [exact I|].
    rewrite indexOf_from_absent in H by exact I. lia.
  - intros H. apply Z.leb_le. apply indexOf_from_present; [lia | exact H].
Qed.

(** X9.  The fast path of [stripAnsiFast] never changes the answer: it
    returns what [stripAnsi] returns on every text. *)
Theorem X9_fast_path_agrees (text : str) : stripAnsiFast text = stripAnsi text.
Proof.
  unfold stripAnsiFast. destruct (includes [ESC] text) eqn:E; [reflexivity|].
  simpl. symmetry. apply AnsiFacts.stripAnsi_clean.
  intros H. apply includes_one in H. congruence.
Qed.

Lemma replace_empty_shrinks r : forall aft bef skip,
  length (replace_from r [] bef aft skip) <= length aft.
Proof.
  induction aft as [|c aft IH]; intros bef skip.
  - destruct skip; cbn [replace_from]; [|simpl; lia].
    destruct (match_at r (mkPos bef [])) as [[p' cs]|]; simpl; [|lia].
    destruct (length (after p')); simpl; lia.
  - destruct skip; cbn [replace_from].
    + destruct (match_at r (mkPos bef (c :: aft))) as [[p' cs]|].
      * destruct (length (c :: aft) - length (after p')); simpl;
          match goal with |- context [replace_from r [] ?b aft ?k] =>
            pose proof (IH b k) end; lia.
      * simpl. pose proof (IH (c :: bef) 0). lia.
    + simpl. pose proof (IH (c :: bef) skip). lia.
Qed.

(** X10.  [stripAnsi] never makes a text longer. *)
Theorem X10_strip_never_longer (text : str) : length (stripAnsi text) <= length text.
Proof.
  unfold stripAnsi, replaceAll.
  pose proof (replace_empty_shrinks csi_re text [] 0) as A.
  pose proof (replace_empty_shrinks osc_re (replace_from csi_re [] [] text 0) [] 0) as B.
  pose proof (replace_empty_shrinks other_re
                (replace_from osc_re [] [] (replace_from csi_re [] [] text 0) 0) [] 0) as C.
  lia.
Qed.

Lemma replace_copies_clean r rep : forall t1 rest bef,
  ~ In ESC t1 ->
  exists bef',
    replace_from (Seq (One ESC) r) rep bef (t1 ++ rest) 0
    = t1 ++ replace_from (Seq (One ESC) r) rep bef' rest 0.
Proof.
  induction t1 as [|c t1 IH]; intros rest bef H.
  - exists bef. reflexivity.
  - simpl app. cbn [replace_from].
    rewrite AnsiFacts.esc_first_fails by (intros E; apply H; left; auto).
    destruct (IH rest (c :: bef)) as (b' & E); [intros F; apply H; right; exact F|].
    exists b'. rewrite E. reflexivity.
Qed.

(** A greedy star over a class hands the end of the longest run to its
    continuation first. *)
Lemma star_greedy_longest f (k : cont) cs x : forall w bef rest n,
  forallb f w = true ->
  match rest with c :: _ => f c = false | [] => True end ->
  length (w ++ rest) < n ->
  k (mkPos (rev w ++ bef) rest) cs = Some x ->
  star_loop (m (Chr f)) true k n (mkPos bef (w ++ rest)) cs = Some x.
Proof.
  set (ma := m (Chr f)).
  assert (Hma : forall p cs k,
    ma p cs k = match after p with
                | [] => None
                | c :: rest =>
                    if f c then k (mkPos (c :: before p) rest) cs else None
                end) by reflexivity.
  clearbody ma.
  induction w as [|c w IH]; intros bef rest n Hw Hr Hn Hk.
  - destruct n; [simpl in Hn; lia|]. cbn [star_loop app]. rewrite Hma. cbn [after].
    destruct rest as [|c rest]; [exact Hk|]. rewrite Hr. exact Hk.
  - destruct n; [simpl in Hn; lia|]. simpl in Hw. apply andb_true_iff in Hw.
    destruct Hw as [Hc Hw]. cbn [star_loop app]. rewrite Hma. cbn [after before].
    rewrite Hc. cbn [after length].
    assert (L : (length (w ++ rest) <? S (length (w ++ rest))) = true)
      by (apply Nat.ltb_lt; lia).
    rewrite L. rewrite (IH (c :: bef) rest n Hw Hr).
    + reflexivity.
    + simpl in Hn. lia.
    + simpl in Hk. rewrite <- app_assoc in Hk. exact Hk.
Qed.

Lemma alpha_not_param l : is_alpha l = true -> params l = false.
Proof.
  unfold is_alpha, is_upper, is_lower, params, is_digit, char_eqb, ch. simpl N_of_ascii.
  intros H. apply orb_true_iff in H.
  apply orb_false_iff. split; [apply andb_false_iff | apply N.eqb_neq];
    destruct H as [H | H]; apply andb_true_iff in H; destruct H as [H1 H2];
    apply N.leb_le in H1; apply N.leb_le in H2;
    try (right; apply N.leb_gt; lia); try lia.
Qed.

Lemma csi_matches bef p l t2 :
  forallb params p = true -> is_alpha l = true ->
  exists bef',
    match_at csi_re (mkPos bef ([ESC; ch "["] ++ p ++ [l] ++ t2))
    = Some (mkPos bef' t2, []).
Proof.
  intros Hp Hl. unfold match_at, csi_re, One. cbn [Seqs m after before app].
  change (char_eqb ESC ESC) with true. cbv iota. cbn [after before].
  change (char_eqb (ch "[") (ch "[")) with true. cbv iota. cbn [after before].
  eexists. apply star_greedy_longest.
  - exact Hp.
  - simpl. apply alpha_not_param. exact Hl.
  - lia.
  - cbn [m after before app]. rewrite Hl. reflexivity.
Qed.

(** X11.  A well-formed colour sequence (ESC, "[", digits and semicolons,
    one letter) standing between two texts without ESC is removed by
    [stripAnsi], and the two texts are kept as they are. *)
Theorem X11_csi_removed (t1 t2 p : str) (l : char) :
  ~ In ESC t1 -> ~ In ESC t2 ->
  forallb params p = true -> is_alpha l = true ->
  stripAnsi (t1 ++ [ESC; ch "["] ++ p ++ [l] ++ t2) = t1 ++ t2.
Proof.
  intros H1 H2 Hp Hl.
  assert (Hclean : ~ In ESC (t1 ++ t2)).
  { intros F. apply in_app_or in F. tauto. }
  assert (E : replaceAll csi_re [] (t1 ++ [ESC; ch "["] ++ p ++ [l] ++ t2) = t1 ++ t2).
  { unfold replaceAll, csi_re. cbn [Seqs].
    destruct (@replace_copies_clean
                (Seq (One (ch "[")) (Seq (Star true (Chr params)) (Chr is_alpha)))
                [] t1 ([ESC; ch "["] ++ p ++ [l] ++ t2) [] H1) as (b1 & E1).
    rewrite E1. f_equal.
    destruct (@csi_matches b1 p l t2 Hp Hl) as (b2 & M).
    unfold csi_re in M. cbn [Seqs] in M.
    cbn [app replace_from]. cbn [app] in M. rewrite M. cbn [after].
    assert (Hlen : length (ESC :: ch "[" :: p ++ l :: t2) - length t2
                   = S (S (length p + 1))).
    { cbn [length]. rewrite length_app. cbn [length]. lia. }
    rewrite Hlen.
    cbn [app replace_from].
    destruct (@MinimalFacts.replace_skip
                (Seq (One ESC) (Seq (One (ch "[")) (Seq (Star true (Chr params)) (Chr is_alpha))))
                [] (length p + 1) (p ++ l :: t2) (ch "[" :: ESC :: b1)) as (b3 & S3).
    { rewrite length_app. simpl. lia. }
    rewrite S3.
    replace (skipn (length p + 1) (p ++ l :: t2)) with t2.
    - apply AnsiFacts.replace_no_esc. exact H2.
    - replace (p ++ l :: t2) with ((p ++ [l]) ++ t2) by (rewrite <- app_assoc; reflexivity).
      replace (length p + 1) with (length (p ++ [l])) by (rewrite length_app; simpl; lia).
      symmetry. apply skipn_app_exact. }
  unfold stripAnsi. rewrite E.
  unfold replaceAll, osc_re, other_re. cbn [Seqs].
  rewrite (AnsiFacts.replace_no_esc _ [] (t1 ++ t2) [] Hclean).
  apply AnsiFacts.replace_no_esc. exact Hclean.
Qed.

Lemma X11_csi_removed_witness :
  stripAnsi (`"warning" ++ [ESC; ch "["] ++ `"1;33" ++ [ch "m"] ++ `": unused") = `"warning" ++ `": unused".
Proof.
  apply X11_csi_removed.
  - vm_compute. intuition discriminate.
  - vm_compute. intuition discriminate.
  - reflexivity.
  - reflexivity.
Defined.

End AnsiMoreFacts.

(** ** Lines without a newline *)

Module LineFacts.
Import Lines StrFacts SliceFacts.

Lemma nat_to_str_plain n : plain (nat_to_str n).
Proof. unfold plain, nat_to_str, N_to_str. apply TruncateFacts.digits_no_NL. Qed.

Lemma plain_app a b : plain a -> plain b -> plain (a ++ b).
Proof. unfold plain. intros A B F. apply in_app_or in F. tauto. Qed.

Lemma Z_to_str_plain z : plain (Z_to_str z).
Proof. apply TruncateFacts.Z_to_str_no_NL. Qed.

Lemma flat_map_size (A B : Type) (f : A -> list B) k : forall xs,
  (forall x, length (f x) <= k) -> length (flat_map f xs) <= k * length xs.
Proof.
  induction xs as [|x xs IH]; intros H; simpl; [lia|].
  rewrite length_app. specialize (IH H). specialize (H x). lia.
Qed.

Lemma flat_map_Forall (A B : Type) (P : A -> Prop) (Q : B -> Prop) (f : A -> list B) :
  forall xs, (forall x, P x -> Forall Q (f x)) -> Forall P xs -> Forall Q (flat_map f xs).
Proof.
  induction xs as [|x xs IH]; intros H F; simpl; [constructor|].
  inversion F; subst. apply Forall_app. split; auto.
Qed.

Lemma firstn_Forall (A : Type) (P : A -> Prop) n : forall xs,
  Forall P xs -> Forall P (firstn n xs).
Proof.
  intros xs H. apply Forall_forall. intros x Hx. rewrite Forall_forall in H.
  apply H. eapply firstn_In_list; eauto.
Qed.

Ltac solve_plain :=
  repeat first
    [ assumption
    | apply plain_app
    | apply nat_to_str_plain
    | apply Z_to_str_plain
    | solve [unfold plain; vm_compute; intuition discriminate] ].

End LineFacts.

(** ** Build aggregator: classification and size of the report *)

Module BuildMoreFacts.
Import Build Blocks Lines StrFacts SliceFacts LineFacts.

Lemma indexOf_from_found p : forall s i,
  (0 <= i)%Z ->
  ((0 <= indexOf_from p s i)%Z <-> exists pre post, s = pre ++ p ++ post).
Proof.
  induction s as [|x s IH]; intros i Hi; cbn [indexOf_from].
  - destruct (startsWith p []) eqn:E.
    + split; [|intros _; exact Hi]. intros _. apply startsWith_iff in E.
      destruct E as (t & Et). exists [], t. exact Et.
    + split; [lia|]. intros (pre & post & Es). exfalso.
      destruct pre; [|discriminate]. simpl in Es.
      assert (S : startsWith p [] = true) by (apply startsWith_iff; eauto).
      congruence.
  - destruct (startsWith p (x :: s)) eqn:E.
    + split; [|intros _; exact Hi]. intros _. apply startsWith_iff in E.
      destruct E as (t & Et). exists [], t. exact Et.
    + rewrite IH by lia. split.
      * intros (pre & post & Es). exists (x :: pre), post. rewrite Es. reflexivity.
      * intros (pre & post & Es). destruct pre as [|y pre].
        -- exfalso. simpl in Es.
           assert (S : startsWith p (x :: s) = true) by (apply startsWith_iff; eauto).
           congruence.
        -- inversion Es; subst. eauto.
Qed.

Lemma includes_iff p s : includes p s = true <-> exists pre post, s = pre ++ p ++ post.
Proof.
  unfold includes, indexOf. rewrite Z.leb_le. apply indexOf_from_found. lia.
Qed.

(** X12.  [isBuildCommand] holds exactly for the non-empty commands whose
    lower-cased text contains a build-tool name anywhere, also inside a
    longer word; and [filterBuildOutput] returns null exactly for the other
    commands. *)
Theorem X12_build_substring (toLowerCase : str -> str) (output command : str) :
  (isBuildCommand toLowerCase (Some command) = true
   <-> command <> []
       /\ exists bc pre post,
            In bc BUILD_COMMANDS /\ toLowerCase command = pre ++ bc ++ post)
  /\ (filterBuildOutput toLowerCase output (Some command) = None
      <-> isBuildCommand toLowerCase (Some command) = false).
Proof.
  split.
  - unfold isBuildCommand. destruct command as [|c0 command].
    + simpl. split; [discriminate | intros [H _]; contradiction].
    + change (length (c0 :: command) =? 0) with false. cbv iota.
      rewrite existsb_exists. split.
      * intros (bc & Hin & Hi). apply includes_iff in Hi.
        destruct Hi as (pre & post & E). split; [discriminate|]. eauto 6.
      * intros (_ & bc & pre & post & Hin & E). exists bc. split; [exact Hin|].
        apply includes_iff. eauto.
  - unfold filterBuildOutput.
    destruct (isBuildCommand toLowerCase (Some command)); simpl;
      split; intros H; congruence.
Qed.

Lemma step_plain st l :
  plain l ->
  Forall (Forall plain) (buildBlocks st) ->
  Forall (Forall plain) (buildBlocks (step st l)).
Proof.
  intros Hl Hb. unfold step.
  destruct (isUnitStart l); [exact Hb|].
  destruct (isSkipLine l); [exact Hb|].
  destruct st as [[cmp errs warns] inblk cur bc]; unfold buildBlocks in *; simpl in *.
  destruct (isErrorStart l); simpl.
  { apply Forall_app. split; [|repeat constructor; exact Hl].
    destruct inblk; simpl in *.
    - destruct (0 <? length cur); [exact Hb|].
      apply Forall_app in Hb. apply Hb.
    - rewrite app_nil_r in Hb. exact Hb. }
  destruct (isWarning l); [exact Hb|].
  destruct inblk; [|exact Hb].
  apply Forall_app in Hb. destruct Hb as [H1 H2]. inversion H2 as [|? ? Hc _]; subst.
  assert (Hext : Forall (Forall plain) (errs ++ [cur ++ [l]])).
  { apply Forall_app. split; [exact H1|]. constructor; [|constructor].
    apply Forall_app. split; [exact Hc | repeat constructor; exact Hl]. }
  assert (Hflush : Forall (Forall plain) ((errs ++ [cur]) ++ [])).
  { rewrite app_nil_r. apply Forall_app. split; [exact H1 | constructor; auto]. }
  destruct (str_eqb (trim l) []); simpl.
  - destruct ((match bc with 0 => false | S _ => true end) && (3 <? length cur));
      simpl; auto.
  - destruct (test lead_space_re l || test arrow_re l); simpl; auto.
Qed.

Lemma scan_plain : forall lines st,
  Forall plain lines ->
  Forall (Forall plain) (buildBlocks st) ->
  Forall (Forall plain) (buildBlocks (fold_left step lines st)).
Proof.
  induction lines as [|l lines IH]; intros st Hl Hb; simpl; auto.
  inversion Hl; subst. apply IH; [assumption|]. apply step_plain; assumption.
Qed.

Lemma formatError_size e : length (formatError e) <= 11.
Proof.
  unfold formatError. rewrite length_app, length_firstn.
  destruct (10 <? length e); cbn [length]; lia.
Qed.

Lemma formatError_plain e : Forall plain e -> Forall plain (formatError e).
Proof.
  intros H. unfold formatError. apply Forall_app. split.
  - apply Forall_forall. intros x Hx. rewrite Forall_forall in H.
    apply H. eapply firstn_In_list; eauto.
  - destruct (10 <? length e); repeat constructor.
    unfold plain. vm_compute. intuition discriminate.
Qed.

Lemma build_format_size s :
  Forall (Forall plain) (errors s) -> length (lines_of (format s)) <= 59.
Proof.
  intros Hp. unfold format.
  destruct ((length (errors s) =? 0) && (length (warnings s) =? 0)) eqn:E.
  - rewrite lines_of_plain; [simpl; lia|].
    apply plain_app; [unfold plain; vm_compute; intuition discriminate|].
    apply plain_app; [apply nat_to_str_plain|].
    unfold plain; vm_compute; intuition discriminate.
  - set (errs := if 0 <? length (errors s) then _ else []).
    set (warns := if 0 <? length (warnings s) then _ else []).
    assert (Hne : errs ++ warns <> []).
    { unfold errs, warns. destruct (length (errors s)); simpl; [|discriminate].
      destruct (length (warnings s)); simpl in *; discriminate. }
    rewrite lines_unlines by exact Hne. rewrite flat_map_app, length_app.
    assert (He : length (flat_map lines_of errs) <= 57).
    { assert (Pe : Forall plain errs).
      { unfold errs. destruct (0 <? length (errors s)); [|constructor].
        apply Forall_app. split.
        - repeat constructor.
          apply plain_app; [unfold plain; vm_compute; intuition discriminate|].
          apply plain_app; [apply nat_to_str_plain|].
          unfold plain; vm_compute; intuition discriminate.
        - apply Forall_app. split.
          + apply flat_map_Forall with (P := Forall plain);
              [apply formatError_plain | apply firstn_Forall; exact Hp].
          + destruct (5 <? length (errors s)); repeat constructor.
            apply plain_app; [unfold plain; vm_compute; intuition discriminate|].
            apply plain_app; [apply nat_to_str_plain|].
            unfold plain; vm_compute; intuition discriminate. }
      rewrite flat_map_plain by exact Pe.
      unfold errs. destruct (0 <? length (errors s)); [|simpl; lia].
      rewrite !length_app.
      pose proof (@flat_map_size _ _ formatError 11 (firstn 5 (errors s))
                    formatError_size) as F.
      rewrite length_firstn in F.
      destruct (5 <? length (errors s)); cbn [length]; lia. }
    assert (Hw : length (flat_map lines_of warns) <= 2).
    { unfold warns. destruct (0 <? length (warnings s)); [|simpl; lia].
      cbn [flat_map]. rewrite app_nil_r.
      match goal with |- length (lines_of (NL :: ?w)) <= 2 =>
        assert (Pw : plain w)
      end.
      { apply plain_app; [unfold plain; vm_compute; intuition discriminate|].
        apply plain_app; [apply nat_to_str_plain|].
        unfold plain; vm_compute; intuition discriminate. }
      unfold lines_of. cbn [split]. change (char_eqb NL NL) with true. cbv iota.
      pose proof (@lines_of_plain _ Pw) as L. unfold lines_of in L. rewrite L.
      cbn [length]. lia. }
    exact (Nat.add_le_mono _ 57 _ 2 He Hw).
Qed.

Lemma scanLines_plain lines :
  Forall plain lines -> Forall (Forall plain) (errors (scanLines lines)).
Proof.
  intros H. unfold scanLines.
  destruct (BlockFacts.build_scan_blocks lines) as [_ B].
  rewrite (BlockFacts.build_finish_blocks _ B).
  apply scan_plain; [exact H | constructor].
Qed.

(** X13.  For every build command and every output, however long, the
    report of [filterBuildOutput] has at most 59 lines. *)
Theorem X13_build_report_size (toLowerCase : str -> str) (output command : str) :
  isBuildCommand toLowerCase (Some command) = true ->
  exists report,
    filterBuildOutput toLowerCase output (Some command) = Some report
    /\ length (lines_of report) <= 59.
Proof.
  intros H. unfold filterBuildOutput. rewrite H. simpl.
  eexists. split; [reflexivity|].
  apply build_format_size, scanLines_plain. apply split_no_sep.
Qed.

Lemma X13_build_report_size_witness :
  exists report,
    filterBuildOutput ascii_toLowerCase
      (unlines [`"error[E0308]: mismatched types"; `"  --> src/main.rs:1:1"; `"warning: unused"])
      (Some `"cargo check") = Some report
    /\ length (lines_of report) <= 59.
Proof.
  apply X13_build_report_size. vm_compute. reflexivity.
Defined.

(** X14.  When at least one line opens an error block, the first line of the
    build report is "[ERROR] K error(s):" with K the number of lines that
    open a block. *)
Theorem X14_build_error_count (toLowerCase : str -> str) (output command : str) :
  isBuildCommand toLowerCase (Some command) = true ->
  filter buildOpens (lines_of output) <> [] ->
  exists report,
    filterBuildOutput toLowerCase output (Some command) = Some report
    /\ hd [] (lines_of report)
       = `"[ERROR] " ++ nat_to_str (length (filter buildOpens (lines_of output)))
         ++ `" error(s):".
Proof.
  intros H Hopen. unfold filterBuildOutput. rewrite H. simpl.
  eexists. split; [reflexivity|].
  destruct (BlockFacts.build_scan_blocks (lines_of output)) as [B1 B2].
  pose proof (BlockFacts.build_finish_blocks _ B2) as F.
  fold (scanLines (lines_of output)) in F.
  assert (K : length (errors (scanLines (lines_of output)))
              = length (filter buildOpens (lines_of output))).
  { rewrite F, <- B1, length_map. reflexivity. }
  assert (Kpos : 0 < length (errors (scanLines (lines_of output)))).
  { rewrite K. destruct (filter buildOpens (lines_of output)); [contradiction | simpl; lia]. }
  unfold format.
  destruct (length (errors (scanLines (lines_of output)))) as [|k] eqn:Ek; [lia|].
  cbn [Nat.eqb andb Nat.ltb Nat.leb]. rewrite <- K.
  match goal with |- hd [] (lines_of (unlines (([?h] ++ ?a ++ ?b) ++ ?c))) = _ =>
    rewrite (@lines_unlines (([h] ++ a ++ b) ++ c)) by discriminate;
    assert (Ph : plain h)
  end.
  { apply plain_app; [unfold plain; vm_compute; intuition discriminate|].
    apply plain_app; [apply nat_to_str_plain|].
    unfold plain; vm_compute; intuition discriminate. }
  cbn [app flat_map]. rewrite (@lines_of_plain _ Ph). reflexivity.
Qed.

Lemma X14_build_error_count_witness :
  exists report,
    filterBuildOutput ascii_toLowerCase
      (unlines [`"Compiling a"; `"error: first"; `"  note"; `"error: second"])
      (Some `"make all") = Some report
    /\ hd [] (lines_of report)
       = `"[ERROR] "
         ++ nat_to_str (length (filter buildOpens
              (lines_of (unlines [`"Compiling a"; `"error: first"; `"  note"; `"error: second"]))))
         ++ `" error(s):".
Proof.
  apply X14_build_error_count.
  - vm_compute. reflexivity.
  - vm_compute. discriminate.
Defined.

End BuildMoreFacts.

(** ** Test aggregator: accepted commands and size of the report *)

Module TestMoreFacts.
Import TestOutput Shapes Lines StrFacts SliceFacts LineFacts.

Lemma ellipsis_plain n l : plain l -> plain (ellipsis n l).
Proof.
  intros H. unfold ellipsis, slice0. apply plain_app.
  - intros F. apply H. eapply firstn_In_list; eauto.
  - destruct (n <? length l); solve_plain.
Qed.

Lemma formatFailure_plain failure : Forall plain (formatFailure failure).
Proof.
  unfold formatFailure.
  assert (P : Forall plain (lines_of failure)) by apply split_no_sep.
  assert (P0 : plain (nth 0 (lines_of failure) [])).
  { destruct (lines_of failure) as [|l ls]; [intros F; contradiction|].
    inversion P; auto. }
  apply Forall_app. split.
  { repeat constructor. apply plain_app; [solve_plain | apply ellipsis_plain; exact P0]. }
  apply Forall_app. split.
  - apply flat_map_Forall with (P := plain).
    + intros x Hx. destruct (negb (str_eqb (trim x) [])); repeat constructor.
      apply plain_app; [solve_plain | apply ellipsis_plain; exact Hx].
    + apply firstn_Forall. apply Forall_forall. intros x Hx.
      rewrite Forall_forall in P. apply P. eapply skipn_In_list; eauto.
  - destruct (4 <? length (lines_of failure)); repeat constructor. solve_plain.
Qed.

Lemma formatFailure_size failure : length (formatFailure failure) <= 5.
Proof.
  unfold formatFailure. rewrite !length_app.
  assert (A : length (flat_map
                (fun line => if negb (str_eqb (trim line) [])
                             then [`"     " ++ ellipsis 65 line] else [])
                (firstn 3 (skipn 1 (lines_of failure)))) <= 3).
  { match goal with |- length (flat_map ?f ?xs) <= 3 =>
      pose proof (@flat_map_size _ _ f 1 xs) as F end.
    rewrite length_firstn in F.
    assert (H1 : forall x : str,
      length (if negb (str_eqb (trim x) []) then [`"     " ++ ellipsis 65 x] else []) <= 1).
    { intros x. destruct (negb _); cbn [length]; lia. }
    specialize (F H1). lia. }
  destruct (4 <? length (lines_of failure)); cbn [length]; lia.
Qed.

Lemma test_format_size s : length (lines_of (format s)) <= 32.
Proof.
  unfold format.
  set (head2 := [`"Test Results:"; `"   PASS: " ++ Z_to_str (passed s) ++ `" passed"]).
  set (failL := if (0 <? failed s)%Z then [`"   FAIL: " ++ Z_to_str (failed s) ++ `" failed"] else []).
  set (skipL := if (0 <? skipped s)%Z then [`"   SKIP: " ++ Z_to_str (skipped s) ++ `" skipped"] else []).
  set (more := if 5 <? length (failures s)
               then [`"   ... and " ++ nat_to_str (length (failures s) - 5) ++ `" more failures"]
               else []).
  set (details := if (0 <? failed s)%Z && (0 <? length (failures s))
                  then [NL :: `"   Failures:"]
                       ++ flat_map formatFailure (firstn 5 (failures s)) ++ more
                  else []).
  rewrite lines_unlines by discriminate.
  rewrite !flat_map_app, !length_app.
  assert (H1 : length (flat_map lines_of head2) = 2).
  { unfold head2. cbn [flat_map]. rewrite !lines_of_plain by solve_plain. reflexivity. }
  assert (H2 : length (flat_map lines_of failL) <= 1).
  { unfold failL. destruct (0 <? failed s)%Z; cbn [flat_map length]; [|lia].
    rewrite lines_of_plain by solve_plain. cbn [length app]. lia. }
  assert (H3 : length (flat_map lines_of skipL) <= 1).
  { unfold skipL. destruct (0 <? skipped s)%Z; cbn [flat_map length]; [|lia].
    rewrite lines_of_plain by solve_plain. cbn [length app]. lia. }
  assert (H4 : length (flat_map lines_of details) <= 28).
  { unfold details.
    destruct ((0 <? failed s)%Z && (0 <? length (failures s))); cbn [flat_map length]; [|lia].
    rewrite flat_map_app, length_app.
    assert (A : length (flat_map lines_of [NL :: `"   Failures:"]) <= 2)
      by (vm_compute; lia).
    assert (B : length (flat_map lines_of
                  (flat_map formatFailure (firstn 5 (failures s)) ++ more)) <= 26).
    { rewrite flat_map_plain.
      - rewrite length_app.
        pose proof (@flat_map_size _ _ formatFailure 5 (firstn 5 (failures s))
                      formatFailure_size) as F.
        rewrite length_firstn in F.
        unfold more. destruct (5 <? length (failures s)); cbn [length]; lia.
      - apply Forall_app. split.
        + apply flat_map_Forall with (P := fun _ => True).
          * intros x _. apply formatFailure_plain.
          * apply Forall_forall. auto.
        + unfold more. destruct (5 <? length (failures s)); repeat constructor.
          solve_plain. }
    exact (Nat.add_le_mono _ 2 _ 26 A B). }
  exact (Nat.add_le_mono _ 2 _ 30 (Nat.eq_le_incl _ _ H1)
           (Nat.add_le_mono _ 1 _ 29 H2 (Nat.add_le_mono _ 1 _ 28 H3 H4))).
Qed.

(** X15.  A non-empty command in which a test-runner name stands as a
    standalone token is accepted: [isTestCommand] holds and
    [aggregateTestOutput] returns a report that starts with
    "Test Results:". *)
Theorem X15_standalone_accepted
    (toLowerCase : str -> str) (command output tc : str) :
  command <> [] ->
  In tc TEST_COMMANDS ->
  standalone tc (toLowerCase command) ->
  isTestCommand toLowerCase (Some command) = true
  /\ exists report,
       aggregateTestOutput toLowerCase output (Some command) = Some report
       /\ startsWith `"Test Results:" report = true.
Proof.
  intros Hne Hin Hs.
  assert (T : isTestCommand toLowerCase (Some command) = true).
  { apply ClassifierFacts.isTestCommand_iff. eauto. }
  split; [exact T|]. unfold aggregateTestOutput. rewrite T. simpl.
  eexists. split; [reflexivity|]. unfold format, unlines. reflexivity.
Qed.

Lemma X15_standalone_accepted_witness :
  isTestCommand ascii_toLowerCase (Some `"cd app && Cargo Test --lib") = true
  /\ exists report,
       aggregateTestOutput ascii_toLowerCase `"running 2 tests"
         (Some `"cd app && Cargo Test --lib") = Some report
       /\ startsWith `"Test Results:" report = true.
Proof.
  apply (@X15_standalone_accepted ascii_toLowerCase `"cd app && Cargo Test --lib"
           `"running 2 tests" `"cargo test").
  - discriminate.
  - vm_compute. tauto.
  - apply ClassifierFacts.standaloneb_iff. vm_compute. reflexivity.
Defined.

(** X16.  For every test command and every output, however long, the
    report of [aggregateTestOutput] has at most 32 lines. *)
Theorem X16_test_report_size (toLowerCase : str -> str) (output command : str) :
  isTestCommand toLowerCase (Some command) = true ->
  exists report,
    aggregateTestOutput toLowerCase output (Some command) = Some report
    /\ length (lines_of report) <= 32.
Proof.
  intros H. unfold aggregateTestOutput. rewrite H. simpl.
  eexists. split; [reflexivity | apply test_format_size].
Qed.

Lemma X16_test_report_size_witness :
  exists report,
    aggregateTestOutput ascii_toLowerCase
      (unlines [`"FAIL src/a.test.ts"; `"  expected 1"; `"Tests: 1 failed, 2 passed"])
      (Some `"npx jest") = Some report
    /\ length (lines_of report) <= 32.
Proof.
  apply X16_test_report_size. vm_compute. reflexivity.
Defined.

End TestMoreFacts.

(** ** The smart truncator for every budget *)

Module SmartTruncateFacts.
Import Truncation StrFacts SliceFacts TruncateFacts.

Lemma lines_rendered content es more total :
  (forall l, In l (keptOf es) -> In l (lines_of content)) ->
  lines_of (unlines (map render es ++ [Source.summaryLine more total]))
  = map render es ++ [Source.summaryLine more total].
Proof.
  intros H. unfold lines_of, unlines. apply split_join.
  - destruct (map render es); discriminate.
  - apply Forall_app. split.
    + apply render_no_NL. intros l Hl.
      pose proof (split_no_sep NL content) as F. rewrite Forall_forall in F.
      apply F. apply H. exact Hl.
    + constructor; [apply summary_no_NL | constructor].
Qed.

(** A content longer than a budget of at least 2: the lines of the result
    are the rendered entries of the loop and the summary line. *)
Lemma smartTruncate_long (content : str) (maxLines : Z) (language : Source.Language) :
  let lines := lines_of content in
  let total := Z.of_nat (length lines) in
  (2 <= maxLines < total)%Z ->
  let st := ewalk (length lines) maxLines lines (mkE [] 0 false) in
  let ds := decisions maxLines lines 0 in
  lines_of (Source.smartTruncate content maxLines language)
  = map render (eout st) ++ [Source.summaryLine (total - Z.of_nat (ekept st)) total]
  /\ keptOf (eout st) = select ds lines
  /\ (Z.of_nat (length (keptOf (eout st))) <= maxLines - 1)%Z
  /\ (2 * Z.of_nat (length (lines_of (Source.smartTruncate content maxLines language)))
      <= 3 * maxLines - 2)%Z.
Proof.
  intros lines total [H2 Hn] st ds.
  assert (B0 : bounded maxLines (mkE [] 0 false)).
  { split; [discriminate | left; reflexivity]. }
  destruct (@ewalk_counts (length lines) maxLines lines (mkE [] 0 false)
              ltac:(simpl; lia) B0) as (K & M & O & L & B).
  fold st in K, M, O, L, B. cbn [ekept eout eskipped] in K, M, O. fold ds in K, M, O.
  simpl in K, M, O.
  assert (Ksel : ekept st = length (select ds lines)).
  { rewrite K. symmetry. apply select_length. apply decisions_length. }
  assert (A : agree (Source.walk (length lines) maxLines lines (Source.mkT [] 0 false)) st).
  { apply walk_agree. repeat split. }
  destruct A as (A1 & A2 & A3).
  assert (E : Source.smartTruncate content maxLines language
              = unlines (map render (eout st)
                         ++ [Source.summaryLine (total - Z.of_nat (ekept st)) total])).
  { unfold Source.smartTruncate. fold lines. fold total.
    destruct (total <=? maxLines)%Z eqn:El; [apply Z.leb_le in El; lia|].
    rewrite A1, A2.
    assert (T : (ekept st <? length lines) = true) by (apply Nat.ltb_lt; unfold total in Hn; lia).
    rewrite T, orb_true_r. reflexivity. }
  assert (R : lines_of (Source.smartTruncate content maxLines language)
              = map render (eout st)
                ++ [Source.summaryLine (total - Z.of_nat (ekept st)) total]).
  { rewrite E. apply (@lines_rendered content). intros l Hl. rewrite O in Hl.
    apply select_In in Hl. exact Hl. }
  split; [exact R|]. split; [exact O|]. split; [rewrite O, <- Ksel; exact L|].
  rewrite R, length_app, length_map, entries_length, O, <- Ksel.
  cbn [length]. destruct B as [_ [B | B]]; lia.
Qed.

(** X17.  [smartTruncate] returns a content of at most [maxLines] lines
    unchanged.  For a longer content and a budget of at least 2 it keeps at
    most [maxLines - 1] input lines, in order, and ends with the summary
    line; with the omitted-count markers the result has up to
    [(3 * maxLines - 2) / 2] lines, which exceeds the budget from 3 on. *)
Theorem X17_smartTruncate_budget (content : str) (maxLines : Z) (language : Source.Language) :
  let lines := lines_of content in
  let total := Z.of_nat (length lines) in
  ((total <= maxLines)%Z -> Source.smartTruncate content maxLines language = content)
  /\ ((2 <= maxLines < total)%Z ->
      let st := ewalk (length lines) maxLines lines (mkE [] 0 false) in
      let ds := decisions maxLines lines 0 in
      lines_of (Source.smartTruncate content maxLines language)
      = map render (eout st) ++ [Source.summaryLine (total - Z.of_nat (ekept st)) total]
      /\ keptOf (eout st) = select ds lines
      /\ (Z.of_nat (length (keptOf (eout st))) <= maxLines - 1)%Z
      /\ (2 * Z.of_nat (length (lines_of (Source.smartTruncate content maxLines language)))
          <= 3 * maxLines - 2)%Z).
Proof.
  intros lines total. split.
  - intros H. unfold Source.smartTruncate. fold lines. fold total.
    apply Z.leb_le in H. rewrite H. reflexivity.
  - apply smartTruncate_long.
Qed.

Lemma X17_smartTruncate_budget_witness :
  (2 * Z.of_nat (length (lines_of (Source.smartTruncate alternating 200 Source.rust)))
   <= 3 * 200 - 2)%Z.
Proof.
  apply (proj2 (X17_smartTruncate_budget alternating 200 Source.rust)).
  split; [lia | vm_compute; reflexivity].
Defined.

End SmartTruncateFacts.

(** ** Capture groups *)

Module CaptureFacts.
Import Captures RegexFacts SliceFacts.

Lemma extends_refl ids w cs : extends ids w cs cs.
Proof. split; auto. Qed.

Lemma extends_trans ids1 ids2 ids w1 w2 w cs cs1 cs2 :
  extends ids1 w1 cs cs1 -> extends ids2 w2 cs1 cs2 ->
  incl ids1 ids -> incl ids2 ids -> incl w1 w -> incl w2 w ->
  extends ids w cs cs2.
Proof.
  intros [A1 B1] [A2 B2] I1 I2 W1 W2. split.
  - intros i Hi. rewrite A2, A1; auto.
  - intros i v Hv. apply B2 in Hv. destruct Hv as [Hv | Hv].
    + apply B1 in Hv. destruct Hv as [Hv | Hv]; [left; exact Hv|].
      right. intros x Hx. auto.
    + right. intros x Hx. auto.
Qed.

Lemma path_incl r p q : Matches r p q -> incl (after q) (after p).
Proof.
  intros H. apply Matches_path in H. destruct H as (w & A & _).
  rewrite A. apply incl_appr, incl_refl.
Qed.

Section Star.
Variable ma : pos -> caps -> cont -> option result.
Variable a : regex.
Variable g : bool.

Hypothesis ma_caps : forall p cs k x,
  ma p cs k = Some x ->
  exists q cs', Matches a p q /\ extends (groups a) (after p) cs cs' /\ k q cs' = Some x.

Lemma star_loop_caps k : forall n p cs x,
  star_loop ma g k n p cs = Some x ->
  exists q cs', Matches (Star g a) p q /\ extends (groups a) (after p) cs cs'
                /\ k q cs' = Some x.
Proof.
  induction n as [|n IH]; intros p cs x H; simpl in H.
  - exists p, cs. split; [constructor | split; [apply extends_refl | exact H]].
  - assert (Hagain : forall y,
      ma p cs (fun p' cs' => if length (after p') <? length (after p)
                             then star_loop ma g k n p' cs' else None) = Some y ->
      exists q cs', Matches (Star g a) p q /\ extends (groups a) (after p) cs cs'
                    /\ k q cs' = Some y).
    { intros y Hy. apply ma_caps in Hy. destruct Hy as (q & cs' & Hq & He & Hk).
      destruct (length (after q) <? length (after p)) eqn:E; [|discriminate].
      apply Nat.ltb_lt in E.
      destruct (IH _ _ _ Hk) as (q' & cs'' & Hq' & He' & Hk').
      exists q', cs''. split; [eapply M_StarS; eauto|]. split; [|exact Hk'].
      eapply extends_trans; eauto using incl_refl.
      eapply path_incl; eauto. }
    destruct g; apply orElse_some in H; destruct H as [H | [_ H]]; auto;
      exists p, cs; (split; [constructor | split; [apply extends_refl | exact H]]).
Qed.

End Star.

(** The matcher hands to its continuation the captures it was given, with
    further bindings of the pattern's own groups to pieces of the text
    ahead. *)
Lemma m_caps r : forall p cs k x,
  m r p cs k = Some x ->
  exists q cs', Matches r p q /\ extends (groups r) (after p) cs cs' /\ k q cs' = Some x.
Proof.
  induction r as [|f|a IHa b IHb|a IHa b IHb|g a IHa|i a IHa| | |];
    intros p cs k x H; cbn [m] in H; cbn [groups].
  - exists p, cs. split; [constructor | split; [apply extends_refl | exact H]].
  - destruct p as [bef aft]; simpl in H. destruct aft as [|c rest]; [discriminate|].
    destruct (f c) eqn:E; [|discriminate].
    eexists _, cs. split; [constructor; exact E | split; [apply extends_refl | exact H]].
  - apply IHa in H. destruct H as (q & cs' & Hq & He & H).
    apply IHb in H. destruct H as (q' & cs'' & Hq' & He' & H).
    exists q', cs''. split; [econstructor; eauto|]. split; [|exact H].
    eapply extends_trans; eauto using incl_refl, incl_appl, incl_appr.
    eapply path_incl; eauto.
  - apply orElse_some in H. destruct H as [H | [_ H]].
    + apply IHa in H. destruct H as (q & cs' & Hq & He & H).
      exists q, cs'. split; [apply M_AltL; exact Hq|]. split; [|exact H].
      eapply extends_trans; [exact He | apply extends_refl | | | |];
        eauto using incl_refl, incl_appl, incl_appr.
    + apply IHb in H. destruct H as (q & cs' & Hq & He & H).
      exists q, cs'. split; [apply M_AltR; exact Hq|]. split; [|exact H].
      eapply extends_trans; [exact He | apply extends_refl | | | |];
        eauto using incl_refl, incl_appl, incl_appr.
  - eapply star_loop_caps; eauto.
  - apply IHa in H. destruct H as (q & cs' & Hq & [A B] & H).
    eexists q, _. split; [constructor; exact Hq|]. split; [|exact H].
    split.
    + intros j Hj. cbn [cap]. destruct (Nat.eqb j i) eqn:E.
      * apply Nat.eqb_eq in E. subst. exfalso. apply Hj. left. reflexivity.
      * apply A. intros Hin. apply Hj. right. exact Hin.
    + intros j v Hv. cbn [cap] in Hv. destruct (Nat.eqb j i) eqn:E.
      * inversion Hv; subst. right. intros y Hy.
        apply (@firstn_In_list char y _ _ Hy).
      * apply B. exact Hv.
  - destruct p as [bef aft]; simpl in H. destruct bef; [|discriminate].
    exists (mkPos [] aft), cs. split; [constructor | split; [apply extends_refl | exact H]].
  - destruct p as [bef aft]; simpl in H. destruct aft; [|discriminate].
    exists (mkPos bef []), cs. split; [constructor | split; [apply extends_refl | exact H]].
  - destruct (xorb _ _) eqn:E; [|discriminate].
    exists p, cs. split; [constructor; exact E | split; [apply extends_refl | exact H]].
Qed.

(** A captured value is made of units of the subject. *)
Lemma exec_caps r s mt i v :
  exec r s = Some mt -> cap i mt = Some v -> incl v s.
Proof.
  unfold exec. destruct (search r [] s) as [[p0 [q cs]]|] eqn:E; [|discriminate].
  intros H Hv. inversion H; subst.
  apply search_some in E. destruct E as (u & A & _ & M).
  unfold match_at in M. apply m_caps in M.
  destruct M as (q' & cs' & _ & [_ B] & Hacc). unfold accept in Hacc.
  inversion Hacc; subst.
  apply B in Hv. destruct Hv as [Hv | Hv]; [discriminate|].
  apply incl_appr. exact Hv.
Qed.

(** Under [^], a first group that no later group overwrites holds the text
    its pattern passed over. *)
Lemma exec_first_group i a rest s mt :
  exec (Seq Bol (Seq (Grp i a) rest)) s = Some mt ->
  ~ In i (groups rest) ->
  exists w q, Matches a (mkPos [] s) q /\ Span (mkPos [] s) w q
              /\ (exists q', Matches rest q q') /\ cap i mt = Some w.
Proof.
  unfold exec.
  destruct (search (Seq Bol (Seq (Grp i a) rest)) [] s) as [[p0 [q cs]]|] eqn:E;
    [|discriminate].
  intros H Hi. inversion H; subst.
  apply search_some in E. destruct E as (u & A & B & M).
  unfold match_at in M. cbn [m] in M.
  destruct p0 as [bef aft]. simpl in A, B, M.
  destruct bef; [|discriminate].
  rewrite app_nil_r in B. symmetry in B.
  assert (u = []) by (destruct u; [reflexivity | apply (f_equal (@length char)) in B;
                      rewrite length_rev in B; discriminate]).
  subst u. simpl in A. subst aft.
  apply m_caps in M. destruct M as (q1 & cs1 & M1 & _ & M).
  apply m_caps in M. destruct M as (q2 & cs2 & M2 & [F _] & Hacc).
  unfold accept in Hacc. inversion Hacc; subst.
  pose proof (Matches_path M1) as (w & P1 & P2). simpl in P1, P2.
  exists w, q1. split; [exact M1|]. split; [split; simpl; auto|].
  split; [eauto|].
  rewrite (F i Hi). cbn [cap]. rewrite Nat.eqb_refl. f_equal.
  simpl. rewrite P1 at 1 2. rewrite length_app.
  replace (length w + length (after q1) - length (after q1)) with (length w) by lia.
  rewrite firstn_app, Nat.sub_diag, firstn_all. simpl. apply app_nil_r.
Qed.

End CaptureFacts.
(** ** Linter aggregator *)

Module LinterFacts.
Import Linter LintShapes Captures RegexFacts StrFacts SliceFacts CaptureFacts.

Ltac unseq M q H :=
  apply Matches_Seq_iff in M; destruct M as (q & H & M).

Ltac reseq q :=
  apply Matches_Seq_iff; exists q; split.

Lemma located_re_shape l : test located_re l = true <-> located l.
Proof.
  unfold located_re. cbn [Seqs]. rewrite test_Bol_iff. unfold located. split.
  - intros (q & M).
    unseq M p1 M1. apply Matches_Grp_iff, Matches_PlusChr_iff in M1.
    destruct M1 as (f & Hf & Df & S1).
    unseq M p2 M2. apply Matches_One_iff in M2.
    unseq M p3 M3. apply Matches_Grp_iff, Matches_PlusChr_iff in M3.
    destruct M3 as (a & Ha & Da & S3).
    unseq M p4 M4. apply Matches_One_iff in M4.
    unseq M p5 M5. apply Matches_Grp_iff, Matches_PlusChr_iff in M5.
    destruct M5 as (b & Hb & Db & S5).
    unseq M p6 M6. apply Matches_One_iff in M6.
    unseq M p7 M7. apply Matches_StarChr_iff in M7.
    destruct M7 as (sp & Dsp & S7).
    unseq M p8 M8. apply Matches_Grp_iff, Matches_PlusChr_iff in M8.
    destruct M8 as (msg & Hm & Dm & S8).
    apply Matches_Eol_iff in M. destruct M as [E ->].
    exists f, a, b, sp, msg.
    pose proof (Span_app S1 (Span_app M2 (Span_app S3 (Span_app M4
                 (Span_app S5 (Span_app M6 (Span_app S7 S8))))))) as [A _].
    simpl in A. rewrite E, app_nil_r in A.
    split; [exact A | auto 10].
  - intros (f & a & b & sp & msg & El & (Hf & Df) & (Ha & Da) & (Hb & Db) & Dsp & (Hm & Dm)).
    exists (mkPos (rev l) []).
    assert (S : Span (mkPos [] l)
                  (f ++ [COLON] ++ a ++ [COLON] ++ b ++ [COLON] ++ sp ++ msg)
                  (mkPos (rev l) [])).
    { unfold Span. simpl. rewrite !app_nil_r. subst l. auto. }
    apply Span_split in S. destruct S as (p1 & S1 & S).
    apply Span_split in S. destruct S as (p2 & S2 & S).
    apply Span_split in S. destruct S as (p3 & S3 & S).
    apply Span_split in S. destruct S as (p4 & S4 & S).
    apply Span_split in S. destruct S as (p5 & S5 & S).
    apply Span_split in S. destruct S as (p6 & S6 & S).
    apply Span_split in S. destruct S as (p7 & S7 & S8).
    reseq p1. { apply Matches_Grp_iff, Matches_PlusChr_iff. eauto. }
    reseq p2. { apply Matches_One_iff. exact S2. }
    reseq p3. { apply Matches_Grp_iff, Matches_PlusChr_iff. eauto. }
    reseq p4. { apply Matches_One_iff. exact S4. }
    reseq p5. { apply Matches_Grp_iff, Matches_PlusChr_iff. eauto. }
    reseq p6. { apply Matches_One_iff. exact S6. }
    reseq p7. { apply Matches_StarChr_iff. eauto. }
    reseq (mkPos (rev l) []). { apply Matches_Grp_iff, Matches_PlusChr_iff. eauto. }
    apply Matches_Eol_iff. auto.
Qed.

Lemma trailing_re_shape l : test trailing_re l = true <-> trailing l.
Proof.
  unfold trailing_re, s_plus. cbn [Seqs]. rewrite test_Bol_iff. unfold trailing. split.
  - intros (q & M).
    unseq M p1 M1. apply Matches_Grp_iff in M1.
    assert (W : exists w, (w = `"error" \/ w = `"warning") /\ Span (mkPos [] l) w p1).
    { apply Matches_Alt_iff in M1. destruct M1 as [M1 | M1];
        apply Matches_Lit_iff in M1; eauto. }
    destruct W as (w & Hw & S1).
    unseq M p2 M2. apply Matches_One_iff in M2.
    unseq M p3 M3. apply Matches_StarChr_iff in M3. destruct M3 as (sp1 & D1 & S3).
    unseq M p4 M4. apply Matches_Grp_iff, Matches_PlusLazyChr_iff in M4.
    destruct M4 as (msg & Hm & Dm & S4).
    unseq M p5 M5. apply Matches_PlusChr_iff in M5. destruct M5 as (sp2 & H2 & D2 & S5).
    unseq M p6 M6. apply Matches_Lit_iff in M6.
    unseq M p7 M7. apply Matches_PlusChr_iff in M7. destruct M7 as (sp3 & H3 & D3 & S7).
    unseq M p8 M8. apply Matches_Grp_iff, Matches_PlusChr_iff in M8.
    destruct M8 as (f & Hf & Df & S8).
    unseq M p9 M9. apply Matches_One_iff in M9.
    unseq M p10 M10. apply Matches_Grp_iff, Matches_PlusChr_iff in M10.
    destruct M10 as (a & Ha & Da & S10).
    unseq M p11 M11. apply Matches_One_iff in M11.
    unseq M p12 M12. apply Matches_Grp_iff, Matches_PlusChr_iff in M12.
    destruct M12 as (b & Hb & Db & S12).
    apply Matches_Eol_iff in M. destruct M as [E ->].
    exists w, sp1, msg, sp2, sp3, f, a, b.
    pose proof (Span_app S1 (Span_app M2 (Span_app S3 (Span_app S4 (Span_app S5
                 (Span_app M6 (Span_app S7 (Span_app S8 (Span_app M9
                 (Span_app S10 (Span_app M11 S12))))))))))) as [A _].
    simpl in A. rewrite E, app_nil_r in A.
    split; [exact A | auto 12].
  - intros (w & sp1 & msg & sp2 & sp3 & f & a & b & El & Hw & D1 & (Hm & Dm)
            & (H2 & D2) & (H3 & D3) & (Hf & Df) & (Ha & Da) & (Hb & Db)).
    exists (mkPos (rev l) []).
    assert (S : Span (mkPos [] l)
                  (w ++ [COLON] ++ sp1 ++ msg ++ sp2 ++ `"at" ++ sp3 ++ f ++ [COLON]
                   ++ a ++ [COLON] ++ b)
                  (mkPos (rev l) [])).
    { unfold Span. simpl. rewrite !app_nil_r. subst l. auto. }
    apply Span_split in S. destruct S as (p1 & S1 & S).
    apply Span_split in S. destruct S as (p2 & S2 & S).
    apply Span_split in S. destruct S as (p3 & S3 & S).
    apply Span_split in S. destruct S as (p4 & S4 & S).
    apply Span_split in S. destruct S as (p5 & S5 & S).
    apply Span_split in S. destruct S as (p6 & S6 & S).
    apply Span_split in S. destruct S as (p7 & S7 & S).
    apply Span_split in S. destruct S as (p8 & S8 & S).
    apply Span_split in S. destruct S as (p9 & S9 & S).
    apply Span_split in S. destruct S as (p10 & S10 & S).
    apply Span_split in S. destruct S as (p11 & S11 & S12).
    reseq p1.
    { apply Matches_Grp_iff, Matches_Alt_iff.
      destruct Hw as [-> | ->]; [left | right]; apply Matches_Lit_iff; exact S1. }
    reseq p2. { apply Matches_One_iff. exact S2. }
    reseq p3. { apply Matches_StarChr_iff. eauto. }
    reseq p4. { apply Matches_Grp_iff, Matches_PlusLazyChr_iff. eauto. }
    reseq p5. { apply Matches_PlusChr_iff. eauto. }
    reseq p6. { apply Matches_Lit_iff. exact S6. }
    reseq p7. { apply Matches_PlusChr_iff. eauto. }
    reseq p8. { apply Matches_Grp_iff, Matches_PlusChr_iff. eauto. }
    reseq p9. { apply Matches_One_iff. exact S9. }
    reseq p10. { apply Matches_Grp_iff, Matches_PlusChr_iff. eauto. }
    reseq p11. { apply Matches_One_iff. exact S11. }
    reseq (mkPos (rev l) []). { apply Matches_Grp_iff, Matches_PlusChr_iff. eauto. }
    apply Matches_Eol_iff. auto.
Qed.

Lemma exec_test r s : (exists mt, exec r s = Some mt) <-> test r s = true.
Proof.
  unfold exec, test. destruct (search r [] s) as [[p0 [q cs]]|]; split;
    intros H; try discriminate; eauto.
  destruct H as (mt & H). discriminate.
Qed.

Lemma exec_fails r s : test r s = false -> exec r s = None.
Proof. intros H. apply exec_none_iff. exact H. Qed.

Lemma issue_none_iff l t : parseLine l t = None <-> ~ issueLine l.
Proof.
  unfold parseLine, patterns, firstMatch, issueLine.
  rewrite <- located_re_shape, <- trailing_re_shape.
  destruct (exec located_re l) as [mt|] eqn:E1.
  { split; [discriminate|]. intros H. exfalso. apply H. left.
    apply exec_test. eauto. }
  apply exec_none_iff in E1. rewrite E1.
  destruct (exec trailing_re l) as [mt|] eqn:E2.
  { split; [discriminate|]. intros H. exfalso. apply H. right.
    apply exec_test. eauto. }
  apply exec_none_iff in E2. rewrite E2.
  split; [intros _ [H | H]; discriminate | reflexivity].
Qed.

Lemma issues_nil_iff t : forall lines,
  parseEach lines t = [] <-> Forall (fun l => ~ issueLine l) lines.
Proof.
  induction lines as [|l lines IH]; simpl.
  - split; auto.
  - destruct (parseLine l t) eqn:E.
    + split; [discriminate|]. intros H. inversion H; subst.
      apply (proj2 (issue_none_iff l t)) in H2. congruence.
    + rewrite IH. apply issue_none_iff in E. split.
      * intros H. constructor; auto.
      * intros H. inversion H; auto.
Qed.


Lemma linterType_head toLowerCase c :
  exists h t, detectLinterType toLowerCase c = h :: t /\ h <> ch "[".
Proof.
  unfold detectLinterType.
  repeat match goal with
         | |- context [if ?b then _ else _] => destruct b
         end; eexists _, _; (split; [reflexivity | discriminate]).
Qed.

(** X21.  For a linter command the report is the all-clear line exactly
    when no line of the output has one of the two issue shapes: lines of
    any other shape are dropped without a trace, whatever they report. *)
Theorem X21_linter_ok_iff (toLowerCase : str -> str) (output command : str) :
  isLinterCommand toLowerCase (Some command) = true ->
  (aggregateLinterOutput toLowerCase output (Some command)
   = Some (`"[OK] " ++ detectLinterType toLowerCase command ++ `": No issues found")
   <-> Forall (fun l => ~ issueLine l) (lines_of output)).
Proof.
  intros Hc. unfold aggregateLinterOutput. rewrite Hc. cbn [negb].
  unfold parseIssues. rewrite <- (issues_nil_iff (detectLinterType toLowerCase command)).
  destruct (parseEach (lines_of output) (detectLinterType toLowerCase command))
    as [|i issues] eqn:E.
  - simpl. split; reflexivity.
  - cbn [length Nat.eqb]. split; [|discriminate].
    intros H. exfalso. inversion H as [H1]. unfold report in H1.
    destruct (linterType_head toLowerCase command) as (h & t & Eh & Nh).
    rewrite Eh in H1. inversion H1. contradiction.
Qed.

Lemma X21_linter_ok_iff_witness :
  aggregateLinterOutput ascii_toLowerCase `"All checks passed!" (Some `"ruff check .")
  = Some (`"[OK] " ++ detectLinterType ascii_toLowerCase `"ruff check ."
          ++ `": No issues found")
  <-> Forall (fun l => ~ issueLine l) (lines_of `"All checks passed!").
Proof.
  apply (@X21_linter_ok_iff ascii_toLowerCase `"All checks passed!" `"ruff check .").
  vm_compute. reflexivity.
Defined.

Lemma trailing_groups :
  ~ In 1 (groups (Seqs [One (ch ":"); s_star; Grp 2 (PlusLazy dot_); s_plus;
                        Lit `"at"; s_plus; Grp 3 (Plus dot_); One (ch ":");
                        Grp 4 (Plus d_); One (ch ":"); Grp 5 (Plus d_); Eol])).
Proof. vm_compute. intuition discriminate. Qed.

(** The word captured by the first group of the second pattern. *)
Lemma trailing_word l mt :
  exec trailing_re l = Some mt ->
  exists w rest, l = w ++ rest /\ (w = `"error" \/ w = `"warning")
                 /\ Search.group 1 mt = w.
Proof.
  intros E. unfold trailing_re in E. cbn [Seqs] in E.
  apply exec_first_group in E; [|exact trailing_groups].
  destruct E as (w & q & M & [S _] & _ & C). simpl in S.
  exists w, (after q). split; [exact S|].
  unfold Search.group. rewrite C. split; [|reflexivity].
  apply Matches_Alt_iff in M. destruct M as [M | M];
    apply Matches_Lit_iff in M; destruct M as [S' _]; cbn [after] in S';
    rewrite S in S'; apply app_inv_tail in S'; auto.
Qed.

(** X22.  A line of the [file:line:col: message] shape is always counted
    as an error, whatever its message says; an issue is a warning only when
    its line starts with the word warning and is not of that shape. *)
Theorem X22_located_is_error (l t : str) (issue : Issue) :
  parseLine l t = Some issue ->
  (located l -> severity issue = ERROR)
  /\ (severity issue = WARNING ->
      ~ located l /\ trailing l /\ startsWith `"warning" l = true).
Proof.
  unfold parseLine, patterns, firstMatch.
  destruct (exec located_re l) as [mt|] eqn:E1.
  { intros H. inversion H; subst. cbn [severity x_severity].
    split; [reflexivity | discriminate]. }
  destruct (exec trailing_re l) as [mt|] eqn:E2; [|discriminate].
  intros H. inversion H; subst. cbn [severity x_severity].
  assert (N : ~ located l).
  { intros L. apply located_re_shape in L. apply exec_none_iff in E1. congruence. }
  split; [intros L; contradiction|].
  intros W. split; [exact N|]. split.
  { apply trailing_re_shape. apply exec_test. eauto. }
  destruct (@trailing_word l mt E2) as (w & rest & El & Hw & G).
  rewrite G in W. destruct Hw as [-> | ->]; [discriminate|].
  apply startsWith_iff. exists rest. exact El.
Qed.

Lemma X22_located_is_error_witness :
  severity (mkIssue ERROR `"no-unused-vars" `"src/app.js" (Some 3%Z)
              `"warning  'x' is defined but never used [no-unused-vars]") = ERROR.
Proof.
  apply (proj1 (@X22_located_is_error
                  `"src/app.js:3:7: warning  'x' is defined but never used [no-unused-vars]"
                  [] _ eq_refl)).
  apply located_re_shape. vm_compute. reflexivity.
Defined.

End LinterFacts.
(** ** Counting tables and the descending sort of the linter report *)

Module LinterTableFacts.
Import Linter LintShapes StrFacts.

Ltac case_str a b E :=
  destruct (str_eqb a b) eqn:E;
  [apply str_eqb_eq in E | apply str_eqb_neq in E].

Lemma bump_countOf r key : forall table,
  countOf r (bump table key) = countOf r table + (if str_eqb r key then 1 else 0).
Proof.
  induction table as [|[k n] table IH]; cbn [bump countOf].
  - case_str key r E; case_str r key E'; subst; try congruence; reflexivity.
  - case_str k key E; cbn [countOf].
    + subst k. case_str key r E'.
      * subst r. rewrite str_eqb_refl. lia.
      * case_str r key E''; [congruence | lia].
    + case_str k r E'.
      * subst k. case_str r key E''; [congruence | lia].
      * apply IH.
Qed.

Lemma bump_keys key : forall table k,
  In k (map fst (bump table key)) <-> In k (map fst table) \/ k = key.
Proof.
  induction table as [|[k0 n] table IH]; intros k; cbn [bump map fst In].
  - intuition.
  - case_str k0 key E; cbn [map fst In].
    + subst. intuition.
    + rewrite IH. intuition.
Qed.

Lemma bump_NoDup key : forall table,
  NoDup (map fst table) -> NoDup (map fst (bump table key)).
Proof.
  induction table as [|[k0 n] table IH]; intros H; cbn [bump map fst].
  - constructor; [intros []| constructor].
  - inversion H; subst. case_str k0 key E; cbn [map fst].
    + constructor; assumption.
    + constructor; [|apply IH; assumption].
      intros I. apply bump_keys in I. destruct I as [I | I]; [contradiction|].
      congruence.
Qed.

Lemma In_countOf : forall table r n,
  NoDup (map fst table) ->
  (In (r, n) table <-> In r (map fst table) /\ countOf r table = n).
Proof.
  induction table as [|[k m] table IH]; intros r n H; cbn [In map fst countOf].
  - intuition.
  - inversion H as [|x xs Hx Hxs]; subst. specialize (IH r n Hxs).
    case_str k r E.
    + subst k. split.
      * intros [I | I]; [inversion I; auto|].
        exfalso. apply Hx. apply IH in I. tauto.
      * intros [_ ->]. left. reflexivity.
    + split.
      * intros [I | I]; [inversion I; congruence|]. apply IH in I. tauto.
      * intros [[I | I] C]; [congruence|]. right. apply IH. tauto.
Qed.

Lemma occurrences_snoc r rules key :
  occurrences r (rules ++ [key])
  = occurrences r rules + (if str_eqb r key then 1 else 0).
Proof.
  unfold occurrences. rewrite filter_app, length_app. cbn [filter].
  destruct (str_eqb r key); reflexivity.
Qed.

Lemma occurrences_pos r rules : In r rules <-> 0 < occurrences r rules.
Proof.
  unfold occurrences. induction rules as [|x rules IH]; cbn [In filter length].
  - split; [intros [] | lia].
  - case_str r x E; cbn [length].
    + subst. split; [lia | auto].
    + rewrite <- IH. split; [intros [I | I]; [congruence | exact I] | auto].
Qed.

Lemma count_fold : forall rules table,
  NoDup (map fst table) ->
  let table' := fold_left bump rules table in
  NoDup (map fst table')
  /\ (forall r, countOf r table' = countOf r table + occurrences r rules)
  /\ (forall r, In r (map fst table') <-> In r (map fst table) \/ In r rules).
Proof.
  induction rules as [|key rules IH]; intros table H; cbn [fold_left].
  - split; [exact H|]. split; [intros r; unfold occurrences; simpl; lia|].
    intros r. simpl. tauto.
  - destruct (IH (bump table key) (bump_NoDup key table H)) as (A & B & C).
    split; [exact A|]. split.
    + intros r. rewrite B, bump_countOf.
      change (key :: rules) with ([key] ++ rules).
      unfold occurrences. rewrite filter_app, length_app. cbn [filter].
      destruct (str_eqb r key); cbn [length]; lia.
    + intros r. rewrite C, bump_keys. cbn [In]. intuition.
Qed.

(** The table of counts holds each rule once, with its number of issues. *)
Lemma countRules_spec issues :
  NoDup (map fst (countRules issues))
  /\ (forall r n, In (r, n) (countRules issues)
                  <-> In r (map rule issues) /\ n = occurrences r (map rule issues)).
Proof.
  unfold countRules.
  destruct (@count_fold (map rule issues) [] ltac:(constructor)) as (A & B & C).
  split; [exact A|].
  intros r n. rewrite (In_countOf _ r n A), C, B. cbn [map In countOf].
  intuition.
Qed.

Section SortFacts.
Variable A : Type.
Variable weight : A -> nat.

Lemma insertDesc_perm e : forall sorted,
  Permutation.Permutation (insertDesc weight e sorted) (e :: sorted).
Proof.
  induction sorted as [|x rest IH]; cbn [insertDesc].
  - apply Permutation.Permutation_refl.
  - destruct (weight e <? weight x).
    + eapply Permutation.perm_trans; [apply Permutation.perm_skip, IH|].
      apply Permutation.perm_swap.
    + apply Permutation.Permutation_refl.
Qed.

Lemma sortDesc_perm : forall xs, Permutation.Permutation (sortDesc weight xs) xs.
Proof.
  induction xs as [|x xs IH]; cbn [sortDesc fold_right].
  - apply Permutation.Permutation_refl.
  - eapply Permutation.perm_trans; [apply insertDesc_perm|].
    apply Permutation.perm_skip, IH.
Qed.

Lemma insertDesc_sorted e : forall sorted,
  Sorted.StronglySorted (fun x y => weight y <= weight x) sorted ->
  Sorted.StronglySorted (fun x y => weight y <= weight x) (insertDesc weight e sorted).
Proof.
  induction sorted as [|x rest IH]; intros H; cbn [insertDesc].
  - constructor; constructor.
  - inversion H as [|y ys Hs Hall]; subst.
    destruct (weight e <? weight x) eqn:E.
    + apply Nat.ltb_lt in E. constructor; [apply IH; exact Hs|].
      apply Forall_forall. intros z Hz.
      apply (Permutation.Permutation_in _ (insertDesc_perm e rest)) in Hz.
      destruct Hz as [<- | Hz]; [lia|].
      rewrite Forall_forall in Hall. auto.
    + apply Nat.ltb_ge in E. constructor; [exact H|].
      constructor; [exact E|].
      rewrite Forall_forall in Hall. apply Forall_forall. intros z Hz.
      specialize (Hall z Hz). lia.
Qed.

Lemma sortDesc_sorted : forall xs,
  Sorted.StronglySorted (fun x y => weight y <= weight x) (sortDesc weight xs).
Proof.
  induction xs as [|x xs IH]; cbn [sortDesc fold_right].
  - constructor.
  - apply insertDesc_sorted. exact IH.
Qed.

Lemma insertDesc_ties k e : forall sorted,
  filter (fun x => weight x =? k) (insertDesc weight e sorted)
  = filter (fun x => weight x =? k) (e :: sorted).
Proof.
  induction sorted as [|x rest IH]; cbn [insertDesc]; [reflexivity|].
  destruct (weight e <? weight x) eqn:E; [|reflexivity].
  apply Nat.ltb_lt in E. cbn [filter] in *. rewrite IH.
  destruct (weight e =? k) eqn:Ee; [|reflexivity].
  apply Nat.eqb_eq in Ee.
  destruct (weight x =? k) eqn:Ex; [|reflexivity].
  apply Nat.eqb_eq in Ex. lia.
Qed.

Lemma sortDesc_ties k : forall xs,
  filter (fun x => weight x =? k) (sortDesc weight xs)
  = filter (fun x => weight x =? k) xs.
Proof.
  induction xs as [|x xs IH]; cbn [sortDesc fold_right]; [reflexivity|].
  rewrite insertDesc_ties. cbn [filter]. fold (sortDesc weight xs). rewrite IH.
  reflexivity.
Qed.

End SortFacts.

(** X24.  The rule table of the report holds every rule of an issue once,
    with the number of issues that have it.  The order of the top rules is
    a rearrangement of the table by count, highest first, in which rules of
    equal count stay in the order of their first issue. *)
Theorem X24_top_rules (issues : list Issue) :
  let rules := map rule issues in
  let table := countRules issues in
  let top := sortDesc (@snd str nat) table in
  NoDup (map fst table)
  /\ (forall r n, In (r, n) table <-> In r rules /\ n = occurrences r rules)
  /\ Permutation.Permutation top table
  /\ Sorted.StronglySorted (fun x y => snd y <= snd x) top
  /\ (forall k, filter (fun e => snd e =? k) top = filter (fun e => snd e =? k) table).
Proof.
  intros rules table top.
  destruct (countRules_spec issues) as (A & B).
  split; [exact A|]. split; [exact B|].
  split; [apply sortDesc_perm|]. split; [apply sortDesc_sorted|].
  intros k. apply sortDesc_ties.
Qed.

End LinterTableFacts.
(** ** Size of the linter report *)

Module LinterSizeFacts.
Import Linter LintShapes Lines LineCount StrFacts SliceFacts LineFacts CaptureFacts
       LinterTableFacts.

Lemma lines_count : forall s, length (lines_of s) = S (newlines s).
Proof.
  unfold lines_of, newlines. induction s as [|x s IH]; cbn [split filter]; [reflexivity|].
  unfold char_eqb at 2. rewrite (N.eqb_sym NL x). fold (char_eqb x NL).
  destruct (char_eqb x NL); cbn [length]; [rewrite IH; reflexivity|].
  destruct (split NL s) as [|l ls] eqn:E; [exfalso; revert E; apply split_nonempty|].
  exact IH.
Qed.

Lemma newlines_app a b : newlines (a ++ b) = newlines a + newlines b.
Proof. unfold newlines. rewrite filter_app, length_app. reflexivity. Qed.

Lemma newlines_plain s : plain s -> newlines s = 0.
Proof.
  unfold plain, newlines. induction s as [|x s IH]; intros H; cbn [filter]; [reflexivity|].
  destruct (char_eqb NL x) eqn:E.
  - apply char_eqb_eq in E. exfalso. apply H. left. auto.
  - apply IH. intros I. apply H. right. exact I.
Qed.

Lemma newlines_flat_map (A : Type) (f : A -> str) k : forall xs,
  (forall x, In x xs -> newlines (f x) <= k) ->
  newlines (flat_map f xs) <= k * length xs.
Proof.
  induction xs as [|x xs IH]; intros H; cbn [flat_map length]; [unfold newlines; simpl; lia|].
  rewrite newlines_app.
  assert (H1 : newlines (f x) <= k) by (apply H; left; reflexivity).
  assert (H2 : newlines (flat_map f xs) <= k * length xs)
    by (apply IH; intros y Hy; apply H; right; exact Hy).
  lia.
Qed.

Lemma plain_incl v s : incl v s -> plain s -> plain v.
Proof. unfold plain. intros I P H. apply P, I, H. Qed.

Lemma group_incl r s mt i : exec r s = Some mt -> incl (Search.group i mt) s.
Proof.
  intros E. unfold Search.group. destruct (cap i mt) as [v|] eqn:C.
  - eapply exec_caps; eauto.
  - intros x [].
Qed.

Lemma ruleOf_plain content : plain content -> plain (ruleOf content).
Proof.
  intros P. unfold ruleOf.
  destruct (exec rule_re content) as [mt|] eqn:E;
    [|unfold plain; vm_compute; intuition discriminate].
  pose proof (@group_incl _ _ _ 1 E) as I.
  destruct (Search.group 1 mt) as [|x v]; cbn [orStr];
    [unfold plain; vm_compute; intuition discriminate|].
  eapply plain_incl; eauto.
Qed.

Lemma issue_plain l t i :
  plain l -> parseLine l t = Some i -> plain (rule i) /\ plain (file i).
Proof.
  intros P. unfold parseLine, patterns, firstMatch.
  destruct (exec located_re l) as [mt|] eqn:E1.
  { intros H. inversion H; subst. cbn [rule file x_content x_file]. split.
    - apply ruleOf_plain. eapply plain_incl; [eapply group_incl; eauto | exact P].
    - eapply plain_incl; [eapply group_incl; eauto | exact P]. }
  destruct (exec trailing_re l) as [mt|] eqn:E2; [|discriminate].
  intros H. inversion H; subst. cbn [rule file x_content x_file]. split.
  - apply ruleOf_plain. eapply plain_incl; [eapply group_incl; eauto | exact P].
  - eapply plain_incl; [eapply group_incl; eauto | exact P].
Qed.

Lemma issues_tidy t : forall lines,
  Forall plain lines -> Forall tidy (parseEach lines t).
Proof.
  induction lines as [|l lines IH]; intros H; cbn [parseEach]; [constructor|].
  inversion H; subst.
  destruct (parseLine l t) as [i|] eqn:E; [|auto].
  constructor; [eapply issue_plain; eauto | auto].
Qed.

Lemma split_incl sep : forall s part, In part (split sep s) -> incl part s.
Proof.
  induction s as [|x s IH]; intros part H; cbn [split] in H.
  - destruct H as [<- | []]. apply incl_refl.
  - destruct (char_eqb x sep).
    + destruct H as [<- | H]; [intros y []|]. apply incl_tl, IH, H.
    + destruct (split sep s) as [|l ls] eqn:E.
      * destruct H as [<- | []]. apply incl_cons; [left; reflexivity | intros y []].
      * destruct H as [<- | H].
        -- apply incl_cons; [left; reflexivity|]. apply incl_tl, IH. left. reflexivity.
        -- apply incl_tl, IH. right. exact H.
Qed.

Lemma part_plain path k : plain path -> plain (nth k (split SLASH path) []).
Proof.
  intros P. destruct (nth_in_or_default k (split SLASH path) []) as [I | ->].
  - eapply plain_incl; [eapply split_incl; eauto | exact P].
  - intros [].
Qed.

Lemma compactPath_plain path n : plain path -> plain (compactPath path n).
Proof.
  intros P. unfold compactPath.
  destruct (length path <=? n); [exact P|].
  destruct (length (split SLASH path) <=? 3); [exact P|].
  repeat apply plain_app; try apply part_plain; try exact P;
    unfold plain; vm_compute; intuition discriminate.
Qed.

Lemma ruleLine_newlines e : plain (fst e) -> newlines (ruleLine e) = 1.
Proof.
  intros P. unfold ruleLine. rewrite !newlines_app.
  rewrite (newlines_plain P), (newlines_plain (nat_to_str_plain (snd e))). reflexivity.
Qed.

Lemma fileRuleLine_newlines e : plain (fst e) -> newlines (fileRuleLine e) = 1.
Proof.
  intros P. unfold fileRuleLine. rewrite !newlines_app.
  rewrite (newlines_plain P), (newlines_plain (nat_to_str_plain (snd e))). reflexivity.
Qed.

Lemma table_plain issues e :
  Forall tidy issues -> In e (countRules issues) -> plain (fst e).
Proof.
  intros T I. destruct e as [r n]. apply countRules_spec in I. destruct I as [I _].
  apply in_map_iff in I. destruct I as (i & <- & Hi).
  rewrite Forall_forall in T. apply (T i Hi).
Qed.

Lemma top_In (A : Type) (w : A -> nat) k xs e :
  In e (jsSlice 0 (Z.of_nat k) (sortDesc w xs)) -> In e xs.
Proof.
  rewrite jsSlice_prefix by lia. intros H. apply firstn_In_list in H.
  apply (Permutation.Permutation_in _ (sortDesc_perm w xs)) in H. exact H.
Qed.

Lemma top_length (A : Type) (xs : list A) k :
  length (jsSlice 0 (Z.of_nat k) xs) <= k.
Proof. rewrite jsSlice_prefix by lia. rewrite length_firstn. lia. Qed.

Lemma addIssue_tidy i : forall byFile,
  tidy i -> Forall tidyGroup byFile -> Forall tidyGroup (addIssue byFile i).
Proof.
  induction byFile as [|[f found] byFile IH]; intros T H; cbn [addIssue].
  - constructor; [|constructor]. split; [apply T|]. cbn [snd]. constructor; [exact T | constructor].
  - inversion H as [|x xs [P Q] Hxs]; subst. cbn [fst snd] in P, Q.
    destruct (str_eqb f (file i)).
    + constructor; [|exact Hxs]. split; [exact P|].
      cbn [snd]. apply Forall_app. split; [exact Q | constructor; [exact T | constructor]].
    + constructor; [split; assumption | apply IH; assumption].
Qed.

Lemma byFile_tidy : forall issues byFile,
  Forall tidy issues -> Forall tidyGroup byFile ->
  Forall tidyGroup (fold_left addIssue issues byFile).
Proof.
  induction issues as [|i issues IH]; intros byFile T H; cbn [fold_left]; [exact H|].
  inversion T; subst. apply IH; [assumption|]. apply addIssue_tidy; assumption.
Qed.

Lemma fileBlock_newlines e : tidyGroup e -> newlines (fileBlock e) <= 4.
Proof.
  intros [P Q]. unfold fileBlock. rewrite !newlines_app.
  rewrite (newlines_plain (compactPath_plain 40 P)),
          (newlines_plain (nat_to_str_plain (length (snd e)))).
  pose proof (@newlines_flat_map _ fileRuleLine 1
                (jsSlice 0 3 (sortDesc (@snd str nat) (countRules (snd e))))) as F.
  assert (L : length (jsSlice 0 3 (sortDesc (@snd str nat) (countRules (snd e)))) <= 3)
    by apply (@top_length _ _ 3).
  assert (G : newlines (flat_map fileRuleLine
                (jsSlice 0 3 (sortDesc (@snd str nat) (countRules (snd e))))) <= 3).
  { etransitivity; [apply F|lia].
    intros x Hx. apply (@top_In _ _ 3) in Hx.
    rewrite fileRuleLine_newlines; [lia|]. eapply table_plain; eauto. }
  change (newlines `"  ") with 0. change (newlines `" (") with 0.
  change (newlines `" issues)") with 0. change (newlines [NL]) with 1. lia.
Qed.

Lemma linterType_plain toLowerCase c : plain (detectLinterType toLowerCase c).
Proof.
  unfold detectLinterType.
  repeat match goal with
         | |- context [if ?b then _ else _] => destruct b
         end; unfold plain; vm_compute; intuition discriminate.
Qed.

Lemma report_size linterType issues :
  plain linterType -> Forall tidy issues ->
  length (lines_of (report linterType issues)) <= 56.
Proof.
  intros P T. rewrite lines_count. unfold report. cbv zeta.
  rewrite !newlines_app.
  set (rules := jsSlice 0 10 (sortDesc (@snd str nat) (countRules issues))).
  set (files := jsSlice 0 10 (sortDesc (fun e : str * list Issue => length (snd e))
                                (fold_left addIssue issues []))).
  assert (R : newlines (flat_map ruleLine rules) <= 10).
  { pose proof (@newlines_flat_map _ ruleLine 1 rules) as F.
    assert (L : length rules <= 10) by apply (@top_length _ _ 10).
    etransitivity; [apply F|lia].
    intros x Hx. apply (@top_In _ _ 10) in Hx.
    rewrite ruleLine_newlines; [lia|]. eapply table_plain; eauto. }
  assert (F : newlines (flat_map fileBlock files) <= 40).
  { pose proof (@newlines_flat_map _ fileBlock 4 files) as G.
    assert (L : length files <= 10) by apply (@top_length _ _ 10).
    etransitivity; [apply G|lia].
    intros x Hx. apply (@top_In _ _ 10) in Hx.
    apply fileBlock_newlines.
    pose proof (@byFile_tidy issues [] T ltac:(constructor)) as B.
    rewrite Forall_forall in B. apply B. exact Hx. }
  rewrite (newlines_plain P),
          (newlines_plain (nat_to_str_plain (length (filter isError issues)))),
          (newlines_plain (nat_to_str_plain (length (filter isWarningIssue issues)))),
          (newlines_plain (nat_to_str_plain (length (fold_left addIssue issues [])))).
  change (newlines `": ") with 0. change (newlines `" errors, ") with 0.
  change (newlines `" warnings in ") with 0. change (newlines `" files") with 0.
  change (newlines (repeat BAR 39)) with 0.
  change (newlines `"Top rules:") with 0. change (newlines `"Top files:") with 0.
  change (newlines [NL]) with 1. lia.
Qed.

(** X23.  For every linter command and every output, however long, the
    report of [aggregateLinterOutput] has at most 56 lines. *)
Theorem X23_linter_report_size (toLowerCase : str -> str) (output command : str) :
  isLinterCommand toLowerCase (Some command) = true ->
  exists text,
    aggregateLinterOutput toLowerCase output (Some command) = Some text
    /\ length (lines_of text) <= 56.
Proof.
  intros Hc. unfold aggregateLinterOutput. rewrite Hc. cbn [negb].
  pose proof (linterType_plain toLowerCase command) as P.
  destruct (length (parseIssues output (detectLinterType toLowerCase command)) =? 0).
  - eexists. split; [reflexivity|].
    rewrite lines_of_plain; [simpl; lia|].
    repeat apply plain_app; try exact P; unfold plain; vm_compute; intuition discriminate.
  - eexists. split; [reflexivity|].
    apply report_size; [exact P|].
    unfold parseIssues. apply issues_tidy. apply split_no_sep.
Qed.

Lemma X23_linter_report_size_witness :
  exists text,
    aggregateLinterOutput ascii_toLowerCase
      `"src/app.js:3:7: 'x' is defined but never used [no-unused-vars]"
      (Some `"npx eslint src") = Some text
    /\ length (lines_of text) <= 56.
Proof.
  apply (@X23_linter_report_size ascii_toLowerCase).
  vm_compute. reflexivity.
Defined.

End LinterSizeFacts.
(** ** Language detection *)

Module LanguageFacts.
Import SourceLanguage StrFacts SliceFacts.

Lemma lastIndexOf_none c : forall s, lastIndexOf c s = None <-> ~ In c s.
Proof.
  induction s as [|x s IH]; cbn [lastIndexOf In].
  - split; [intros _ [] | reflexivity].
  - destruct (lastIndexOf c s) as [i|].
    + split; [discriminate|]. intros H. exfalso.
      assert (N : ~ In c s) by tauto. apply IH in N. discriminate.
    + destruct (char_eqb x c) eqn:E.
      * apply char_eqb_eq in E. split; [discriminate | intros H; exfalso; auto].
      * apply char_eqb_neq in E. split; [|reflexivity].
        intros _ [H | H]; [contradiction|]. apply (proj1 IH); auto.
Qed.

Lemma lastIndexOf_last c ext : forall base,
  ~ In c ext -> lastIndexOf c (base ++ c :: ext) = Some (length base).
Proof.
  intros base H. apply lastIndexOf_none in H.
  induction base as [|x base IH]; cbn [app lastIndexOf length].
  - rewrite H. unfold char_eqb. rewrite N.eqb_refl. reflexivity.
  - rewrite IH. reflexivity.
Qed.

Lemma sliceFrom_skipn (A : Type) n (xs : list A) :
  jsSliceFrom (Z.of_nat n) xs = skipn (Nat.min n (length xs)) xs.
Proof.
  unfold jsSliceFrom, clampIndex.
  destruct (Z.of_nat n <? 0)%Z eqn:E; [apply Z.ltb_lt in E; lia|].
  rewrite Nat2Z.id. reflexivity.
Qed.

Lemma lookup_In (A : Type) key (v : A) : forall table,
  lookup key table = Some v -> In (key, v) table.
Proof.
  induction table as [|[k w] table IH]; cbn [lookup]; [discriminate|].
  destruct (str_eqb k key) eqn:E.
  - apply str_eqb_eq in E. intros H. inversion H; subst. left. reflexivity.
  - intros H. right. apply IH. exact H.
Qed.

(** X18.  [detectLanguage] looks only at what follows the last dot of the
    path: a path without a dot is of unknown language, directories and
    earlier extensions play no part, and a language is reported only for a
    path that ends, up to case, with one of the fifteen listed extensions. *)
Theorem X18_last_extension (toLowerCase : str -> str) (base ext : str) :
  ~ In DOT ext ->
  detectLanguage toLowerCase ext = Source.unknown
  /\ detectLanguage toLowerCase (base ++ DOT :: ext)
     = detectLanguage toLowerCase (DOT :: ext)
  /\ (detectLanguage toLowerCase (base ++ DOT :: ext) <> Source.unknown ->
      In (toLowerCase (DOT :: ext),
          detectLanguage toLowerCase (base ++ DOT :: ext)) LANGUAGE_EXTENSIONS).
Proof.
  intros H.
  assert (E : forall b, detectLanguage toLowerCase (b ++ DOT :: ext)
                        = match lookup (toLowerCase (DOT :: ext)) LANGUAGE_EXTENSIONS with
                          | Some language => language
                          | None => Source.unknown
                          end).
  { intros b. unfold detectLanguage. rewrite (@lastIndexOf_last DOT ext b H).
    rewrite sliceFrom_skipn, length_app.
    rewrite Nat.min_l by lia. rewrite skipn_app_exact. reflexivity. }
  split; [|split].
  - unfold detectLanguage. apply lastIndexOf_none in H. rewrite H. reflexivity.
  - rewrite (E base). symmetry. apply (E []).
  - rewrite (E base).
    destruct (lookup (toLowerCase (DOT :: ext)) LANGUAGE_EXTENSIONS) as [language|] eqn:L;
      [|intros N; contradiction].
    intros _. apply lookup_In. exact L.
Qed.

Lemma X18_last_extension_witness :
  detectLanguage ascii_toLowerCase `"TS" = Source.unknown
  /\ detectLanguage ascii_toLowerCase (`"src/v1.2/Main" ++ DOT :: `"TS")
     = detectLanguage ascii_toLowerCase (DOT :: `"TS")
  /\ (detectLanguage ascii_toLowerCase (`"src/v1.2/Main" ++ DOT :: `"TS") <> Source.unknown ->
      In (ascii_toLowerCase (DOT :: `"TS"),
          detectLanguage ascii_toLowerCase (`"src/v1.2/Main" ++ DOT :: `"TS"))
         LANGUAGE_EXTENSIONS).
Proof.
  apply (@X18_last_extension ascii_toLowerCase `"src/v1.2/Main" `"TS").
  vm_compute. intuition discriminate.
Defined.

End LanguageFacts.

(** ** Search grouper: the file table and the cap on listed matches *)

Module SearchTableFacts.
Import Search Groups StrFacts.

Ltac case_str a b E :=
  destruct (str_eqb a b) eqn:E;
  [apply str_eqb_eq in E | apply str_eqb_neq in E].

Lemma addResult_groupOf f r : forall byFile,
  groupOf f (addResult byFile r)
  = groupOf f byFile ++ (if str_eqb f (file r) then [r] else []).
Proof.
  induction byFile as [|[k rs] byFile IH]; cbn [addResult groupOf].
  - case_str (file r) f E; case_str f (file r) E'; subst; try congruence; reflexivity.
  - case_str k (file r) E; cbn [groupOf].
    + subst k. case_str (file r) f E'.
      * subst f. rewrite str_eqb_refl. reflexivity.
      * case_str f (file r) E''; [congruence | rewrite app_nil_r; reflexivity].
    + case_str k f E'.
      * subst k. case_str f (file r) E''; [congruence | rewrite app_nil_r; reflexivity].
      * apply IH.
Qed.

Lemma addResult_keys r : forall byFile k,
  In k (map fst (addResult byFile r)) <-> In k (map fst byFile) \/ k = file r.
Proof.
  induction byFile as [|[k0 rs] byFile IH]; intros k; cbn [addResult map fst In].
  - intuition.
  - case_str k0 (file r) E; cbn [map fst In].
    + rewrite <- E. intuition.
    + rewrite IH. intuition.
Qed.

Lemma addResult_NoDup r : forall byFile,
  NoDup (map fst byFile) -> NoDup (map fst (addResult byFile r)).
Proof.
  induction byFile as [|[k0 rs] byFile IH]; intros H; cbn [addResult map fst].
  - constructor; [intros [] | constructor].
  - inversion H; subst. case_str k0 (file r) E; cbn [map fst].
    + constructor; assumption.
    + constructor; [|apply IH; assumption].
      intros I. apply addResult_keys in I. destruct I as [I | I]; [contradiction|].
      congruence.
Qed.

Lemma In_groupOf : forall (byFile : fileMap) f rs,
  NoDup (map fst byFile) ->
  (In (f, rs) byFile <-> In f (map fst byFile) /\ groupOf f byFile = rs).
Proof.
  induction byFile as [|[k m] byFile IH]; intros f rs H; cbn [In map fst groupOf].
  - intuition.
  - inversion H as [|x xs Hx Hxs]; subst. specialize (IH f rs Hxs).
    case_str k f E.
    + subst k. split.
      * intros [I | I]; [inversion I; auto|].
        exfalso. apply Hx. apply IH in I. tauto.
      * intros [_ ->]. left. reflexivity.
    + split.
      * intros [I | I]; [inversion I; congruence|]. apply IH in I. tauto.
      * intros [[I | I] C]; [congruence|]. right. apply IH. tauto.
Qed.

Lemma group_fold : forall results (byFile : fileMap),
  NoDup (map fst byFile) ->
  let byFile' := fold_left addResult results byFile in
  NoDup (map fst byFile')
  /\ (forall f, groupOf f byFile' = groupOf f byFile ++ resultsOf f results)
  /\ (forall f, In f (map fst byFile') <-> In f (map fst byFile) \/ In f (map file results)).
Proof.
  induction results as [|r results IH]; intros byFile H; cbn [fold_left].
  - split; [exact H|]. split; [intros f; cbn; rewrite app_nil_r; reflexivity|].
    intros f. cbn. tauto.
  - destruct (IH (addResult byFile r) (addResult_NoDup r byFile H)) as (A & B & C).
    split; [exact A|]. split.
    + intros f. rewrite B, addResult_groupOf. unfold resultsOf. cbn [filter].
      rewrite <- app_assoc. destruct (str_eqb f (file r)); reflexivity.
    + intros f. rewrite C, addResult_keys. cbn [map In]. intuition.
Qed.

Section WithCollation.
Variable localeCompare : str -> str -> Z.

Lemma insertSorted_perm e : forall sorted,
  Permutation.Permutation (insertSorted localeCompare e sorted) (e :: sorted).
Proof.
  induction sorted as [|x rest IH]; cbn [insertSorted].
  - apply Permutation.Permutation_refl.
  - destruct (localeCompare (fst x) (fst e) <? 0)%Z.
    + eapply Permutation.perm_trans; [apply Permutation.perm_skip, IH|].
      apply Permutation.perm_swap.
    + apply Permutation.Permutation_refl.
Qed.

Lemma sortFiles_perm : forall byFile,
  Permutation.Permutation (sortFiles localeCompare byFile) byFile.
Proof.
  induction byFile as [|x xs IH]; cbn [sortFiles fold_right].
  - apply Permutation.Permutation_refl.
  - eapply Permutation.perm_trans; [apply insertSorted_perm|].
    apply Permutation.perm_skip, IH.
Qed.

(** X19.  The grouper's file table holds every file of a result once, and
    with it exactly the results of that file, in input order: no result is
    lost, duplicated or filed under another name.  Sorting the table only
    rearranges its entries, whatever the collation. *)
Theorem X19_groups_partition (results : list SearchResult) :
  let byFile := fold_left addResult results [] in
  NoDup (map fst byFile)
  /\ (forall f rs, In (f, rs) byFile
                   <-> In f (map file results) /\ rs = resultsOf f results)
  /\ Permutation.Permutation (sortFiles localeCompare byFile) byFile.
Proof.
  intros byFile.
  destruct (@group_fold results [] ltac:(constructor)) as (A & B & C).
  fold byFile in A, B, C.
  split; [exact A|]. split; [|apply sortFiles_perm].
  intros f rs. rewrite (@In_groupOf byFile f rs A), C, B. cbn [map In groupOf app].
  intuition.
Qed.

End WithCollation.

Lemma emit_cap maxResults : forall files text shown,
  shown <= maxResults + 9 ->
  snd (emit files maxResults text shown) <= maxResults + 9
  /\ shown <= snd (emit files maxResults text shown)
  /\ exists body, fst (emit files maxResults text shown) = text ++ body.
Proof.
  induction files as [|[f matches] files IH]; intros text shown H; cbn [emit].
  - cbn [fst snd]. split; [exact H|]. split; [lia|]. exists []. rewrite app_nil_r. reflexivity.
  - destruct (maxResults <=? shown) eqn:E.
    + cbn [fst snd]. split; [exact H|]. split; [lia|]. exists []. rewrite app_nil_r. reflexivity.
    + apply Nat.leb_gt in E.
      assert (L : length (firstn 10 matches) <= 10) by (rewrite length_firstn; lia).
      destruct (IH (text ++ fileBlock f matches) (shown + length (firstn 10 matches))
                  ltac:(lia)) as (A & B & (body & C)).
      split; [exact A|]. split; [lia|].
      exists (fileBlock f matches ++ body). rewrite C, app_assoc. reflexivity.
Qed.


Lemma total_cons f rs (files : fileMap) :
  total ((f, rs) :: files) = length rs + total files.
Proof. reflexivity. Qed.

Lemma total_perm (xs ys : fileMap) :
  Permutation.Permutation xs ys -> total xs = total ys.
Proof.
  induction 1 as [|[f rs] xs ys H IH|[f rs] [g qs] xs|xs ys zs H1 IH1 H2 IH2];
    rewrite ?total_cons; lia.
Qed.

Lemma total_addResult r : forall byFile, total (addResult byFile r) = S (total byFile).
Proof.
  induction byFile as [|[k rs] byFile IH]; cbn [addResult].
  - reflexivity.
  - destruct (str_eqb k (file r)); rewrite !total_cons.
    + rewrite length_app. cbn [length]. lia.
    + rewrite IH. lia.
Qed.

Lemma total_fold : forall results byFile,
  total (fold_left addResult results byFile) = total byFile + length results.
Proof.
  induction results as [|r results IH]; intros byFile; cbn [fold_left length]; [lia|].
  rewrite IH, total_addResult. lia.
Qed.

Lemma emit_within maxResults : forall files text shown,
  snd (emit files maxResults text shown) <= shown + total files.
Proof.
  induction files as [|[f matches] files IH]; intros text shown; cbn [emit].
  - cbn [snd]. lia.
  - rewrite total_cons. destruct (maxResults <=? shown); [cbn [snd]; lia|].
    specialize (IH (text ++ fileBlock f matches) (shown + length (firstn 10 matches))).
    rewrite length_firstn in *. lia.
Qed.

Lemma emit_complete maxResults : forall files text shown,
  (forall f rs, In (f, rs) files -> length rs <= 10) ->
  shown + total files <= maxResults ->
  snd (emit files maxResults text shown) = shown + total files.
Proof.
  induction files as [|[f matches] files IH]; intros text shown Hs Ht; cbn [emit].
  - cbn [snd]. unfold total. simpl. lia.
  - rewrite total_cons in *. destruct (maxResults <=? shown) eqn:E.
    + apply Nat.leb_le in E. cbn [snd]. lia.
    + assert (L : length matches <= 10) by (apply (Hs f); left; reflexivity).
      rewrite IH.
      * rewrite length_firstn. lia.
      * intros g rs I. apply (Hs g). right. exact I.
      * rewrite length_firstn. lia.
Qed.

Lemma printed_app a b : printed (a ++ b) = printed a ++ printed b.
Proof. unfold printed. apply flat_map_app. Qed.

Lemma printed_map (A : Type) (f : A -> str) : forall xs,
  printed (map f xs) = flat_map (fun x => f x ++ [NL]) xs.
Proof.
  unfold printed. induction xs as [|x xs IH]; cbn [map flat_map]; [reflexivity|].
  rewrite IH. reflexivity.
Qed.

(** The block the source writes for a file is its lines, printed. *)
Lemma fileBlock_lines f matches : fileBlock f matches = printed (blockLines (f, matches)).
Proof.
  unfold fileBlock, blockLines, listedOf. cbn [fst snd].
  assert (E2 : forall xs,
             printed (map matchLine xs)
             = flat_map (fun mt => `"    " ++ lineNumber mt ++ `": "
                                   ++ clean (content mt) ++ [NL]) xs).
  { intros xs. rewrite printed_map. apply flat_map_ext. intros mt.
    unfold matchLine, shownContent, clean, slice0.
    rewrite <- !app_assoc. reflexivity. }
  rewrite <- E2.
  destruct (10 <? length matches); rewrite !printed_app; unfold printed;
    cbn [flat_map]; rewrite ?app_nil_r, <- ?app_assoc; reflexivity.
Qed.

Lemma listed_cons e files : listed (e :: files) = length (listedOf e) + listed files.
Proof. unfold listed. cbn [flat_map]. apply length_app. Qed.

(** The loop prints the blocks of the files in order and stops before the
    first file at which the matches listed so far reach the cap. *)
Lemma emit_blocks maxResults : forall files text shown,
  exists n,
    n <= length files
    /\ emit files maxResults text shown
       = (text ++ printed (flat_map blockLines (firstn n files)),
          shown + listed (firstn n files))
    /\ (forall k, k < n -> shown + listed (firstn k files) < maxResults)
    /\ (n < length files -> maxResults <= shown + listed (firstn n files)).
Proof.
  assert (Z0 : forall files : fileMap, listed (firstn 0 files) = 0) by reflexivity.
  assert (P0 : forall files : fileMap, printed (flat_map blockLines (firstn 0 files)) = [])
    by reflexivity.
  induction files as [|[f matches] files IH]; intros text shown; cbn [emit].
  - exists 0. rewrite P0, Z0, app_nil_r, Nat.add_0_r. cbn [length]. repeat split; lia.
  - destruct (maxResults <=? shown) eqn:E.
    + apply Nat.leb_le in E. exists 0.
      rewrite P0, Z0, app_nil_r, Nat.add_0_r. cbn [length]. repeat split; lia.
    + apply Nat.leb_gt in E.
      assert (F : forall k, firstn (S k) ((f, matches) :: files)
                            = (f, matches) :: firstn k files) by reflexivity.
      assert (L : length (listedOf (f, matches)) = length (firstn 10 matches))
        by reflexivity.
      destruct (IH (text ++ fileBlock f matches) (shown + length (firstn 10 matches)))
        as (n & A & B & C & D).
      exists (S n). rewrite F. cbn [length]. split; [lia|]. split; [|split].
      * rewrite B. change (flat_map blockLines ((f, matches) :: firstn n files))
          with (blockLines (f, matches) ++ flat_map blockLines (firstn n files)).
        rewrite printed_app, fileBlock_lines, listed_cons, L, <- app_assoc, Nat.add_assoc.
        reflexivity.
      * intros k Hk. destruct k as [|k].
        -- rewrite Z0. lia.
        -- rewrite F, listed_cons, L. specialize (C k ltac:(lia)). lia.
      * intros Hn. rewrite listed_cons, L. specialize (D ltac:(lia)). lia.
Qed.

(** X20.  When at least one line parses, the report of
    [groupSearchResults] is the headline, then the blocks of the files of
    the sorted table, in order, up to the first file at which the matches
    listed so far reach [maxResults], then a closing line exactly when
    fewer matches are listed than were found.  A block is a header line
    with the compacted path and the number of matches of the file, a line
    for each of its first ten matches giving the line number and the shown
    content, a line counting the matches left out when there are more than
    ten, and an empty line.  The number of matches listed never exceeds the
    number found, and can exceed [maxResults] by up to 9, the cap being
    tested between files only.  When no file has more than 10 matches and
    the matches number at most [maxResults], all are listed. *)
Theorem X20_search_accounting (localeCompare : str -> str -> Z)
    (output : str) (maxResults : nat) :
  let results := parseLines (lines_of output) in
  let byFile := fold_left addResult results [] in
  let files := sortFiles localeCompare byFile in
  results <> [] ->
  exists n,
    let shownFiles := firstn n files in
    n <= length files
    /\ groupSearchResults localeCompare output maxResults
       = Some (headline (length results) (length byFile)
               ++ printed (flat_map blockLines shownFiles)
               ++ (if listed shownFiles <? length results
                   then moreLine (length results - listed shownFiles) else []))
    /\ (forall k, k < n -> listed (firstn k files) < maxResults)
    /\ (n < length files -> maxResults <= listed shownFiles)
    /\ listed shownFiles <= length results
    /\ listed shownFiles <= maxResults + 9
    /\ ((forall f rs, In (f, rs) byFile -> length rs <= 10) ->
        length results <= maxResults -> listed shownFiles = length results).
Proof.
  intros results byFile files Hne. unfold groupSearchResults. fold results. fold byFile.
  destruct (length results =? 0) eqn:E0.
  { apply Nat.eqb_eq in E0. destruct results; [contradiction | discriminate]. }
  fold (headline (length results) (length byFile)).
  set (header := headline (length results) (length byFile)).
  fold files.
  assert (T : total files = length results).
  { unfold files. rewrite (total_perm (sortFiles_perm localeCompare byFile)).
    unfold byFile. rewrite total_fold. reflexivity. }
  destruct (@emit_blocks maxResults files header 0) as (n & Hn & Ee & Hk & Hs).
  destruct (@emit_cap maxResults files header 0 ltac:(lia)) as (A & _ & _).
  pose proof (@emit_within maxResults files header 0) as W.
  pose proof (@emit_complete maxResults files header 0) as K.
  rewrite Ee in A, W, K |- *. cbn [fst snd] in A, W, K. cbn [Nat.add] in *.
  exists n. cbv zeta. split; [exact Hn|]. split; [|split; [|split; [|split; [|split]]]].
  - unfold moreLine. destruct (listed (firstn n files) <? length results);
      rewrite <- ?app_assoc, ?app_nil_r; reflexivity.
  - exact Hk.
  - exact Hs.
  - lia.
  - exact A.
  - intros Hl Hm. rewrite K; [lia| |lia].
    intros f rs I. apply (Hl f).
    apply (Permutation.Permutation_in _ (sortFiles_perm localeCompare byFile)). exact I.
Qed.

Lemma X20_search_accounting_witness :
  exists n,
    let files := sortFiles (fun _ _ => 0%Z)
                   (fold_left addResult
                      (parseLines (lines_of `"src/a.ts:12:const x = 1")) []) in
    let shownFiles := firstn n files in
    n <= length files
    /\ groupSearchResults (fun _ _ => 0%Z) `"src/a.ts:12:const x = 1" 50
       = Some (headline 1 1 ++ printed (flat_map blockLines shownFiles)
               ++ (if listed shownFiles <? 1 then moreLine (1 - listed shownFiles) else []))
    /\ (forall k, k < n -> listed (firstn k files) < 50)
    /\ (n < length files -> 50 <= listed shownFiles)
    /\ listed shownFiles <= 1
    /\ listed shownFiles <= 50 + 9
    /\ ((forall f rs, In (f, rs) (fold_left addResult
                                    (parseLines (lines_of `"src/a.ts:12:const x = 1")) [])
                      -> length rs <= 10) ->
        1 <= 50 -> listed shownFiles = 1).
Proof.
  apply (@X20_search_accounting (fun _ _ => 0%Z) `"src/a.ts:12:const x = 1" 50).
  vm_compute. discriminate.
Defined.

End SearchTableFacts.

(** ** Tool-result handler *)

Module HandlerFacts.
Import Config Handler Budget StrFacts SliceFacts.

Lemma truncate_length text m :
  (m < Z.of_nat (length text))%Z -> (3 <= m)%Z ->
  Z.of_nat (length (Truncate.truncate text m)) = m.
Proof.
  intros H1 H3. unfold Truncate.truncate.
  destruct (Z.of_nat (length text) <=? m)%Z eqn:E; [apply Z.leb_le in E; lia|].
  destruct (m <? 3)%Z eqn:E3; [apply Z.ltb_lt in E3; lia|].
  rewrite jsSlice_prefix by lia. rewrite length_app, length_firstn.
  change (length `"...") with 3. lia.
Qed.

Lemma stage_text active f name st :
  fst (stage active f name st)
  = if active then match f (fst st) with Some out => out | None => fst st end
    else fst st.
Proof.
  unfold stage. destruct active; [|reflexivity].
  destruct (f (fst st)) as [out|]; [|reflexivity].
  destruct (str_eqb out (fst st)) eqn:E; cbn [negb fst]; [|reflexivity].
  apply str_eqb_eq in E. auto.
Qed.

Lemma stage_idle f name st : stage false f name st = st.
Proof. reflexivity. Qed.

Lemma setText_within n t : forall content,
  within n (text_item t) -> Forall (within n) (setText content t).
Proof.
  induction content as [|c content IH]; intros H; cbn [setText map]; constructor.
  - destruct c; [exact H | exact I].
  - apply IH. exact H.
Qed.

Section WithBuiltins.
Variable toLowerCase : str -> str.
Variable localeCompare : str -> str -> Z.

(** The text the command-output path arrives at: each stage that applies
    hands its report to the next one. *)
Lemma bashFilter_text config command text :
  let t := techniques config in
  let pass (active : bool) (f : str -> option str) (x : str) : str :=
    if active then match f x with Some out => out | None => x end else x in
  fst (bashFilter toLowerCase config command text)
  = capped config
      (pass (linterAggregation t && Linter.isLinterCommand toLowerCase command)
            (fun x => Linter.aggregateLinterOutput toLowerCase x command)
         (pass (gitCompaction t && Git.isGitCommand toLowerCase command)
               (fun x => Git.compactGitOutput toLowerCase x command)
            (pass (testOutputAggregation t && TestOutput.isTestCommand toLowerCase command)
                  (fun x => TestOutput.aggregateTestOutput toLowerCase x command)
               (pass (buildOutputFiltering t && Build.isBuildCommand toLowerCase command)
                     (fun x => Build.filterBuildOutput toLowerCase x command)
                  (stripped config text))))).
Proof.
  intros t pass. unfold bashFilter. fold t. cbv zeta.
  match goal with
  | |- context [stage _ _ `"build" ?s] => set (s1 := s)
  end.
  assert (E1 : fst s1 = stripped config text).
  { unfold s1, stripped. fold t. destruct (ansiStripping t); [|reflexivity].
    cbn [fst snd].
    destruct (str_eqb (Ansi.stripAnsiFast text) text) eqn:E; cbn [negb fst]; [|reflexivity].
    apply str_eqb_eq in E. auto. }
  match goal with
  | |- context [stage _ _ `"test" ?s] => set (s2 := s)
  end.
  assert (E2 : fst s2 = pass (buildOutputFiltering t && Build.isBuildCommand toLowerCase command)
                          (fun x => Build.filterBuildOutput toLowerCase x command)
                          (stripped config text)).
  { unfold s2. rewrite stage_text, E1. reflexivity. }
  match goal with
  | |- context [stage _ _ `"git" ?s] => set (s3 := s)
  end.
  assert (E3 : fst s3 = pass (testOutputAggregation t && TestOutput.isTestCommand toLowerCase command)
                          (fun x => TestOutput.aggregateTestOutput toLowerCase x command)
                          (fst s2)).
  { unfold s3. rewrite stage_text. reflexivity. }
  match goal with
  | |- context [stage _ _ `"linter" ?s] => set (s4 := s)
  end.
  assert (E4 : fst s4 = pass (gitCompaction t && Git.isGitCommand toLowerCase command)
                          (fun x => Git.compactGitOutput toLowerCase x command)
                          (fst s3)).
  { unfold s4. rewrite stage_text. reflexivity. }
  match goal with
  | |- context [Truncate.truncate (fst ?s) _] => set (s5 := s)
  end.
  assert (E5 : fst s5 = pass (linterAggregation t && Linter.isLinterCommand toLowerCase command)
                          (fun x => Linter.aggregateLinterOutput toLowerCase x command)
                          (fst s4)).
  { unfold s5. rewrite stage_text. reflexivity. }
  rewrite <- E2, <- E3, <- E4, <- E5. unfold capped. fold t.
  destruct (truncation_enabled (truncation t)
            && (maxChars (truncation t) <? Z.of_nat (length (fst s5)))%Z); reflexivity.
Qed.

Lemma capped_within config text :
  truncation_enabled (truncation (techniques config)) = true ->
  (3 <= maxChars (truncation (techniques config)))%Z ->
  (Z.of_nat (length (capped config text)) <= maxChars (truncation (techniques config)))%Z.
Proof.
  intros He H3. unfold capped. cbv zeta. rewrite He. cbn [andb].
  destruct (maxChars (truncation (techniques config)) <? Z.of_nat (length text))%Z eqn:E.
  - apply Z.ltb_lt in E. rewrite truncate_length; lia.
  - apply Z.ltb_ge in E. exact E.
Qed.

(** X25.  With truncation switched on and a budget of at least 3 units,
    the text of a command result is within the budget once the handler has
    run: when the handler replaces the content, every text item of the new
    content is, and when it leaves the result alone, the text it looked at
    already was. *)
Theorem X25_bash_budget (config : RtkConfig) (command : option str)
    (content : list item) :
  truncation_enabled (truncation (techniques config)) = true ->
  (3 <= maxChars (truncation (techniques config)))%Z ->
  match onToolResult toLowerCase localeCompare true config (bash_result command content) with
  | Some content' => Forall (within (maxChars (truncation (techniques config)))) content'
  | None =>
      forall text, findText content = Some text ->
        (Z.of_nat (length text) <= maxChars (truncation (techniques config)))%Z
  end.
Proof.
  intros He H3. unfold onToolResult. cbn [negb].
  destruct (findText content) as [originalText|] eqn:F; [|intros text; discriminate].
  assert (W : (Z.of_nat (length (fst (bashFilter toLowerCase config command originalText)))
               <= maxChars (truncation (techniques config)))%Z).
  { pose proof (bashFilter_text config command originalText) as E. cbv zeta in E.
    rewrite E. apply capped_within; assumption. }
  unfold changed.
  destruct (str_eqb (fst (bashFilter toLowerCase config command originalText)) originalText)
    eqn:E; cbn [negb].
  - apply str_eqb_eq in E. rewrite E in W. intros text Ht. inversion Ht; subst. exact W.
  - apply setText_within. exact W.
Qed.


Lemma fast_clean text : ~ In ESC text -> Ansi.stripAnsiFast text = text.
Proof.
  intros H. unfold Ansi.stripAnsiFast.
  destruct (includes [ESC] text) eqn:E; [|reflexivity].
  apply AnsiMoreFacts.includes_one in E. contradiction.
Qed.

(** X26.  The handler leaves a command result alone when its text holds no
    escape unit, the command is of none of the four kinds, and the text is
    within the budget or truncation is off. *)
Theorem X26_bash_untouched (on : bool) (config : RtkConfig) (command : option str)
    (content : list item) (text : str) :
  findText content = Some text ->
  ~ In ESC text ->
  Build.isBuildCommand toLowerCase command = false ->
  TestOutput.isTestCommand toLowerCase command = false ->
  Git.isGitCommand toLowerCase command = false ->
  Linter.isLinterCommand toLowerCase command = false ->
  (truncation_enabled (truncation (techniques config)) = true ->
   (Z.of_nat (length text) <= maxChars (truncation (techniques config)))%Z) ->
  onToolResult toLowerCase localeCompare on config (bash_result command content) = None.
Proof.
  intros F Hesc Hb Ht Hg Hl Hm. unfold onToolResult.
  destruct on; [|reflexivity]. cbn [negb]. rewrite F.
  pose proof (bashFilter_text config command text) as E. cbv zeta in E.
  rewrite Hb, Ht, Hg, Hl, !andb_false_r in E.
  assert (S : stripped config text = text).
  { unfold stripped. destruct (ansiStripping (techniques config)); [|reflexivity].
    apply fast_clean. exact Hesc. }
  rewrite S in E.
  assert (C : capped config text = text).
  { unfold capped. cbv zeta.
    destruct (truncation_enabled (truncation (techniques config))); [|reflexivity].
    cbn [andb]. specialize (Hm eq_refl).
    destruct (maxChars (truncation (techniques config)) <? Z.of_nat (length text))%Z eqn:L;
      [apply Z.ltb_lt in L; lia | reflexivity]. }
  rewrite C in E. unfold changed. rewrite E, str_eqb_refl. reflexivity.
Qed.

(** X27.  For a command that is both a build command and a test command,
    with both techniques on, the test summary is computed from the build
    report of the stripped output and not from the output itself.  The git
    and linter stages, then the truncation, work on that summary: the text
    of the result is what they make of it, and it is the summary itself, cut
    to the budget, when the command is neither a git nor a linter
    command. *)
Theorem X27_build_then_test (config : RtkConfig) (command : option str) (text : str) :
  buildOutputFiltering (techniques config) = true ->
  testOutputAggregation (techniques config) = true ->
  Build.isBuildCommand toLowerCase command = true ->
  TestOutput.isTestCommand toLowerCase command = true ->
  let summary :=
    TestOutput.format
      (TestOutput.summarize
         (Build.format (Build.scanLines (lines_of (stripped config text))))) in
  fst (bashFilter toLowerCase config command text)
  = capped config (later toLowerCase config command summary)
  /\ (Git.isGitCommand toLowerCase command = false ->
      Linter.isLinterCommand toLowerCase command = false ->
      fst (bashFilter toLowerCase config command text) = capped config summary).
Proof.
  intros Cb Ct Hb Ht summary.
  assert (E : fst (bashFilter toLowerCase config command text)
              = capped config (later toLowerCase config command summary)).
  { pose proof (bashFilter_text config command text) as E.
    cbv zeta in E. rewrite E, Cb, Ct, Hb, Ht. cbn [andb].
    unfold Build.filterBuildOutput, TestOutput.aggregateTestOutput.
    rewrite Hb, Ht. reflexivity. }
  split; [exact E|].
  intros Hg Hl. rewrite E. unfold later, applied. cbv zeta.
  rewrite Hg, Hl, !andb_false_r. reflexivity.
Qed.

Lemma setText_withinLines n t : forall content,
  withinLines n (text_item t) -> Forall (withinLines n) (setText content t).
Proof.
  induction content as [|c content IH]; intros H; cbn [setText map]; constructor.
  - destruct c; [exact H | exact I].
  - apply IH. exact H.
Qed.

Lemma readFilter_lines config language text :
  smartTruncation_enabled (smartTruncation (techniques config)) = true ->
  (2 <= maxLines (smartTruncation (techniques config)))%Z ->
  (2 * Z.of_nat (length (lines_of (fst (readFilter config language text))))
   <= 3 * maxLines (smartTruncation (techniques config)) - 2)%Z.
Proof.
  intros He H2. unfold readFilter. cbv zeta. rewrite He. cbn [andb].
  set (filtered := Source.filterSourceCode text language
                     (level (sourceCodeFiltering (techniques config)))).
  destruct (maxLines (smartTruncation (techniques config))
            <? Z.of_nat (length (lines_of filtered)))%Z eqn:E; cbn [fst].
  - apply Z.ltb_lt in E.
    apply (@SmartTruncateFacts.smartTruncate_long filtered
             (maxLines (smartTruncation (techniques config))) language). lia.
  - apply Z.ltb_ge in E. lia.
Qed.

(** X28.  The handler replaces the content of a file read only for a path
    whose language is known and with source filtering switched on; with
    smart truncation on and a budget of at least 2 lines, every text item of
    the new content has at most [(3 * maxLines - 2) / 2] lines. *)
Theorem X28_read_budget (on : bool) (config : RtkConfig) (path : option str)
    (content content' : list item) :
  onToolResult toLowerCase localeCompare on config (read_result path content)
  = Some content' ->
  (exists p, path = Some p
             /\ SourceLanguage.detectLanguage toLowerCase p <> Source.unknown)
  /\ sourceCodeFiltering_enabled (sourceCodeFiltering (techniques config)) = true
  /\ (smartTruncation_enabled (smartTruncation (techniques config)) = true ->
      (2 <= maxLines (smartTruncation (techniques config)))%Z ->
      Forall (withinLines (maxLines (smartTruncation (techniques config)))) content').
Proof.
  unfold onToolResult. destruct on; [|discriminate]. cbn [negb].
  destruct (findText content) as [originalText|]; [|discriminate].
  destruct (sourceCodeFiltering_enabled (sourceCodeFiltering (techniques config)));
    [|discriminate].
  cbn [andb].
  set (filePath := match path with Some p => Linter.orStr p [] | None => [] end).
  destruct (Source.is_unknown (SourceLanguage.detectLanguage toLowerCase filePath)) eqn:U;
    [discriminate|].
  cbn [negb]. unfold changed.
  destruct (str_eqb _ originalText); [discriminate|]. cbn [negb].
  intros H. inversion H; subst. split; [|split; [reflexivity|]].
  - destruct path as [p|].
    + exists p. split; [reflexivity|].
      assert (P : filePath = p) by (unfold filePath; destruct p; reflexivity).
      rewrite P in U. intros N. rewrite N in U. discriminate.
    + exfalso. unfold filePath in U. discriminate.
  - intros He H2. apply setText_withinLines. cbn [withinLines].
    apply readFilter_lines; assumption.
Qed.

End WithBuiltins.

Lemma X25_bash_budget_witness :
  match onToolResult ascii_toLowerCase (fun _ _ => 0%Z) true DEFAULT_CONFIG
          (bash_result (Some `"ls -la") [text_item `"total 0"]) with
  | Some content' =>
      Forall (within (maxChars (truncation (techniques DEFAULT_CONFIG)))) content'
  | None =>
      forall text, findText [text_item `"total 0"] = Some text ->
        (Z.of_nat (length text) <= maxChars (truncation (techniques DEFAULT_CONFIG)))%Z
  end.
Proof.
  apply (@X25_bash_budget ascii_toLowerCase (fun _ _ => 0%Z) DEFAULT_CONFIG
           (Some `"ls -la") [text_item `"total 0"]).
  - reflexivity.
  - vm_compute. discriminate.
Defined.

Lemma X26_bash_untouched_witness :
  onToolResult ascii_toLowerCase (fun _ _ => 0%Z) true DEFAULT_CONFIG
    (bash_result (Some `"ls -la") [text_item `"total 0"]) = None.
Proof.
  apply (@X26_bash_untouched ascii_toLowerCase (fun _ _ => 0%Z) true DEFAULT_CONFIG
           (Some `"ls -la") [text_item `"total 0"] `"total 0").
  - reflexivity.
  - vm_compute. intuition discriminate.
  - vm_compute. reflexivity.
  - vm_compute. reflexivity.
  - vm_compute. reflexivity.
  - vm_compute. reflexivity.
  - intros _. vm_compute. discriminate.
Defined.

Lemma X27_build_then_test_witness :
  let summary :=
    TestOutput.format
      (TestOutput.summarize
         (Build.format
            (Build.scanLines
               (lines_of (stripped DEFAULT_CONFIG `"Tests: 12 passed, 12 total"))))) in
  fst (bashFilter ascii_toLowerCase DEFAULT_CONFIG (Some `"make test")
         `"Tests: 12 passed, 12 total")
  = capped DEFAULT_CONFIG
      (later ascii_toLowerCase DEFAULT_CONFIG (Some `"make test") summary)
  /\ (Git.isGitCommand ascii_toLowerCase (Some `"make test") = false ->
      Linter.isLinterCommand ascii_toLowerCase (Some `"make test") = false ->
      fst (bashFilter ascii_toLowerCase DEFAULT_CONFIG (Some `"make test")
             `"Tests: 12 passed, 12 total")
      = capped DEFAULT_CONFIG summary).
Proof.
  apply (@X27_build_then_test ascii_toLowerCase DEFAULT_CONFIG
           (Some `"make test") `"Tests: 12 passed, 12 total");
    vm_compute; reflexivity.
Defined.

Lemma X28_read_budget_witness :
  (exists p, Some `"src/main.rs" = Some p
             /\ SourceLanguage.detectLanguage ascii_toLowerCase p <> Source.unknown)
  /\ sourceCodeFiltering_enabled (sourceCodeFiltering (techniques DEFAULT_CONFIG)) = true
  /\ (smartTruncation_enabled (smartTruncation (techniques DEFAULT_CONFIG)) = true ->
      (2 <= maxLines (smartTruncation (techniques DEFAULT_CONFIG)))%Z ->
      Forall (withinLines (maxLines (smartTruncation (techniques DEFAULT_CONFIG))))
        [text_item `"fn main() {}"]).
Proof.
  apply (@X28_read_budget ascii_toLowerCase (fun _ _ => 0%Z) true DEFAULT_CONFIG
           (Some `"src/main.rs") [text_item `"// entry point
fn main() {}"] [text_item `"fn main() {}"]).
  vm_compute. reflexivity.
Defined.

End HandlerFacts.
(** ** Source filter: what the two passes can do to a text *)

Module PassFacts.
Import Pruning StrFacts.

Lemma pruned_app language : forall a x,
  pruned language a x ->
  forall b y, pruned language b y -> pruned language (a ++ b) (x ++ y).
Proof.
  induction 1 as [|out l ls H IH|o out l ls Hc H IH]; intros b y Hb; cbn [app].
  - exact Hb.
  - apply pruned_drop. apply IH. exact Hb.
  - apply pruned_keep; [exact Hc | apply IH; exact Hb].
Qed.

(** The index found by [indexOf] is that of the first occurrence. *)
Lemma indexOf_from_first p : forall s i,
  (0 <= indexOf_from p s i)%Z -> (0 <= i)%Z ->
  exists n rest,
    indexOf_from p s i = (i + Z.of_nat n)%Z
    /\ n <= length s
    /\ s = firstn n s ++ p ++ rest
    /\ forall o' rest', s = o' ++ p ++ rest' -> n <= length o'.
Proof.
  induction s as [|x s IH]; intros i H Hi; cbn [indexOf_from] in *.
  - destruct (startsWith p []) eqn:E; [|lia].
    apply startsWith_iff in E. destruct E as (t & Et).
    exists 0, t. repeat split; [lia | lia | exact Et | intros; lia].
  - destruct (startsWith p (x :: s)) eqn:E.
    + apply startsWith_iff in E. destruct E as (t & Et).
      exists 0, t. repeat split; [lia | cbn [length]; lia | exact Et | intros; lia].
    + destruct (IH (i + 1)%Z H ltac:(lia)) as (n & rest & A & B & C & D).
      exists (S n), rest. repeat split.
      * rewrite A. lia.
      * cbn [length]. lia.
      * cbn [firstn app]. f_equal. exact C.
      * intros o' rest' Es. destruct o' as [|y o'].
        -- exfalso. cbn [app] in Es.
           assert (S : startsWith p (x :: s) = true) by (apply startsWith_iff; eauto).
           congruence.
        -- cbn [app] in Es. inversion Es; subst y.
           cbn [length]. apply le_n_S. eapply D. eassumption.
Qed.

Lemma lineComment_kept patterns st l trimmed :
  exists o,
    (o = l \/ exists marker, Source.line patterns = Some marker /\ cutAt marker o l)
    /\ Source.kept (Source.lineComment patterns st l trimmed) = Source.kept st ++ [o].
Proof.
  unfold Source.lineComment, Source.push, slice0.
  destruct (Source.line patterns) as [[|x p]|]; cbn [Source.kept];
    try (exists l; split; [left; reflexivity | reflexivity]).
  destruct (0 <=? indexOf (x :: p) l)%Z eqn:E; cbn [Source.kept];
    [|exists l; split; [left; reflexivity | reflexivity]].
  destruct (Source.starts (Source.docComment patterns) trimmed); cbn [Source.kept].
  { exists l. split; [left; reflexivity | reflexivity]. }
  apply Z.leb_le in E. unfold indexOf in *.
  destruct (@indexOf_from_first (x :: p) l 0%Z E ltac:(lia)) as (n & rest & A & B & C & D).
  rewrite A. replace (Z.to_nat (0 + Z.of_nat n)) with n by lia.
  exists (firstn n l). split; [|reflexivity].
  right. exists (x :: p). split; [reflexivity|]. split; [discriminate|].
  exists rest. split; [exact C|].
  intros o' rest' Es. rewrite length_firstn. specialize (D o' rest' Es). lia.
Qed.

Lemma blockComment_kept patterns st l trimmed :
  Source.kept (Source.blockComment patterns st l trimmed) = Source.kept st
  \/ exists o,
       (o = l \/ exists marker, Source.line patterns = Some marker /\ cutAt marker o l)
       /\ Source.kept (Source.blockComment patterns st l trimmed) = Source.kept st ++ [o].
Proof.
  unfold Source.blockComment.
  destruct (Source.starts (Source.blockStart patterns) trimmed
            && Source.starts (Source.docComment patterns) trimmed).
  { right. exists l. split; [left; reflexivity | reflexivity]. }
  destruct (Source.starts (Source.blockStart patterns) trimmed); cbn [Source.inBlockComment].
  - destruct (Source.ends (Source.blockEnd patterns) trimmed); left; reflexivity.
  - destruct (Source.inBlockComment st).
    + destruct (Source.ends (Source.blockEnd patterns) trimmed); left; reflexivity.
    + right. apply lineComment_kept.
Qed.

Lemma mstep_kept language st l :
  Source.kept (Source.mstep language st l) = Source.kept st
  \/ exists o, remains language o l
               /\ Source.kept (Source.mstep language st l) = Source.kept st ++ [o].
Proof.
  unfold Source.mstep, remains. cbv zeta.
  destruct (Source.is_python language
            && Source.truthy (Source.docComment (Source.COMMENT_PATTERNS language)));
    [|apply blockComment_kept].
  destruct (Source.starts (Source.docComment (Source.COMMENT_PATTERNS language)) (trim l)).
  { right. exists l. split; [left; reflexivity | reflexivity]. }
  destruct (Source.inDocstring st); [|apply blockComment_kept].
  right. exists l. split; [left; reflexivity | reflexivity].
Qed.

Lemma minimal_fold language : forall lines st done,
  pruned language (Source.kept st) done ->
  pruned language (Source.kept (fold_left (Source.mstep language) lines st)) (done ++ lines).
Proof.
  induction lines as [|l lines IH]; intros st done H; cbn [fold_left].
  - rewrite app_nil_r. exact H.
  - replace (done ++ l :: lines) with ((done ++ [l]) ++ lines)
      by (rewrite <- app_assoc; reflexivity).
    apply IH. destruct (mstep_kept language st l) as [E | (o & Hc & E)]; rewrite E.
    + rewrite <- (app_nil_r (Source.kept st)).
      apply pruned_app; [exact H | apply pruned_drop, pruned_nil].
    + apply pruned_app; [exact H | apply pruned_keep; [exact Hc | apply pruned_nil]].
Qed.

(** X29.  The comment loop of [filterMinimal] only deletes lines and cuts
    lines at a line comment: what it keeps is, line by line and in order,
    either a line of the content as it is or the part of one that stands
    before the first occurrence of the language's line-comment marker.  It
    adds nothing and moves nothing. *)
Theorem X29_minimal_pass_prunes (language : Source.Language) (lines : list str) :
  pruned language (Source.minimalPass language lines) lines.
Proof.
  unfold Source.minimalPass.
  apply (@minimal_fold language lines (Source.mkM [] false false) []).
  apply pruned_nil.
Qed.

Lemma skeleton_app : forall a x, skeleton a x -> forall b y, skeleton b y -> skeleton (a ++ b) (x ++ y).
Proof.
  induction 1 as [|out l ls H IH|out l ls H IH|out ls H IH]; intros b y Hb; cbn [app].
  - exact Hb.
  - apply skeleton_drop. apply IH. exact Hb.
  - apply skeleton_keep. apply IH. exact Hb.
  - apply skeleton_mark. apply IH. exact Hb.
Qed.

(** What one iteration of the aggressive loop appends. *)
Lemma astep_result st l :
  exists added,
    Source.result (Source.astep st l) = Source.result st ++ added
    /\ skeleton added [l]
    /\ (declares l = true -> In l added).
Proof.
  unfold Source.astep, declares. cbv zeta.
  destruct (test Source.importPattern (trim l)).
  { exists [l]. cbn [Source.result]. split; [reflexivity|].
    split; [apply skeleton_keep, skeleton_nil | intros _; left; reflexivity]. }
  destruct (test Source.signaturePattern (trim l)).
  { exists [l]. cbn [Source.result]. split; [reflexivity|].
    split; [apply skeleton_keep, skeleton_nil | intros _; left; reflexivity]. }
  cbn [orb].
  destruct (Source.inImplementation st).
  - match goal with
    | |- context [if ?c then Source.result st ++ [l] else Source.result st] =>
        destruct c
    end;
    match goal with
    | |- context [if (?d <=? 0)%Z then _ else _] => destruct (d <=? 0)%Z
    end; cbn [Source.result];
    try match goal with
    | |- context [if ?c then _ ++ [Source.PLACEHOLDER] else _] => destruct c
    end;
    rewrite <- ?app_assoc;
    first
      [ exists [l; Source.PLACEHOLDER]; split; [reflexivity|];
        split; [apply skeleton_keep, skeleton_mark, skeleton_nil | discriminate]
      | exists [l]; split; [reflexivity|];
        split; [apply skeleton_keep, skeleton_nil | discriminate]
      | exists [Source.PLACEHOLDER]; split; [reflexivity|];
        split; [apply skeleton_mark, skeleton_drop, skeleton_nil | discriminate]
      | exists []; split; [rewrite app_nil_r; reflexivity|];
        split; [apply skeleton_drop, skeleton_nil | discriminate] ].
  - destruct (test Source.constPattern (trim l)); cbn [Source.result].
    + exists [l]. split; [reflexivity|].
      split; [apply skeleton_keep, skeleton_nil | discriminate].
    + exists []. split; [rewrite app_nil_r; reflexivity|].
      split; [apply skeleton_drop, skeleton_nil | discriminate].
Qed.

Lemma aggressive_fold : forall lines st done,
  skeleton (Source.result st) done ->
  (forall l, In l done -> declares l = true -> In l (Source.result st)) ->
  let st' := fold_left Source.astep lines st in
  skeleton (Source.result st') (done ++ lines)
  /\ (forall l, In l (done ++ lines) -> declares l = true -> In l (Source.result st')).
Proof.
  induction lines as [|l lines IH]; intros st done H K; cbn [fold_left].
  - rewrite app_nil_r. split; assumption.
  - replace (done ++ l :: lines) with ((done ++ [l]) ++ lines)
      by (rewrite <- app_assoc; reflexivity).
    destruct (astep_result st l) as (added & E & S & D).
    apply IH.
    + rewrite E. apply skeleton_app; assumption.
    + intros x Hx Dx. rewrite E. apply in_or_app. apply in_app_or in Hx.
      destruct Hx as [Hx | [<- | []]]; [left; apply K; assumption | right; auto].
Qed.

(** X30.  The loop of [filterAggressive] only deletes lines and inserts
    placeholder lines: the lines it keeps are lines of the text it scans,
    unchanged and in order.  It never drops an import line or a signature
    line. *)
Theorem X30_aggressive_pass_skeleton (lines : list str) :
  let kept := Source.result (fold_left Source.astep lines (Source.mkA [] 0 false)) in
  skeleton kept lines
  /\ (forall l, In l lines -> declares l = true -> In l kept).
Proof.
  apply (@aggressive_fold lines (Source.mkA [] 0 false) []).
  - apply skeleton_nil.
  - intros l [].
Qed.

End PassFacts.
